(** * proxy-signal: a shallow embedding of [src/index.tsx]

    The library keeps three pieces of mutable state: the listener set of
    every signal (a JavaScript [Set], closed over by [createSignal]), the
    module-level flag [isRunningEffect] and the module-level set
    [effectDependencies].  They are threaded explicitly through a small
    state-and-exception monad.  Callbacks are JavaScript closures; here a
    callback is an index into a table of bodies written in a small command
    language whose primitives are exactly the operations a client can
    perform on a signal (property reads and writes through the proxies,
    [subscribe], calling an unsubscribe handle, [signalEffect], [throw]).

    A ghost [trace] records which traps fired and which callbacks were
    invoked; it has no counterpart in the source and is never read by the
    embedded code.

    Scope.  Payloads are JSON-like data: primitives, arrays and plain
    objects in a heap, with own string-keyed properties only (no
    prototypes, no [length] of arrays); numbers are integers, so that no
    payload is [NaN], the one value that is not [===] to itself; signals
    are not stored inside payloads.  Client code is module code, hence
    strict: an assignment the [set] trap rejects throws.  Client code has
    no [try]: an exception ends the call made from the top level, and the
    next call finds the state the exception left; a run that returns is a
    run in which nothing was thrown.  Of the React hooks, the functions
    [useSignal] and [useComputed] hand to React are embedded, over the
    cells React keeps for them; React itself is not, and with it
    [useSignalEffect], which hands [signalEffect] to [useEffect].  The
    file also keeps earlier revisions of its functions; the module
    [Earlier] embeds what two of the hooks handed to React then. *)

From stdpp Require Import base option list strings pretty.
From Stdlib Require Import ZArith.

Open Scope string_scope.
Open Scope list_scope.

(** ** Values and objects *)

(** Payload values.  Numbers are integers (no arithmetic is performed on
    payloads by the library).  [VRef] points into the object heap; [VSub s]
    is the [subscribe] closure of signal [s]. *)
Inductive Val : Type :=
  | VUndef
  | VNull
  | VBool (b : bool)
  | VNum (n : Z)
  | VStr (s : string)
  | VRef (r : nat)
  | VSub (s : nat).

#[global] Instance Val_eq_dec : EqDecision Val.
Proof. solve_decision. Defined.

(** A heap object.  [KProxy s] is the result of [new Proxy(parsed, {set})]
    inside [recursiveProxy] called with the [notifyListeners] closure of
    signal [s]; [parsed] is referenced by that proxy only, so proxy and
    target share one heap cell. *)
Inductive ObjKind : Type :=
  | KPlain
  | KArray
  | KProxy (owner : nat).

#[global] Instance ObjKind_eq_dec : EqDecision ObjKind.
Proof. solve_decision. Defined.

Record Obj : Type := mkObj {
  okind : ObjKind;
  oprops : list (string * Val)
}.

(** Own properties, in insertion order. *)
Fixpoint prop_get (ps : list (string * Val)) (k : string) : Val :=
  match ps with
  | [] => VUndef
  | (k', v) :: rest => if String.eqb k k' then v else prop_get rest k
  end.

Fixpoint prop_set (ps : list (string * Val)) (k : string) (v : Val)
  : list (string * Val) :=
  match ps with
  | [] => [(k, v)]
  | (k', v') :: rest =>
      if String.eqb k k' then (k, v) :: rest
      else (k', v') :: prop_set rest k v
  end.

(** [typeof v === "object" && v !== null && !Array.isArray(v)]: the
    object [v] refers to, if it passes the test. *)
Definition as_object (h : list Obj) (v : Val) : option nat :=
  match v with
  | VRef r =>
      match h !! r with
      | Some o => match okind o with KArray => None | _ => Some r end
      | None => None
      end
  | _ => None
  end.

(** [Object.keys(obj)] *)
Definition keys_of (ps : list (string * Val)) : list string :=
  remove_dups (map fst ps).

(** JavaScript truthiness, for [if]. *)
Definition truthy (v : Val) : bool :=
  match v with
  | VUndef | VNull => false
  | VBool b => b
  | VNum n => negb (n =? 0)%Z
  | VStr s => negb (String.eqb s "")
  | VRef _ | VSub _ => true
  end.

(** ** Signals and the global recorder *)

(** The target [{ value, subscribe }] of the outer proxy together with the
    [listeners] set its closures capture.  A JavaScript [Set] iterates its
    entry list in insertion order; [delete] empties an entry in place and
    [add] appends, so that a running [forEach] skips entries deleted ahead
    of it and visits entries added behind it. *)
Record Cell : Type := mkCell {
  value : Val;
  listeners : list (option nat)
}.

Inductive Event : Type :=
  | EvGet (s : nat) (prop : string)       (* outer [get] trap *)
  | EvNotify (s : nat)                    (* [notifyListeners] entered *)
  | EvCall (by_signal : option nat) (cb : nat) (* a callback is invoked *)
  | EvCapture (cb : nat)                  (* [getDependenciesFromEffect] entered *)
  | EvCaptured (cb : nat)                 (* ... and about to return *)
  | EvSub (s : nat) (cb : nat)            (* [listeners.add(cb)] *)
  | EvUnsub (s : nat) (cb : nat).         (* [listeners.delete(cb)] *)

#[global] Instance Event_eq_dec : EqDecision Event.
Proof. solve_decision. Defined.

(** The table [signals] also plays the role of the module-level [store]
    map, which the source fills and never reads. *)
Record State : Type := mkState {
  signals : list Cell;
  heap : list Obj;
  isRunningEffect : bool;
  effectDependencies : list nat;
  trace : list Event
}.

Definition initial : State := mkState [] [] false [] [].

Definition set_signals (f : list Cell -> list Cell) (st : State) : State :=
  mkState (f (signals st)) (heap st) (isRunningEffect st)
          (effectDependencies st) (trace st).

Definition set_heap (h : list Obj) (st : State) : State :=
  mkState (signals st) h (isRunningEffect st) (effectDependencies st)
          (trace st).

Definition set_flag (b : bool) (st : State) : State :=
  mkState (signals st) (heap st) b (effectDependencies st) (trace st).

Definition set_deps (d : list nat) (st : State) : State :=
  mkState (signals st) (heap st) (isRunningEffect st) d (trace st).

Definition emit (e : Event) (st : State) : State :=
  mkState (signals st) (heap st) (isRunningEffect st)
          (effectDependencies st) (trace st ++ [e]).

(** [Set.prototype.add] on a set of signals (never iterated while it
    changes): append unless present. *)
Definition deps_add (s : nat) (d : list nat) : list nat :=
  if bool_decide (s ∈ d) then d else d ++ [s].

(** [listeners.add(cb)] and [listeners.delete(cb)]. *)
Definition listeners_add (cb : nat) (l : list (option nat))
  : list (option nat) :=
  if bool_decide (Some cb ∈ l) then l else l ++ [Some cb].

Definition listeners_delete (cb : nat) (l : list (option nat))
  : list (option nat) :=
  map (fun e => if bool_decide (e = Some cb) then None else e) l.

(** The callbacks currently in the set, in iteration order. *)
Definition live (l : list (option nat)) : list nat := omap id l.

Definition listeners_of (st : State) (s : nat) : list (option nat) :=
  match signals st !! s with
  | Some c => listeners c
  | None => []
  end.

Definition value_of (st : State) (s : nat) : Val :=
  match signals st !! s with
  | Some c => value c
  | None => VUndef
  end.

(** ** The monad: state, exceptions, and running out of fuel *)

Inductive Result (A : Type) : Type :=
  | Ok (a : A) (st : State)
  | Throw (st : State)
  | Diverge.
Arguments Ok {A} a st.
Arguments Throw {A} st.
Arguments Diverge {A}.

Definition M (A : Type) : Type := State -> Result A.

Definition ret {A} (a : A) : M A := fun st => Ok a st.

Definition bind {A B} (m : M A) (k : A -> M B) : M B :=
  fun st =>
    match m st with
    | Ok a st' => k a st'
    | Throw st' => Throw st'
    | Diverge => Diverge
    end.

Definition throw {A} : M A := fun st => Throw st.

Definition modify (f : State -> State) : M unit := fun st => Ok tt (f st).

Notation "x <- m ;; k" := (bind m (fun x => k))
  (at level 100, m at next level, k at level 200, right associativity).
Notation "m ;; k" := (bind m (fun _ => k))
  (at level 100, k at level 200, right associativity).

(** The state a result carries, if any. *)
Definition final {A} (r : Result A) : option State :=
  match r with
  | Ok _ st => Some st
  | Throw st => Some st
  | Diverge => None
  end.

(** ** The signal proxy ([createSignal], lines 67-94) *)

(** [target[prop]] on [{ value, subscribe }]. *)
Definition target_get (s : nat) (c : Cell) (prop : string) : Val :=
  if String.eqb prop "value" then value c
  else if String.eqb prop "subscribe" then VSub s
  else VUndef.

(** The side effect of the [get] trap: [if (prop === "value" &&
    isRunningEffect) effectDependencies.add(signal)]. *)
Definition record_get (s : nat) (prop : string) (st : State) : State :=
  let st1 := emit (EvGet s prop) st in
  if String.eqb prop "value" && isRunningEffect st1
  then set_deps (deps_add s (effectDependencies st1)) st1
  else st1.

(** The [get] trap.  An identifier that denotes no signal is [undefined],
    and reading a property of [undefined] throws. *)
Definition signal_get (s : nat) (prop : string) : M Val :=
  fun st =>
    match signals st !! s with
    | None => Throw st
    | Some c => Ok (target_get s c prop) (record_get s prop st)
    end.

Definition store_value (s : nat) (v : Val) (st : State) : State :=
  set_signals (alter (fun c => mkCell v (listeners c)) s) st.

(** The [set] trap, over the notification it triggers.  The result is the
    boolean the trap returns. *)
Definition signal_set (notify : nat -> M unit) (s : nat) (prop : string)
    (newValue : Val) : M bool :=
  fun st =>
    match signals st !! s with
    | None => Throw st
    | Some _ =>
        if String.eqb prop "value" then
          (notify s ;; ret true) (store_value s newValue st)
        else
          Ok false st
    end.

(** [subscribe(callback)]: [listeners.add(callback)]; the handle it returns
    is determined by the pair (signal, callback). *)
Definition subscribe (s cb : nat) : M unit :=
  modify (fun st =>
    emit (EvSub s cb)
      (set_signals
         (alter (fun c => mkCell (value c) (listeners_add cb (listeners c))) s)
         st)).

(** Calling the handle: [listeners.delete(callback)]. *)
Definition unsubscribe (s cb : nat) : M unit :=
  modify (fun st =>
    emit (EvUnsub s cb)
      (set_signals
         (alter (fun c => mkCell (value c) (listeners_delete cb (listeners c)))
                s)
         st)).

(** [signal.subscribe(callback)] as a client writes it: the property read
    goes through the [get] trap. *)
Definition call_subscribe (s cb : nat) : M unit :=
  _ <- signal_get s "subscribe" ;; subscribe s cb.

(** ** Nested objects ([recursiveProxy], lines 12-37) *)

(** Reading a property of a heap object: the inner proxies have no [get]
    trap, so proxied and plain objects read alike. *)
Definition obj_get (r : nat) (k : string) : M Val :=
  fun st =>
    match heap st !! r with
    | None => Throw st
    | Some o => Ok (prop_get (oprops o) k) st
    end.

Definition store_prop (r : nat) (k : string) (v : Val) (st : State) : State :=
  set_heap (alter (fun o => mkObj (okind o) (prop_set (oprops o) k v)) r
                  (heap st)) st.

(** Writing a property of a heap object.  On a proxy the [set] trap of
    [recursiveProxy] stores and then calls the callback it was built with;
    plain objects and arrays just store. *)
Definition obj_set (notify : nat -> M unit) (r : nat) (k : string) (v : Val)
  : M unit :=
  fun st =>
    match heap st !! r with
    | None => Throw st
    | Some o =>
        match okind o with
        | KProxy s => notify s (store_prop r k v st)
        | _ => Ok tt (store_prop r k v st)
        end
    end.

(** The [reduce] over [Object.keys(obj)]: [obj[key]] is wrapped by [wrap]
    when it is a non-array object and copied otherwise. *)
Fixpoint reduce_keys (wrap : nat -> list Obj -> option (nat * list Obj))
    (obj : list (string * Val)) (keys : list string)
    (acc : list (string * Val)) (h : list Obj)
  : option (list (string * Val) * list Obj) :=
  match keys with
  | [] => Some (acc, h)
  | key :: rest =>
      match as_object h (prop_get obj key) with
      | Some r =>
          match wrap r h with
          | Some (r', h') =>
              reduce_keys wrap obj rest (prop_set acc key (VRef r')) h'
          | None => None
          end
      | None =>
          reduce_keys wrap obj rest (prop_set acc key (prop_get obj key)) h
      end
  end.

(** [recursiveProxy(obj, notifyListeners)] for the signal [s].  [None] is
    the call stack running out on a cyclic object. *)
Fixpoint recursiveProxy (fuel : nat) (s : nat) (r : nat) (h : list Obj)
  : option (nat * list Obj) :=
  match fuel with
  | O => None
  | S f =>
      match h !! r with
      | None => None
      | Some o =>
          match reduce_keys (recursiveProxy f s) (oprops o)
                            (keys_of (oprops o)) [] h with
          | Some (parsed, h') =>
              Some (length h', h' ++ [mkObj (KProxy s) parsed])
          | None => None
          end
      end
  end.

(** ** [createSignal] (lines 47-97) *)

Definition createSignal (fuel : nat) (initialValue : Val) : M nat :=
  fun st =>
    let s := length (signals st) in
    match as_object (heap st) initialValue with
    | Some r =>
        match recursiveProxy fuel s r (heap st) with
        | Some (r', h') =>
            Ok s (set_signals (fun l => l ++ [mkCell (VRef r') []])
                              (set_heap h' st))
        | None => Diverge
        end
    | None => Ok s (set_signals (fun l => l ++ [mkCell initialValue []]) st)
    end.

(** ** Client code *)

(** Literals: [{ k: l, ... }] and [[l, ...]] allocate. *)
Unset Elimination Schemes.
Inductive Lit : Type :=
  | LVal (v : Val)
  | LObj (fields : list (string * Lit))
  | LArr (items : list Lit).
Set Elimination Schemes.

Inductive Expr : Type :=
  | ELit (l : Lit)
  | ESigGet (s : nat) (prop : string)     (* [s.prop], through the get trap *)
  | EField (e : Expr) (k : string).       (* [e.k] *)

Inductive Cmd : Type :=
  | CSkip
  | CSeq (c1 c2 : Cmd)
  | CEval (e : Expr)                      (* [e;] *)
  | CIf (e : Expr) (c1 c2 : Cmd)
  | CThrow
  | CSigSet (s : nat) (prop : string) (e : Expr)  (* [s.prop = e]; throws
                                             when the trap returns false *)
  | CAssign (target : Expr) (k : string) (rhs : Expr) (* [target.k = rhs] *)
  | CSubscribe (s cb : nat)               (* [s.subscribe(cb)] *)
  | CUnsubscribe (s cb : nat)             (* the handle of [s.subscribe(cb)] *)
  | CEffect (cb : nat).                   (* [signalEffect(cb)] *)

(** The fields of an object literal and the items of an array literal,
    evaluated left to right. *)
Fixpoint alloc_fields (alloc : Lit -> list Obj -> Val * list Obj)
    (fs : list (string * Lit)) (acc : list (string * Val)) (h : list Obj)
  : list (string * Val) * list Obj :=
  match fs with
  | [] => (acc, h)
  | (k, l) :: rest =>
      let '(v, h') := alloc l h in
      alloc_fields alloc rest (prop_set acc k v) h'
  end.

Fixpoint alloc_items (alloc : Lit -> list Obj -> Val * list Obj)
    (ls : list Lit) (i : nat) (acc : list (string * Val)) (h : list Obj)
  : list (string * Val) * list Obj :=
  match ls with
  | [] => (acc, h)
  | l :: rest =>
      let '(v, h') := alloc l h in
      alloc_items alloc rest (S i) (prop_set acc (pretty i) v) h'
  end.

Fixpoint alloc_lit (l : Lit) (h : list Obj) : Val * list Obj :=
  match l with
  | LVal v => (v, h)
  | LObj fields =>
      let '(ps, h1) := alloc_fields alloc_lit fields [] h in
      (VRef (length h1), h1 ++ [mkObj KPlain ps])
  | LArr items =>
      let '(ps, h1) := alloc_items alloc_lit items 0 [] h in
      (VRef (length h1), h1 ++ [mkObj KArray ps])
  end.

(** [v.k]: reading a property of [undefined] or [null] throws; primitives
    and functions have no own properties of interest. *)
Definition val_get (v : Val) (k : string) : M Val :=
  match v with
  | VRef r => obj_get r k
  | VUndef | VNull => throw
  | _ => ret VUndef
  end.

(** [v.k = w] in module (strict) code: throws on [undefined], [null] and
    primitives; property writes on a function are not tracked. *)
Definition val_set (notify : nat -> M unit) (v : Val) (k : string) (w : Val)
  : M unit :=
  match v with
  | VRef r => obj_set notify r k w
  | VSub _ => ret tt
  | _ => throw
  end.

Fixpoint eval (e : Expr) : M Val :=
  match e with
  | ELit l =>
      fun st => let '(v, h) := alloc_lit l (heap st) in Ok v (set_heap h st)
  | ESigGet s prop => signal_get s prop
  | EField e' k => v <- eval e' ;; val_get v k
  end.

(** ** Dependency capture and effects (lines 157-180) *)

Fixpoint for_each {A} (f : A -> M unit) (l : list A) : M unit :=
  match l with
  | [] => ret tt
  | x :: rest => f x ;; for_each f rest
  end.

(** [getDependenciesFromEffect(callback)], over the way a callback is
    called. *)
Definition getDependenciesFromEffect_with (call : nat -> M unit) (cb : nat)
  : M (list nat) :=
  modify (emit (EvCapture cb)) ;;
  modify (set_flag true) ;;
  call cb ;;
  modify (set_flag false) ;;
  deps <- (fun st => Ok (effectDependencies st) st) ;;
  modify (set_deps []) ;;
  modify (emit (EvCaptured cb)) ;;
  ret deps.

(** [signalEffect(callback)].  The closure it returns calls the handle of
    every subscription it made; it is determined by the dependency list,
    which is what the embedding returns. *)
Definition signalEffect_with (call : nat -> M unit) (cb : nat)
  : M (list nat) :=
  dependencies <- getDependenciesFromEffect_with call cb ;;
  for_each (fun s => call_subscribe s cb) dependencies ;;
  ret dependencies.

(** The closure returned by [signalEffect]. *)
Definition teardown (cb : nat) (dependencies : list nat) : M unit :=
  for_each (fun s => unsubscribe s cb) dependencies.

(** ** Running client code *)

Section Interp.

(** The callbacks of the client: [prog !! cb] is the body of callback
    [cb]; an index outside the table is a function with an empty body. *)
Variable prog : list Cmd.

Definition body (cb : nat) : Cmd := default CSkip (prog !! cb).

(** [notifyListeners] of signal [s], over the [forEach] it runs. *)
Definition notify_with (for_each_from : nat -> nat -> M unit) (s : nat)
  : M unit :=
  modify (emit (EvNotify s)) ;; for_each_from s 0.

(** [callback()], over the way a body is run. *)
Definition call_with (run : Cmd -> M unit) (cb : nat) : M unit :=
  modify (emit (EvCall None cb)) ;; run (body cb).

(** [exec] runs a command; [forEach s i] is [listeners.forEach((cb) =>
    cb())] on signal [s] from entry [i] on.  Both count down [fuel]:
    listeners may write signals, and listeners may be added while the
    set is iterated. *)
Fixpoint exec (fuel : nat) (c : Cmd) {struct fuel} : M unit :=
  match fuel with
  | O => fun _ => Diverge
  | S f =>
      match c with
      | CSkip => ret tt
      | CSeq c1 c2 => exec f c1 ;; exec f c2
      | CEval e => _ <- eval e ;; ret tt
      | CIf e c1 c2 =>
          v <- eval e ;; if truthy v then exec f c1 else exec f c2
      | CThrow => throw
      | CSigSet s prop e =>
          v <- eval e ;;
          ok <- signal_set (notify_with (forEach f)) s prop v ;;
          if ok : bool then ret tt else throw
      | CAssign target k rhs =>
          t <- eval target ;;
          v <- eval rhs ;;
          val_set (notify_with (forEach f)) t k v
      | CSubscribe s cb => call_subscribe s cb
      | CUnsubscribe s cb => unsubscribe s cb
      | CEffect cb =>
          _ <- signalEffect_with (call_with (exec f)) cb ;;
          ret tt
      end
  end
with forEach (fuel : nat) (s : nat) (i : nat) {struct fuel} : M unit :=
  match fuel with
  | O => fun _ => Diverge
  | S f =>
      fun st =>
        match listeners_of st s !! i with
        | None => Ok tt st
        | Some None => forEach f s (S i) st
        | Some (Some cb) =>
            (modify (emit (EvCall (Some s) cb)) ;;
             exec f (body cb) ;;
             forEach f s (S i)) st
        end
  end.

(** [notifyListeners] of signal [s] (lines 52-54). *)
Definition notifyListeners (fuel : nat) (s : nat) : M unit :=
  notify_with (forEach fuel) s.

(** Calling a callback directly, as [getDependenciesFromEffect] does. *)
Definition call (fuel : nat) (cb : nat) : M unit :=
  call_with (exec fuel) cb.

Definition getDependenciesFromEffect (fuel : nat) (cb : nat)
  : M (list nat) :=
  getDependenciesFromEffect_with (call fuel) cb.

Definition signalEffect (fuel : nat) (cb : nat) : M (list nat) :=
  signalEffect_with (call fuel) cb.

(** [signal.value = v] and [obj.k = v] issued from the top level. *)
Definition write (fuel : nat) (s : nat) (prop : string) (v : Val) : M bool :=
  signal_set (notifyListeners fuel) s prop v.

Definition write_prop (fuel : nat) (r : nat) (k : string) (v : Val)
  : M unit :=
  obj_set (notifyListeners fuel) r k v.

End Interp.

(** ** The hooks ([useSignal], [useComputed], lines 118-155)

    React keeps the [useRef] cells of a mounted component and calls the
    function given to [useSyncExternalStore] as [getSnapshot] when the
    component renders and when a listener it subscribed is invoked; it
    renders again when the number returned differs from the last one.
    The cells and the two functions are embedded; React is not. *)

(** [a === b] on payload values: strings compare by content, objects and
    functions by identity.  Numbers are integers here: [NaN], which is not
    [===] to itself, is no payload, and every value of the embedding is
    [===] to itself.  What is proved of the hooks below names the
    comparison it rests on, also where a value is compared with itself. *)
Definition strict_eq (a b : Val) : bool := bool_decide (a = b).

(** The cells [prevValue] and [renderCount] of one component. *)
Record Refs : Type := mkRefs {
  prevValue : Val;
  renderCount : Z
}.

(** [n += 1] on a counter that started at 0: a JavaScript number takes
    every integer up to 2^53, and 2^53 + 1 rounds back to 2^53. *)
Definition js_succ (n : Z) : Z := if (n <? 2 ^ 53)%Z then (n + 1)%Z else n.


(** The [getSnapshot] of [useSignal] (lines 121-128).  It returns the
    counter together with the cells as it leaves them. *)
Definition useSignal_getSnapshot (s : nat) (refs : Refs) : M (Z * Refs) :=
  v <- signal_get s "value" ;;
  let isEqual := strict_eq v (prevValue refs) in
  v' <- signal_get s "value" ;;
  let count :=
    if isEqual then renderCount refs else js_succ (renderCount refs) in
  ret (count, mkRefs v' count).

(** The cells of [useComputed] after the first render: [useRef()] and
    [useRef(0)]. *)
Definition useComputed_refs : Refs := mkRefs VUndef 0.

(** The [getSnapshot] of [useComputed] (lines 144-153), over the selector
    [getComputed] of the client. *)
Definition useComputed_getSnapshot (getComputed : Val -> M Val) (s : nat)
    (refs : Refs) : M (Z * Refs) :=
  v <- signal_get s "value" ;;
  currentValue <- getComputed v ;;
  let isEqual := strict_eq currentValue (prevValue refs) in
  let count :=
    if isEqual then renderCount refs else js_succ (renderCount refs) in
  ret (count, mkRefs currentValue count).

(** The selector [(value) => value.k]. *)
Definition select (k : string) (v : Val) : M Val := val_get v k.

(** A selector that builds an object: [() => ({ ... })]. *)
Definition build (fields : list (string * Lit)) (_ : Val) : M Val :=
  eval (ELit (LObj fields)).

(** ** An earlier [useComputed] (lines 285-302)

    The file keeps earlier revisions of its functions.  In this one the
    cell [prevValue] holds the payload, from [useRef(signal.value)] on, and
    [getSnapshot] applies the selector to the payload and to the cell. *)
Module Earlier.

Definition useComputed_getSnapshot (getComputed : Val -> M Val) (s : nat)
    (refs : Refs) : M (Z * Refs) :=
  v <- signal_get s "value" ;;
  current <- getComputed v ;;
  previous <- getComputed (prevValue refs) ;;
  let isEqual := strict_eq current previous in
  v' <- signal_get s "value" ;;
  let count :=
    if isEqual then renderCount refs else js_succ (renderCount refs) in
  ret (count, mkRefs v' count).

(** ** An earlier [useSignalEffect] (lines 308-349)

    In this revision the hook captures the dependencies itself on the first
    render, and hands [useSyncExternalStore] a [getSnapshot] that is meant
    to call the callback when a dependency changed.  Its cells are the
    array [dependencies] and the [Map] [prevValues], here the list of the
    pairs it was built from. *)
Record EffectRefs : Type := mkEffectRefs {
  dependencies : list nat;
  prevValues : list (nat * Val)
}.

(** [prevValues.current.get(signal)]: of the pairs a [Map] is built from,
    the last one with the key counts. *)
Definition map_get (m : list (nat * Val)) (s : nat) : Val :=
  foldl (fun found p => if decide (p.1 = s) then p.2 else found) VUndef m.

(** [l.some((signal) => prevValues.current.get(signal) !== signal.value)] *)
Fixpoint some_changed (prev : list (nat * Val)) (l : list nat) : M bool :=
  match l with
  | [] => ret false
  | s :: rest =>
      v <- signal_get s "value" ;;
      if strict_eq (map_get prev s) v then some_changed prev rest
      else ret true
  end.

(** [l.map((signal) => [signal, signal.value])] *)
Fixpoint read_all (l : list nat) : M (list (nat * Val)) :=
  match l with
  | [] => ret []
  | s :: rest =>
      v <- signal_get s "value" ;;
      m <- read_all rest ;;
      ret ((s, v) :: m)
  end.

(** The [getSnapshot] of this [useSignalEffect] (lines 334-348), over the
    way the callback is called: it goes through [[...effectDependencies]],
    the working set of the recorder. *)
Definition useSignalEffect_getSnapshot (call : nat -> M unit) (cb : nat)
    (refs : EffectRefs) : M (bool * EffectRefs) :=
  working <- (fun st => Ok (effectDependencies st) st) ;;
  changed <- some_changed (prevValues refs) working ;;
  (if changed : bool then call cb else ret tt) ;;
  m <- read_all (dependencies refs) ;;
  ret (false, mkEffectRefs (dependencies refs) m).

End Earlier.

(** ** Reading the trace *)

(** The events recorded between two states of one run. *)
Definition new_events (st st' : State) : list Event :=
  drop (length (trace st)) (trace st').

(** The event changes the listener set of [s]. *)
Definition touches (s : nat) (e : Event) : bool :=
  match e with
  | EvSub s' _ | EvUnsub s' _ => bool_decide (s' = s)
  | _ => false
  end.

Definition is_capture (e : Event) : bool :=
  match e with
  | EvCapture _ | EvCaptured _ => true
  | _ => false
  end.

(** The signal whose [value] the event reads through the [get] trap. *)
Definition value_read (e : Event) : option nat :=
  match e with
  | EvGet s prop => if String.eqb prop "value" then Some s else None
  | _ => None
  end.

Definition reads (evs : list Event) : list nat := omap value_read evs.

(** The callback the event shows the pass of [s] invoking. *)
Definition called_by (s : nat) (e : Event) : option nat :=
  match e with
  | EvCall (Some s') cb => if bool_decide (s' = s) then Some cb else None
  | _ => None
  end.

Definition calls_by (s : nat) (evs : list Event) : list nat :=
  omap (called_by s) evs.

(** How often [cb] is invoked by passes of [s]. *)
Definition count_calls (s cb : nat) (evs : list Event) : nat :=
  length (filter (fun c => c = cb) (calls_by s evs)).

(** The working set after recording the signals [rs] in order. *)
Definition record_reads (d : list nat) (rs : list nat) : list nat :=
  foldl (fun d s => deps_add s d) d rs.

(** What a stretch of a run, with the events [evs], can have done.  [loop]
    is the signal whose [forEach] the stretch is part of, if any. *)
Record Steps (loop : option nat) (st : State) (evs : list Event)
    (st' : State) : Prop := mkSteps {
  steps_trace : trace st' = trace st ++ evs;
  steps_signals : length (signals st') = length (signals st);
  steps_heap : forall r o, heap st !! r = Some o ->
      exists o', heap st' !! r = Some o' /\ okind o' = okind o;
  steps_listeners : forall s, Forall (fun e => touches s e = false) evs ->
      listeners_of st' s = listeners_of st s;
  steps_value : forall s, EvNotify s ∉ evs -> value_of st' s = value_of st s;
  steps_calls : forall s cb, loop <> Some s -> EvNotify s ∉ evs ->
      EvCall (Some s) cb ∉ evs;
  steps_stay : forall s cb i, listeners_of st s !! i = Some (Some cb) ->
      EvUnsub s cb ∉ evs -> listeners_of st' s !! i = Some (Some cb);
  steps_absent : forall s cb, Some cb ∉ listeners_of st s ->
      EvSub s cb ∉ evs ->
      (Some cb ∉ listeners_of st' s) /\ (EvCall (Some s) cb ∉ evs);
  steps_nodup : forall s, NoDup (live (listeners_of st s)) ->
      NoDup (live (listeners_of st' s));
  steps_direct : Forall (fun e => is_capture e = false) evs ->
      forall cb, EvCall None cb ∉ evs;
  steps_recorder : Forall (fun e => is_capture e = false) evs ->
      isRunningEffect st' = isRunningEffect st /\
      effectDependencies st' =
        record_reads (effectDependencies st)
                     (if isRunningEffect st then reads evs else []);
  steps_get : forall s prop, EvGet s prop ∈ evs -> s < length (signals st)
}.

(** Every run of [m] that ends in a state is such a stretch. *)
Definition sound {A} (loop : option nat) (m : M A) : Prop :=
  forall st st', final (m st) = Some st' ->
    exists evs, Steps loop st evs st'.

(** Listener sets hold no callback twice. *)
Definition wf_listeners (st : State) : Prop :=
  forall s, NoDup (live (listeners_of st s)).

(** The recorder is idle: no capture is running and none left anything. *)
Definition recorder_idle (st : State) : Prop :=
  isRunningEffect st = false /\ effectDependencies st = [].

(** Keeping the first occurrence of every element, in order. *)
Fixpoint nub (l : list nat) : list nat :=
  match l with
  | [] => []
  | x :: rest => x :: filter (fun y => y <> x) (nub rest)
  end.

(** How often [notifyListeners] of [s] is entered. *)
Definition notify_count (s : nat) (evs : list Event) : nat :=
  length (filter (fun e => e = EvNotify s) evs).

(** The state in which [getDependenciesFromEffect(cb)] starts running the
    body of [cb]: the flag is set and the call is under way. *)
Definition capture_start (cb : nat) (st : State) : State :=
  emit (EvCall None cb) (set_flag true (emit (EvCapture cb) st)).

(** The state in which [getDependenciesFromEffect(cb)] returns when the body
    of [cb] finished in [st1]. *)
Definition capture_end (cb : nat) (st1 : State) : State :=
  emit (EvCaptured cb) (set_deps [] (set_flag false st1)).

(** Following the keys of [path] from the object [r] through nested
    non-array objects. *)
Fixpoint walk (h : list Obj) (r : nat) (path : list string) : option nat :=
  match path with
  | [] => Some r
  | key :: rest =>
      match h !! r with
      | Some o =>
          match as_object h (prop_get (oprops o) key) with
          | Some r' => walk h r' rest
          | None => None
          end
      | None => None
      end
  end.

(** [m'] agrees with [m] wherever [m] does not run out of fuel. *)
Definition refines {A} (m m' : M A) : Prop :=
  forall st, m st <> Diverge -> m' st = m st.
(** [m] leaves the recorder idle when it returns from an idle recorder. *)
Definition keeps_idle {A} (m : M A) : Prop :=
  forall st a st', m st = Ok a st' -> recorder_idle st -> recorder_idle st'.

(** Every reference stored in the heap points into the heap. *)
Definition closed_heap (h : list Obj) : Prop :=
  forall r o key r', h !! r = Some o ->
    prop_get (oprops o) key = VRef r' -> r' < length h.

(** [rank] decreases from an object to the non-array objects under its
    keys: the objects of the heap do not contain themselves. *)
Definition ranked (h : list Obj) (rank : nat -> nat) : Prop :=
  forall r o key r', h !! r = Some o ->
    as_object h (prop_get (oprops o) key) = Some r' -> rank r' < rank r.

(** The entries of the listener sets are emptied or appended to, never
    filled again: an entry that holds a callback in [st'] held it in [st]
    or did not exist then. *)
Definition entries_grow (st st' : State) : Prop :=
  forall s,
    length (listeners_of st s) <= length (listeners_of st' s) /\
    forall i cb, listeners_of st' s !! i = Some (Some cb) ->
      listeners_of st s !! i = Some (Some cb) \/
      length (listeners_of st s) <= i.

(** [m] only ever empties or appends entries when it returns. *)
Definition keeps_entries {A} (m : M A) : Prop :=
  forall st a st', m st = Ok a st' -> entries_grow st st'.

(** [m], when it returns, extends the trace, leaves an idle recorder idle,
    and leaves the recorder idle whenever a capture was part of it. *)
Definition settles {A} (m : M A) : Prop :=
  forall st a st', m st = Ok a st' ->
    (recorder_idle st -> recorder_idle st') /\
    exists evs, trace st' = trace st ++ evs /\
      (Exists (fun e => is_capture e = true) evs -> recorder_idle st').

(** ** The turns of a listener in a pass *)

(** Where a pass of [s] finds the callback [cb]: in the set with its entry
    ahead of the pass, in the set with its entry behind, or not in the
    set. *)
Inductive Place : Type :=
  | Ahead
  | Behind
  | Out.

#[global] Instance Place_eq_dec : EqDecision Place.
Proof. solve_decision. Defined.

(** What an event does to the place of [cb]: [listeners.delete(cb)] takes
    it out of the set, [listeners.add(cb)] puts it back with a new entry,
    at the end and so ahead of the pass, and the pass leaves behind the
    entry it invokes. *)
Definition place_step (s cb : nat) (p : Place) (e : Event) : Place :=
  match p with
  | Ahead =>
      if bool_decide (e = EvUnsub s cb) then Out
      else if bool_decide (e = EvCall (Some s) cb) then Behind
      else Ahead
  | Behind => if bool_decide (e = EvUnsub s cb) then Out else Behind
  | Out => if bool_decide (e = EvSub s cb) then Ahead else Out
  end.

Definition place_after (s cb : nat) (p : Place) (evs : list Event) : Place :=
  foldl (place_step s cb) p evs.

(** The turn the pass owes [cb]. *)
Definition turns_due (p : Place) : nat :=
  match p with
  | Ahead => 1
  | _ => 0
  end.

(** The turns [cb] loses: the calls of its handle while its entry is
    ahead. *)
Fixpoint turns_lost (s cb : nat) (p : Place) (evs : list Event) : nat :=
  match evs with
  | [] => 0
  | e :: rest =>
      (match p with
       | Ahead => if bool_decide (e = EvUnsub s cb) then 1 else 0
       | _ => 0
       end) + turns_lost s cb (place_step s cb p e) rest
  end.

(** The turns [cb] gains: the subscriptions made while it is not in the
    set. *)
Fixpoint turns_gained (s cb : nat) (p : Place) (evs : list Event) : nat :=
  match evs with
  | [] => 0
  | e :: rest =>
      (match p with
       | Out => if bool_decide (e = EvSub s cb) then 1 else 0
       | _ => 0
       end) + turns_gained s cb (place_step s cb p e) rest
  end.

(** [cb], subscribed when the pass starts, keeps its turn over [evs]: its
    handle is not called while it waits for its turn, and it is not
    subscribed again once its handle was called. *)
Definition keeps_turn (s cb : nat) (evs : list Event) : bool :=
  bool_decide (turns_lost s cb Ahead evs = 0 /\
               turns_gained s cb Ahead evs = 0).

(** [cb] is in the listener set of [s], or not, as its place says. *)
Definition in_place (s cb : nat) (p : Place) (st : State) : Prop :=
  match p with
  | Out => Some cb ∉ listeners_of st s
  | _ => Some cb ∈ listeners_of st s
  end.

(** The place of [cb] when the pass of [s] is about to visit entry [j]. *)
Definition place_at (s cb j : nat) (p : Place) (st : State) : Prop :=
  match p with
  | Ahead => exists i, j <= i /\ listeners_of st s !! i = Some (Some cb)
  | Behind => exists i, i < j /\ listeners_of st s !! i = Some (Some cb)
  | Out => Some cb ∉ listeners_of st s
  end.

(** What a stretch with the events [evs] does to the places: entries are
    emptied or appended, a callback is in the set as its place after
    [evs] says, and once its handle was called none of the entries the
    stretch started with holds it. *)
Definition places_hold (st st' : State) : Prop :=
  entries_grow st st' /\
  exists evs, trace st' = trace st ++ evs /\
    forall s cb,
      (forall p, in_place s cb p st ->
         in_place s cb (place_after s cb p evs) st') /\
      (EvUnsub s cb ∈ evs ->
       forall i, i < length (listeners_of st s) ->
         listeners_of st' s !! i <> Some (Some cb)).

Definition keeps_places {A} (m : M A) : Prop :=
  forall st a st', m st = Ok a st' -> places_hold st st'.

(** The pass of [s] as the runs it is made of: from entry [j] in [st] it
    comes to entry [j'] in [st'] by going over the entries between, and
    running the body of every callback it finds, each in the state the one
    before left. *)
Inductive visits (prog : list Cmd) (s : nat)
  : nat -> State -> nat -> State -> Prop :=
  | visits_here j st : visits prog s j st j st
  | visits_skip j st j' st' :
      listeners_of st s !! j = Some None ->
      visits prog s (S j) st j' st' ->
      visits prog s j st j' st'
  | visits_call j st cb fuel st1 j' st' :
      listeners_of st s !! j = Some (Some cb) ->
      exec prog fuel (body prog cb) (emit (EvCall (Some s) cb) st)
        = Ok tt st1 ->
      visits prog s (S j) st1 j' st' ->
      visits prog s j st j' st'.

(** The pass of [s] that starts in [st] and ends in [st'] comes to an
    entry that holds [cb], runs the body of [cb], which returns, and goes
    on to the end of the entry list. *)
Definition runs_listener (prog : list Cmd) (s cb : nat) (st st' : State)
  : Prop :=
  exists j sta fuel stb j',
    visits prog s 0 st j sta /\
    listeners_of sta s !! j = Some (Some cb) /\
    exec prog fuel (body prog cb) (emit (EvCall (Some s) cb) sta)
      = Ok tt stb /\
    visits prog s (S j) stb j' st' /\
    listeners_of st' s !! j' = None.

(** ** Sample clients *)

(** The state a computation ends in. *)
Definition run {A} (m : M A) (st : State) : State :=
  default st (final (m st)).

(** [s = createSignal(0); s.subscribe(cb0); s.subscribe(cb1)] *)
Definition two_listeners : State :=
  run (s <- createSignal 1 (VNum 0) ;;
       call_subscribe s 0 ;; call_subscribe s 1) initial.

(** [a = createSignal(0); b = createSignal(0); c = createSignal(0)] *)
Definition three_signals : State :=
  run (_ <- createSignal 1 (VNum 0) ;;
       _ <- createSignal 1 (VNum 0) ;;
       createSignal 1 (VNum 0)) initial.

(** [createSignal({ count: 0 })]: the literal is object [0], the proxy
    stored in the signal is object [1]. *)
Definition create_counter : M nat :=
  v <- eval (ELit (LObj [("count", LVal (VNum 0))])) ;; createSignal 2 v.

(** [s = createSignal({ count: 0 }); s.subscribe(cb0)] *)
Definition object_signal : State :=
  run (s <- create_counter ;; call_subscribe s 0) initial.

(** [s0 = createSignal({ count: 0 }); s1 = createSignal(0);
    s2 = createSignal(0)], and a capture has started. *)
Definition capturing : State :=
  capture_start 0
    (run (_ <- create_counter ;;
          _ <- createSignal 1 (VNum 0) ;;
          createSignal 1 (VNum 0)) initial).

(** [s0.subscribe; inner.count; s1.value = 1; s2.value;] where [inner] is
    the proxy [s0.value], obtained before the capture. *)
Definition probe : Cmd :=
  CSeq (CEval (ESigGet 0 "subscribe"))
    (CSeq (CEval (EField (ELit (LVal (VRef 1))) "count"))
       (CSeq (CSigSet 1 "value" (ELit (LVal (VNum 1))))
          (CEval (ESigGet 2 "value")))).

(** [{ inner: { count: 0 }, items: [1] }]: [inner] is object [0], [items]
    object [1], the whole object [2]. *)
Definition nested_heap : State :=
  run (eval (ELit (LObj [("inner", LObj [("count", LVal (VNum 0))]);
                         ("items", LArr [LVal (VNum 1)])]))) initial.

(** [() => { if (false) { a.value } else { b.value; b.value } }] *)
Definition branching : list Cmd :=
  [CIf (ELit (LVal (VBool false)))
       (CEval (ESigGet 0 "value"))
       (CSeq (CEval (ESigGet 1 "value")) (CEval (ESigGet 1 "value")))].

(** [() => { a.value; throw ... }] *)
Definition throwing : list Cmd :=
  [CSeq (CEval (ESigGet 0 "value")) CThrow].

(** [[() => { unsubscribe1(); }, () => {}]]: the first listener calls the
    handle of the second. *)
Definition unsubscribing : list Cmd := [CUnsubscribe 0 1; CSkip].

(** [[() => { s.value; }]] *)
Definition reading : list Cmd := [CEval (ESigGet 0 "value")].

(** [[() => { if (a.value) { c.value } else { b.value } }]]: what the
    effect reads depends on [a]. *)
Definition switching : list Cmd :=
  [CIf (ESigGet 0 "value") (CEval (ESigGet 2 "value"))
       (CEval (ESigGet 1 "value"))].

(** [[() => { s.subscribe(cb1); }, () => {}]]: the first listener adds the
    second while the set is iterated. *)
Definition subscribing : list Cmd := [CSubscribe 0 1; CSkip].

(** [[() => { unsubscribe0(); s.subscribe(cb2); }, () => {}, () => {}]]:
    the first listener calls its own handle and subscribes a third. *)
Definition leaving : list Cmd :=
  [CSeq (CUnsubscribe 0 0) (CSubscribe 0 2); CSkip; CSkip].

(** [[() => { if (!b.value) { b.value = 1; unsubscribe0(); a.subscribe(cb0);
    } }]]: a listener of [a] that, once, calls its own handle and
    subscribes again. *)
Definition returning : list Cmd :=
  [CIf (ESigGet 1 "value") CSkip
       (CSeq (CSigSet 1 "value" (ELit (LVal (VNum 1))))
             (CSeq (CUnsubscribe 0 0) (CSubscribe 0 0)))].

(** [[() => { unsubscribe1(); s.subscribe(cb1); }, () => {}]]: the first
    listener calls the handle of the second and subscribes it again. *)
Definition reordering : list Cmd :=
  [CSeq (CUnsubscribe 0 1) (CSubscribe 0 1); CSkip].

(** [[() => { if (!s.value) s.value = 1; }]]: a listener that writes the
    signal it listens to. *)
Definition rewriting : list Cmd :=
  [CIf (ESigGet 0 "value") CSkip (CSigSet 0 "value" (ELit (LVal (VNum 1))))].

(** [o = { name: "o" }; o.self = o]: an object that contains itself. *)
Definition cyclic_heap : State :=
  run (o <- eval (ELit (LObj [("name", LVal (VStr "o"))])) ;;
       val_set (fun _ => ret tt) o "self" o) initial.

(** [[() => { a.value; throw ... }, () => { b.value; }]] *)
Definition throwing_then_reading : list Cmd :=
  [CSeq (CEval (ESigGet 0 "value")) CThrow; CEval (ESigGet 1 "value")].

(** [[() => { throw ... }, () => {}]] *)
Definition failing_first : list Cmd := [CThrow; CSkip].

(** [[() => { a.value; signalEffect(cb1); c.value; }, () => { b.value; }]]:
    an effect whose first run starts another effect. *)
Definition nesting : list Cmd :=
  [CSeq (CEval (ESigGet 0 "value"))
        (CSeq (CEffect 1) (CEval (ESigGet 2 "value")));
   CEval (ESigGet 1 "value")].

(** [[() => { s.value = s.value; }]]: an effect that assigns to the signal
    it reads. *)
Definition feeding_back : list Cmd := [CSigSet 0 "value" (ESigGet 0 "value")].

(** [s.value.count;] *)
Definition reading_field : list Cmd :=
  [CEval (EField (ESigGet 0 "value") "count")].


(** Decidable side conditions on concrete data. *)
Ltac by_compute := apply (bool_decide_unpack _); vm_compute; exact I.

(** * Properties *)

(** ** Properties and sets *)

Lemma prop_get_set_eq ps k v : prop_get (prop_set ps k v) k = v.
Proof.
  induction ps as [|[k' v'] ps IH]; simpl.
  - by rewrite String.eqb_refl.
  - destruct (String.eqb k k') eqn:E; simpl.
    + by rewrite String.eqb_refl.
    + by rewrite E.
Qed.

Lemma prop_get_set_ne ps k k' v :
  k <> k' -> prop_get (prop_set ps k v) k' = prop_get ps k'.
Proof.
  intros Hne. induction ps as [|[k0 v0] ps IH]; simpl.
  - destruct (String.eqb k' k) eqn:E; [|done].
    apply String.eqb_eq in E. congruence.
  - destruct (String.eqb k k0) eqn:E; simpl.
    + apply String.eqb_eq in E. subst k0.
      destruct (String.eqb k' k) eqn:E'; [|done].
      apply String.eqb_eq in E'. congruence.
    + by rewrite IH.
Qed.

Lemma elem_of_deps_add s s' d : s' ∈ deps_add s d <-> s' = s \/ s' ∈ d.
Proof.
  unfold deps_add. case_bool_decide as H.
  - split; [by right|]. intros [->|]; done.
  - rewrite elem_of_app, list_elem_of_singleton. tauto.
Qed.

Lemma NoDup_deps_add s d : NoDup d -> NoDup (deps_add s d).
Proof.
  intros Hd. unfold deps_add. case_bool_decide as H; [done|].
  apply NoDup_app. split_and!; [done| |apply NoDup_singleton].
  intros x Hx Hx'. apply list_elem_of_singleton in Hx'. by subst.
Qed.

Lemma live_app l1 l2 : live (l1 ++ l2) = live l1 ++ live l2.
Proof. apply omap_app. Qed.

Lemma elem_of_live cb l : cb ∈ live l <-> Some cb ∈ l.
Proof.
  unfold live. rewrite list_elem_of_omap. split.
  - intros (x & Hx & Hid). destruct x; simplify_eq/=. done.
  - intros H. by exists (Some cb).
Qed.

Lemma live_listeners_add cb l :
  live (listeners_add cb l) = if bool_decide (Some cb ∈ l) then live l
                              else live l ++ [cb].
Proof.
  unfold listeners_add. case_bool_decide; [done|]. by rewrite live_app.
Qed.

Lemma live_listeners_delete cb l :
  live (listeners_delete cb l) = filter (fun c => c <> cb) (live l).
Proof.
  induction l as [|[c|] l IH]; simpl; [done| |done].
  case_bool_decide as H.
  - simplify_eq. rewrite filter_cons_False by (intros ?; done). done.
  - rewrite filter_cons_True by congruence. simpl. by rewrite IH.
Qed.

Lemma listeners_delete_absent cb l : Some cb ∉ listeners_delete cb l.
Proof.
  unfold listeners_delete. rewrite list_elem_of_fmap.
  intros (e & He & _). case_bool_decide; congruence.
Qed.

Lemma listeners_delete_idem cb l :
  listeners_delete cb (listeners_delete cb l) = listeners_delete cb l.
Proof.
  unfold listeners_delete. rewrite <- list_fmap_compose.
  apply list_fmap_ext. intros _ e _. simpl.
  repeat case_bool_decide; congruence.
Qed.

Lemma elem_of_listeners_add cb cb' l :
  Some cb' ∈ listeners_add cb l <-> cb' = cb \/ Some cb' ∈ l.
Proof.
  unfold listeners_add. case_bool_decide as H.
  - split; [by right|]. intros [->|]; done.
  - rewrite elem_of_app, list_elem_of_singleton.
    split; [intros [?|[= ->]]|intros [->|?]]; auto.
Qed.

Lemma heap_record_get s prop st : heap (record_get s prop st) = heap st.
Proof. unfold record_get. simpl. by destruct (_ && _). Qed.

Lemma signals_record_get s prop st :
  signals (record_get s prop st) = signals st.
Proof. unfold record_get. simpl. by destruct (_ && _). Qed.

Lemma trace_record_get s prop st :
  trace (record_get s prop st) = trace st ++ [EvGet s prop].
Proof. unfold record_get. simpl. by destruct (_ && _). Qed.

(** ** Stretches of a run compose *)

Lemma record_reads_app d rs1 rs2 :
  record_reads d (rs1 ++ rs2) = record_reads (record_reads d rs1) rs2.
Proof. apply foldl_app. Qed.

Lemma reads_app e1 e2 : reads (e1 ++ e2) = reads e1 ++ reads e2.
Proof. apply omap_app. Qed.

Lemma calls_by_app s e1 e2 : calls_by s (e1 ++ e2) = calls_by s e1 ++ calls_by s e2.
Proof. apply omap_app. Qed.

Lemma Steps_refl loop st : Steps loop st [] st.
Proof.
  split; try done.
  - by rewrite app_nil_r.
  - eauto.
  - intros. apply not_elem_of_nil.
  - intros. split; [done|apply not_elem_of_nil].
  - intros. apply not_elem_of_nil.
  - intros _. split; [done|]. by destruct (isRunningEffect st).
  - intros s prop Hin. by apply elem_of_nil in Hin.
Qed.

Lemma Steps_trans loop st1 e1 st2 e2 st3 :
  Steps loop st1 e1 st2 -> Steps loop st2 e2 st3 ->
  Steps loop st1 (e1 ++ e2) st3.
Proof.
  intros H1 H2. split.
  - rewrite (steps_trace _ _ _ _ H2), (steps_trace _ _ _ _ H1).
    by rewrite app_assoc.
  - rewrite (steps_signals _ _ _ _ H2). apply (steps_signals _ _ _ _ H1).
  - intros r o Ho.
    destruct (steps_heap _ _ _ _ H1 r o Ho) as (o1 & Ho1 & Hk1).
    destruct (steps_heap _ _ _ _ H2 r o1 Ho1) as (o2 & Ho2 & Hk2).
    exists o2. split; [done|congruence].
  - intros s [Ha Hb]%Forall_app.
    rewrite (steps_listeners _ _ _ _ H2 s Hb).
    apply (steps_listeners _ _ _ _ H1 s Ha).
  - intros s [Ha Hb]%not_elem_of_app.
    rewrite (steps_value _ _ _ _ H2 s Hb).
    apply (steps_value _ _ _ _ H1 s Ha).
  - intros s cb Hl [Ha Hb]%not_elem_of_app. apply not_elem_of_app. split.
    + by apply (steps_calls _ _ _ _ H1).
    + by apply (steps_calls _ _ _ _ H2).
  - intros s cb i Hi [Ha Hb]%not_elem_of_app.
    apply (steps_stay _ _ _ _ H2); [|done].
    by apply (steps_stay _ _ _ _ H1).
  - intros s cb Hs [Ha Hb]%not_elem_of_app.
    destruct (steps_absent _ _ _ _ H1 s cb Hs Ha) as [Hs2 Hc1].
    destruct (steps_absent _ _ _ _ H2 s cb Hs2 Hb) as [Hs3 Hc2].
    split; [done|]. by apply not_elem_of_app.
  - intros s Hs. apply (steps_nodup _ _ _ _ H2), (steps_nodup _ _ _ _ H1), Hs.
  - intros [Ha Hb]%Forall_app cb. apply not_elem_of_app. split.
    + by apply (steps_direct _ _ _ _ H1).
    + by apply (steps_direct _ _ _ _ H2).
  - intros [Ha Hb]%Forall_app.
    destruct (steps_recorder _ _ _ _ H1 Ha) as [Hf1 Hd1].
    destruct (steps_recorder _ _ _ _ H2 Hb) as [Hf2 Hd2].
    split; [congruence|].
    rewrite Hd2, Hd1, Hf1.
    destruct (isRunningEffect st1).
    + by rewrite reads_app, record_reads_app.
    + done.
  - intros s prop [Hin|Hin]%elem_of_app.
    + by apply (steps_get _ _ _ _ H1 s prop).
    + rewrite <- (steps_signals _ _ _ _ H1).
      by apply (steps_get _ _ _ _ H2 s prop).
Qed.

Lemma Steps_weaken loop st evs st' :
  Steps None st evs st' -> Steps loop st evs st'.
Proof.
  intros [? ? ? ? ? Hc ? ? ? ? ? ?]. split; try done.
  intros s cb _ Hn. by apply Hc.
Qed.

Lemma Steps_close s st evs st' :
  EvNotify s ∈ evs -> Steps (Some s) st evs st' -> Steps None st evs st'.
Proof.
  intros Hin [? ? ? ? ? Hc ? ? ? ? ? ?]. split; try done.
  intros s' cb _ Hn. apply Hc; [|done].
  intros [= ->]. done.
Qed.

Lemma Steps_new_events loop st evs st' :
  Steps loop st evs st' -> new_events st st' = evs.
Proof.
  intros H. unfold new_events. rewrite (steps_trace _ _ _ _ H).
  apply drop_app_length.
Qed.

(** ** The primitive stretches *)

Lemma Steps_same_signals loop st evs st' :
  trace st' = trace st ++ evs ->
  signals st' = signals st ->
  (forall r o, heap st !! r = Some o ->
     exists o', heap st' !! r = Some o' /\ okind o' = okind o) ->
  (forall by_signal cb, EvCall by_signal cb ∈ evs ->
     exists s, by_signal = Some s /\ loop = Some s /\
               Some cb ∈ listeners_of st s) ->
  (Forall (fun e => is_capture e = false) evs ->
     isRunningEffect st' = isRunningEffect st /\
     effectDependencies st' =
       record_reads (effectDependencies st)
                    (if isRunningEffect st then reads evs else [])) ->
  (forall s prop, EvGet s prop ∈ evs -> s < length (signals st)) ->
  Steps loop st evs st'.
Proof.
  intros Ht Hs Hh Hc Hr Hg.
  assert (HL : forall s, listeners_of st' s = listeners_of st s)
    by (intros s; unfold listeners_of; by rewrite Hs).
  split; try done.
  - by rewrite Hs.
  - intros s _. unfold value_of. by rewrite Hs.
  - intros s cb Hl _ Hin. apply Hc in Hin as (? & ? & ? & _). congruence.
  - intros s cb i Hi _. by rewrite HL.
  - intros s cb Habs _. rewrite HL. split; [done|].
    intros Hin. apply Hc in Hin as (? & ? & _ & ?). by simplify_eq.
  - intros s. by rewrite HL.
  - intros _ cb Hin. apply Hc in Hin as (? & ? & _). done.
Qed.

Lemma Steps_emit_get loop st s prop :
  s < length (signals st) ->
  Steps loop st [EvGet s prop] (record_get s prop st).
Proof.
  intros Hlt. unfold record_get. apply Steps_same_signals.
  - simpl. by destruct (_ && _).
  - simpl. by destruct (_ && _).
  - intros r o Ho. exists o. split; [|done]. simpl. by destruct (_ && _).
  - intros s' cb Hin. apply list_elem_of_singleton in Hin. done.
  - intros _. simpl. unfold reads. simpl.
    destruct (String.eqb prop "value"), (isRunningEffect st) eqn:E; simpl;
      rewrite ?E; done.
  - intros s' prop' Hin. apply list_elem_of_singleton in Hin. by simplify_eq.
Qed.

Lemma Steps_emit_call s st cb i :
  listeners_of st s !! i = Some (Some cb) ->
  Steps (Some s) st [EvCall (Some s) cb] (emit (EvCall (Some s) cb) st).
Proof.
  intros Hi. apply Steps_same_signals; try done.
  - intros r o Ho. by exists o.
  - intros s' cb' Hin. apply list_elem_of_singleton in Hin. simplify_eq.
    exists s. split_and!; [done..|]. by eapply list_elem_of_lookup_2.
  - intros _. simpl. by destruct (isRunningEffect st).
  - intros s' prop' Hin. apply list_elem_of_singleton in Hin. done.
Qed.

Lemma Steps_emit_notify loop st s :
  Steps loop st [EvNotify s] (emit (EvNotify s) st).
Proof.
  apply Steps_same_signals; try done.
  - intros r o Ho. by exists o.
  - intros s' cb' Hin. apply list_elem_of_singleton in Hin. done.
  - intros _. simpl. by destruct (isRunningEffect st).
  - intros s' prop' Hin. apply list_elem_of_singleton in Hin. done.
Qed.

Lemma Steps_set_heap loop st h :
  (forall r o, heap st !! r = Some o ->
     exists o', h !! r = Some o' /\ okind o' = okind o) ->
  Steps loop st [] (set_heap h st).
Proof.
  intros Hh. apply Steps_same_signals; try done.
  - simpl. by rewrite app_nil_r.
  - intros s' cb' Hin. by apply elem_of_nil in Hin.
  - intros _. simpl. by destruct (isRunningEffect st).
  - intros s' prop' Hin. by apply elem_of_nil in Hin.
Qed.

Lemma Steps_store_prop loop st r k v :
  Steps loop st [] (store_prop r k v st).
Proof.
  apply Steps_set_heap. intros r' o Ho.
  destruct (decide (r = r')) as [->|Hne].
  - rewrite list_lookup_alter_eq, Ho. simpl. eauto.
  - rewrite list_lookup_alter_ne by done. eauto.
Qed.

Lemma Steps_capture_begin loop st cb :
  Steps loop st [EvCapture cb; EvCall None cb]
    (emit (EvCall None cb) (set_flag true (emit (EvCapture cb) st))).
Proof.
  assert (Hc : ~ Forall (fun e => is_capture e = false)
                        [EvCapture cb; EvCall None cb]).
  { intros H. apply Forall_cons in H as [H _]. done. }
  split; try done.
  - simpl. by rewrite <- app_assoc.
  - intros r o Ho. by exists o.
  - intros s cb' _ _ Hin.
    apply elem_of_cons in Hin as [|Hin]; [done|].
    apply list_elem_of_singleton in Hin. done.
  - intros s cb' Habs _. split; [done|]. intros Hin.
    apply elem_of_cons in Hin as [|Hin]; [done|].
    apply list_elem_of_singleton in Hin. done.
  - intros s prop Hin.
    apply elem_of_cons in Hin as [|Hin]; [done|].
    apply list_elem_of_singleton in Hin. done.
Qed.

Lemma Steps_capture_end loop st cb :
  Steps loop st [EvCaptured cb]
    (emit (EvCaptured cb) (set_deps [] (set_flag false st))).
Proof.
  apply Steps_same_signals; try done.
  - intros r o Ho. by exists o.
  - intros s' cb' Hin. apply list_elem_of_singleton in Hin. done.
  - intros H. rewrite Forall_singleton in H. simpl in H. done.
  - intros s' prop' Hin. apply list_elem_of_singleton in Hin. done.
Qed.

Lemma listeners_of_alter f s st s' :
  listeners_of (set_signals (alter f s) st) s' =
  if decide (s = s') then
    match signals st !! s with Some c => listeners (f c) | None => [] end
  else listeners_of st s'.
Proof.
  unfold listeners_of. simpl. rewrite list_lookup_alter.
  destruct (decide (s = s')) as [->|]; [|done].
  by destruct (signals st !! s').
Qed.

Lemma value_of_alter f s st s' :
  value_of (set_signals (alter f s) st) s' =
  if decide (s = s') then
    match signals st !! s with Some c => value (f c) | None => VUndef end
  else value_of st s'.
Proof.
  unfold value_of. simpl. rewrite list_lookup_alter.
  destruct (decide (s = s')) as [->|]; [|done].
  by destruct (signals st !! s').
Qed.

Lemma Steps_store_value loop st s v :
  Steps loop st [EvNotify s] (emit (EvNotify s) (store_value s v st)).
Proof.
  assert (HL : forall s', listeners_of (emit (EvNotify s) (store_value s v st)) s'
                          = listeners_of st s').
  { intros s'. unfold store_value.
    change (listeners_of (emit ?e ?x) s') with (listeners_of x s').
    rewrite listeners_of_alter. case_decide; [subst|done].
    unfold listeners_of. by destruct (signals st !! s'). }
  split; try done.
  - simpl. apply length_alter.
  - intros r o Ho. by exists o.
  - intros s' Hn. apply not_elem_of_cons in Hn as [Hn _].
    unfold store_value.
    change (value_of (emit ?e ?x) s') with (value_of x s').
    rewrite value_of_alter. case_decide; [congruence|done].
  - intros s' cb _ _ Hin. apply list_elem_of_singleton in Hin. done.
  - intros s' cb i Hi _. by rewrite HL.
  - intros s' cb Habs _. rewrite HL. split; [done|].
    intros Hin. apply list_elem_of_singleton in Hin. done.
  - intros s'. by rewrite HL.
  - intros _ cb Hin. apply list_elem_of_singleton in Hin. done.
  - intros _. simpl. by destruct (isRunningEffect st).
  - intros s0 prop0 Hin. apply list_elem_of_singleton in Hin. done.
Qed.

Lemma Steps_subscribe loop st s cb :
  Steps loop st [EvSub s cb]
    (emit (EvSub s cb)
       (set_signals
          (alter (fun c => mkCell (value c) (listeners_add cb (listeners c))) s)
          st)).
Proof.
  set (st' := emit _ _).
  assert (HL : forall s', listeners_of st' s' =
     if decide (s = s') then
       match signals st !! s with
       | Some c => listeners_add cb (listeners c) | None => [] end
     else listeners_of st s').
  { intros s'. unfold st'.
    change (listeners_of (emit ?e ?x) s') with (listeners_of x s').
    by rewrite listeners_of_alter. }
  split; try done.
  - simpl. apply length_alter.
  - intros r o Ho. by exists o.
  - intros s' Hf. rewrite Forall_singleton in Hf. simpl in Hf.
    rewrite HL. case_decide; [|done]. by case_bool_decide.
  - intros s' _. unfold st'.
    change (value_of (emit ?e ?x) s') with (value_of x s').
    rewrite value_of_alter. case_decide; [subst|done].
    unfold value_of. by destruct (signals st !! s').
  - intros s' cb' _ _ Hin. apply list_elem_of_singleton in Hin. done.
  - intros s' cb' i Hi _. rewrite HL. case_decide; [subst|done].
    unfold listeners_of in Hi. destruct (signals st !! s'); [|done].
    unfold listeners_add. case_bool_decide; [done|].
    rewrite lookup_app_l; [done|]. by eapply lookup_lt_Some.
  - intros s' cb' Habs Hn. apply not_elem_of_cons in Hn as [Hn _].
    split; [|intros Hin; apply list_elem_of_singleton in Hin; done].
    rewrite HL. case_decide; [subst|done].
    unfold listeners_of in Habs. destruct (signals st !! s'); [|done].
    unfold listeners_add. case_bool_decide; [done|].
    rewrite elem_of_app, list_elem_of_singleton. intros [?|?]; [done|].
    congruence.
  - intros s' Hnd. rewrite HL. case_decide; [subst|done].
    unfold listeners_of in Hnd. destruct (signals st !! s'); [|constructor].
    rewrite live_listeners_add. case_bool_decide as Hin; [done|].
    apply NoDup_app. split_and!; [done| |apply NoDup_singleton].
    intros x Hx Hx'. apply list_elem_of_singleton in Hx'. subst.
    by apply elem_of_live in Hx.
  - intros _ cb' Hin. apply list_elem_of_singleton in Hin. done.
  - intros _. simpl. by destruct (isRunningEffect st).
  - intros s0 prop0 Hin. apply list_elem_of_singleton in Hin. done.
Qed.

Lemma Steps_unsubscribe loop st s cb :
  Steps loop st [EvUnsub s cb]
    (emit (EvUnsub s cb)
       (set_signals
          (alter (fun c => mkCell (value c) (listeners_delete cb (listeners c)))
                 s)
          st)).
Proof.
  set (st' := emit _ _).
  assert (HL : forall s', listeners_of st' s' =
     if decide (s = s') then
       match signals st !! s with
       | Some c => listeners_delete cb (listeners c) | None => [] end
     else listeners_of st s').
  { intros s'. unfold st'.
    change (listeners_of (emit ?e ?x) s') with (listeners_of x s').
    by rewrite listeners_of_alter. }
  split; try done.
  - simpl. apply length_alter.
  - intros r o Ho. by exists o.
  - intros s' Hf. rewrite Forall_singleton in Hf. simpl in Hf.
    rewrite HL. case_decide; [|done]. by case_bool_decide.
  - intros s' _. unfold st'.
    change (value_of (emit ?e ?x) s') with (value_of x s').
    rewrite value_of_alter. case_decide; [subst|done].
    unfold value_of. by destruct (signals st !! s').
  - intros s' cb' _ _ Hin. apply list_elem_of_singleton in Hin. done.
  - intros s' cb' i Hi Hn. apply not_elem_of_cons in Hn as [Hn _].
    rewrite HL. case_decide; [subst|done].
    unfold listeners_of in Hi. destruct (signals st !! s'); [|done].
    unfold listeners_delete. rewrite list_lookup_fmap, Hi. simpl.
    case_bool_decide; [congruence|done].
  - intros s' cb' Habs _.
    split; [|intros Hin; apply list_elem_of_singleton in Hin; done].
    rewrite HL. case_decide; [subst|done].
    unfold listeners_of in Habs. destruct (signals st !! s'); [|done].
    unfold listeners_delete. rewrite list_elem_of_fmap.
    intros (e & He & Hin). case_bool_decide; [done|]. by subst.
  - intros s' Hnd. rewrite HL. case_decide; [subst|done].
    unfold listeners_of in Hnd. destruct (signals st !! s'); [|constructor].
    rewrite live_listeners_delete. by apply NoDup_filter.
  - intros _ cb' Hin. apply list_elem_of_singleton in Hin. done.
  - intros _. simpl. by destruct (isRunningEffect st).
  - intros s0 prop0 Hin. apply list_elem_of_singleton in Hin. done.
Qed.

(** ** Literals only extend the heap *)

Lemma Lit_ind' (P : Lit -> Prop) :
  (forall v, P (LVal v)) ->
  (forall fs, Forall (fun kl => P kl.2) fs -> P (LObj fs)) ->
  (forall ls, Forall P ls -> P (LArr ls)) ->
  forall l, P l.
Proof.
  intros Hv Ho Ha. fix IH 1. intros [v|fs|ls].
  - apply Hv.
  - apply Ho. induction fs as [|[k l] fs IHfs]; constructor; [apply IH|done].
  - apply Ha. induction ls as [|l ls IHls]; constructor; [apply IH|done].
Qed.

Lemma alloc_fields_prefix alloc fs :
  Forall (fun kl => forall h, h `prefix_of` (alloc kl.2 h).2) fs ->
  forall acc h, h `prefix_of` (alloc_fields alloc fs acc h).2.
Proof.
  induction 1 as [|[k l] fs Hl _ IH]; intros acc h; simpl; [done|].
  specialize (Hl h). simpl in Hl. destruct (alloc l h) as [v h'].
  etrans; [exact Hl|apply IH].
Qed.

Lemma alloc_items_prefix alloc ls :
  Forall (fun l => forall h, h `prefix_of` (alloc l h).2) ls ->
  forall i acc h, h `prefix_of` (alloc_items alloc ls i acc h).2.
Proof.
  induction 1 as [|l ls Hl _ IH]; intros i acc h; simpl; [done|].
  specialize (Hl h). destruct (alloc l h) as [v h'].
  etrans; [exact Hl|apply IH].
Qed.

Lemma alloc_lit_prefix l : forall h, h `prefix_of` (alloc_lit l h).2.
Proof.
  induction l as [v|fs IH|ls IH] using Lit_ind'; intros h; simpl.
  - done.
  - pose proof (alloc_fields_prefix alloc_lit fs IH [] h) as Hp.
    destruct (alloc_fields alloc_lit fs [] h) as [ps h1]. simpl in *.
    etrans; [exact Hp|]. by apply prefix_app_r.
  - pose proof (alloc_items_prefix alloc_lit ls IH 0 [] h) as Hp.
    destruct (alloc_items alloc_lit ls 0 [] h) as [ps h1]. simpl in *.
    etrans; [exact Hp|]. by apply prefix_app_r.
Qed.

Lemma prefix_lookup_kind (h h' : list Obj) r o :
  h `prefix_of` h' -> h !! r = Some o ->
  exists o', h' !! r = Some o' /\ okind o' = okind o.
Proof.
  intros Hp Ho. exists o. split; [|done]. by eapply prefix_lookup_Some.
Qed.

(** ** Every operation is a stretch *)

Lemma sound_ret {A} loop (a : A) : sound loop (ret a).
Proof. intros st st' [= <-]. exists []. apply Steps_refl. Qed.

Lemma sound_throw {A} loop : sound loop (@throw A).
Proof. intros st st' [= <-]. exists []. apply Steps_refl. Qed.

Lemma sound_bind {A B} loop (m : M A) (k : A -> M B) :
  sound loop m -> (forall a, sound loop (k a)) -> sound loop (bind m k).
Proof.
  intros Hm Hk st st' Hf. unfold bind in Hf.
  destruct (m st) as [a st1|st1|] eqn:Em; [| |done].
  - destruct (Hm st st1) as [e1 H1]; [by rewrite Em|].
    destruct (Hk a st1 st' Hf) as [e2 H2].
    exists (e1 ++ e2). by eapply Steps_trans.
  - simpl in Hf. simplify_eq. apply Hm. by rewrite Em.
Qed.

Lemma sound_weaken {A} loop (m : M A) : sound None m -> sound loop m.
Proof.
  intros Hm st st' Hf. destruct (Hm st st' Hf) as [evs H].
  exists evs. by apply Steps_weaken.
Qed.

Lemma sound_modify loop f evs :
  (forall st, Steps loop st evs (f st)) -> sound loop (modify f).
Proof. intros Hf st st' [= <-]. by exists evs. Qed.

Lemma sound_signal_get loop s prop : sound loop (signal_get s prop).
Proof.
  intros st st' Hf. unfold signal_get in Hf.
  destruct (signals st !! s) eqn:Es.
  - simpl in Hf. simplify_eq. eexists. apply Steps_emit_get.
    by eapply lookup_lt_Some.
  - simpl in Hf. simplify_eq. exists []. apply Steps_refl.
Qed.

Lemma sound_subscribe loop s cb : sound loop (subscribe s cb).
Proof. eapply sound_modify. intros st. apply Steps_subscribe. Qed.

Lemma sound_unsubscribe loop s cb : sound loop (unsubscribe s cb).
Proof. eapply sound_modify. intros st. apply Steps_unsubscribe. Qed.

Lemma sound_call_subscribe loop s cb : sound loop (call_subscribe s cb).
Proof.
  apply sound_bind; [apply sound_signal_get|].
  intros _. apply sound_subscribe.
Qed.

Lemma sound_obj_get loop r k : sound loop (obj_get r k).
Proof.
  intros st st' Hf. unfold obj_get in Hf.
  destruct (heap st !! r); simpl in Hf; simplify_eq;
    exists []; apply Steps_refl.
Qed.

Lemma sound_val_get loop v k : sound loop (val_get v k).
Proof.
  destruct v; simpl;
    first [apply sound_ret | apply sound_throw | apply sound_obj_get].
Qed.

Lemma sound_eval loop e : sound loop (eval e).
Proof.
  induction e as [l|s prop|e IH k]; simpl.
  - intros st st' Hf.
    pose proof (alloc_lit_prefix l (heap st)) as Hp.
    destruct (alloc_lit l (heap st)) as [v h]. simpl in *. simplify_eq.
    exists []. apply Steps_set_heap. intros r o. by apply prefix_lookup_kind.
  - apply sound_signal_get.
  - apply sound_bind; [done|]. intros v. apply sound_val_get.
Qed.

Lemma sound_notify_with fe s :
  (forall i, sound (Some s) (fe s i)) -> sound (Some s) (notify_with fe s).
Proof.
  intros Hfe. apply sound_bind; [|intros _; apply Hfe].
  eapply sound_modify. intros st. apply Steps_emit_notify.
Qed.

Lemma sound_signal_set fe s prop v :
  (forall s i, sound (Some s) (fe s i)) ->
  sound None (signal_set (notify_with fe) s prop v).
Proof.
  intros Hfe st st' Hf. unfold signal_set in Hf.
  destruct (signals st !! s); [|simpl in Hf; simplify_eq;
    exists []; apply Steps_refl].
  destruct (String.eqb prop "value"); [|simpl in Hf; simplify_eq;
    exists []; apply Steps_refl].
  unfold bind, notify_with, bind, modify in Hf.
  pose proof (Steps_store_value (Some s) st s v) as H1.
  set (st1 := emit (EvNotify s) (store_value s v st)) in *.
  assert (Hf' : final (fe s 0 st1) = Some st').
  { destruct (fe s 0 st1); simpl in *; done. }
  destruct (Hfe s 0 st1 st' Hf') as [e2 H2].
  exists ([EvNotify s] ++ e2). apply (Steps_close s).
  - apply elem_of_app. left. apply list_elem_of_singleton. done.
  - by eapply Steps_trans.
Qed.

Lemma sound_obj_set fe r k v :
  (forall s i, sound (Some s) (fe s i)) ->
  sound None (obj_set (notify_with fe) r k v).
Proof.
  intros Hfe st st' Hf. unfold obj_set in Hf.
  destruct (heap st !! r) as [o|]; [|simpl in Hf; simplify_eq;
    exists []; apply Steps_refl].
  pose proof (Steps_store_prop (Some 0) st r k v) as H0.
  destruct (okind o) as [| |s];
    [simpl in Hf; simplify_eq; exists []; apply Steps_store_prop ..|].
  unfold notify_with, bind, modify in Hf.
  set (st0 := store_prop r k v st) in *.
  pose proof (Steps_emit_notify (Some s) st0 s) as H1.
  set (st1 := emit (EvNotify s) st0) in *.
  assert (Hf' : final (fe s 0 st1) = Some st').
  { destruct (fe s 0 st1); simpl in *; done. }
  destruct (Hfe s 0 st1 st' Hf') as [e2 H2].
  exists ([] ++ [EvNotify s] ++ e2). apply (Steps_close s).
  - apply elem_of_app. right. apply elem_of_app. left.
    apply list_elem_of_singleton. done.
  - eapply Steps_trans; [apply Steps_store_prop|]. by eapply Steps_trans.
Qed.

Lemma sound_val_set fe t k v :
  (forall s i, sound (Some s) (fe s i)) ->
  sound None (val_set (notify_with fe) t k v).
Proof.
  intros Hfe. destruct t; simpl;
    first [apply sound_ret | apply sound_throw | by apply sound_obj_set].
Qed.

Lemma sound_for_each {A} loop (f : A -> M unit) l :
  (forall x, sound loop (f x)) -> sound loop (for_each f l).
Proof.
  intros Hf. induction l as [|x l IH]; simpl.
  - apply sound_ret.
  - apply sound_bind; [apply Hf|]. intros _. apply IH.
Qed.

Lemma sound_getDependenciesFromEffect_with prog loop run cb :
  (forall c, sound loop (run c)) ->
  sound loop (getDependenciesFromEffect_with (call_with prog run) cb).
Proof.
  intros Hrun. unfold getDependenciesFromEffect_with.
  intros st st' Hf. unfold bind at 1 2, modify at 1 2 in Hf.
  unfold call_with in Hf. unfold bind at 1 2, modify at 1 in Hf.
  set (st1 := emit (EvCall None cb) (set_flag true (emit (EvCapture cb) st)))
    in *.
  pose proof (Steps_capture_begin loop st cb) as H1. fold st1 in H1.
  destruct (run (body prog cb) st1) as [[] st2|st2|] eqn:Ec; [| |done].
  - destruct (Hrun (body prog cb) st1 st2) as [e2 H2]; [by rewrite Ec|].
    unfold bind, modify, ret in Hf. simpl in Hf. simplify_eq.
    exists ([EvCapture cb; EvCall None cb] ++ e2 ++ [EvCaptured cb]).
    eapply Steps_trans; [exact H1|].
    eapply Steps_trans; [exact H2|]. apply Steps_capture_end.
  - simpl in Hf. simplify_eq.
    destruct (Hrun (body prog cb) st1 st') as [e2 H2]; [by rewrite Ec|].
    exists ([EvCapture cb; EvCall None cb] ++ e2). by eapply Steps_trans.
Qed.

Lemma sound_signalEffect_with prog loop run cb :
  (forall c, sound loop (run c)) ->
  sound loop (signalEffect_with (call_with prog run) cb).
Proof.
  intros Hrun. unfold signalEffect_with.
  apply sound_bind; [by apply sound_getDependenciesFromEffect_with|].
  intros deps. apply sound_bind; [|intros _; apply sound_ret].
  apply sound_for_each. intros s. apply sound_call_subscribe.
Qed.

Lemma sound_exec_forEach prog fuel :
  (forall c, sound None (exec prog fuel c)) /\
  (forall s i, sound (Some s) (forEach prog fuel s i)).
Proof.
  induction fuel as [|f [IHe IHf]]; [split; intros; intros st st' Hf; done|].
  split.
  - intros c. destruct c; simpl.
    + apply sound_ret.
    + apply sound_bind; [apply IHe|]. intros _. apply IHe.
    + apply sound_bind; [apply sound_eval|]. intros _. apply sound_ret.
    + apply sound_bind; [apply sound_eval|]. intros v.
      destruct (truthy v); apply IHe.
    + apply sound_throw.
    + apply sound_bind; [apply sound_eval|]. intros v.
      apply sound_bind; [by apply sound_signal_set|].
      intros [|]; [apply sound_ret|apply sound_throw].
    + apply sound_bind; [apply sound_eval|]. intros t.
      apply sound_bind; [apply sound_eval|]. intros v.
      by apply sound_val_set.
    + apply sound_call_subscribe.
    + apply sound_unsubscribe.
    + apply sound_bind; [|intros _; apply sound_ret].
      by apply sound_signalEffect_with.
  - intros s i st st' Hf. simpl in Hf.
    destruct (listeners_of st s !! i) as [[cb|]|] eqn:Ei.
    + unfold bind at 1, modify in Hf.
      assert (Hrest : sound (Some s)
                (exec prog f (body prog cb) ;; forEach prog f s (S i))).
      { apply sound_bind; [apply sound_weaken, IHe|]. intros _. apply IHf. }
      destruct (Hrest _ _ Hf) as [e2 H2].
      exists ([EvCall (Some s) cb] ++ e2).
      eapply Steps_trans; [by eapply Steps_emit_call|done].
    + by apply (IHf s (S i)).
    + simpl in Hf. simplify_eq. exists []. apply Steps_refl.
Qed.

Lemma sound_exec prog fuel c : sound None (exec prog fuel c).
Proof. apply sound_exec_forEach. Qed.

Lemma sound_forEach prog fuel s i : sound (Some s) (forEach prog fuel s i).
Proof. apply sound_exec_forEach. Qed.

Lemma sound_notifyListeners prog fuel s :
  sound (Some s) (notifyListeners prog fuel s).
Proof. apply sound_notify_with. intros i. apply sound_forEach. Qed.

Lemma sound_write prog fuel s prop v : sound None (write prog fuel s prop v).
Proof. apply sound_signal_set. intros. apply sound_forEach. Qed.

Lemma sound_write_prop prog fuel r k v :
  sound None (write_prop prog fuel r k v).
Proof. apply sound_obj_set. intros. apply sound_forEach. Qed.

Lemma sound_signalEffect prog fuel cb : sound None (signalEffect prog fuel cb).
Proof. apply sound_signalEffect_with. intros. apply sound_exec. Qed.

Lemma sound_getDependenciesFromEffect prog fuel cb :
  sound None (getDependenciesFromEffect prog fuel cb).
Proof.
  apply sound_getDependenciesFromEffect_with. intros. apply sound_exec.
Qed.

Lemma sound_new_events {A} loop (m : M A) st st' :
  sound loop m -> final (m st) = Some st' ->
  Steps loop st (new_events st st') st'.
Proof.
  intros Hm Hf. destruct (Hm st st' Hf) as [evs H].
  by rewrite (Steps_new_events _ _ _ _ H).
Qed.

(** ** The recorder *)

Lemma filter_nub (P : nat -> Prop) `{!forall x, Decision (P x)} l :
  filter P (nub l) = nub (filter P l).
Proof.
  induction l as [|x l IH]; simpl; [done|].
  destruct (decide (P x)) as [Hx|Hx].
  - rewrite !filter_cons_True by done. simpl. f_equal.
    rewrite <- IH. rewrite !list_filter_filter.
    apply list_filter_iff. intros y. (intuition congruence).
  - rewrite !filter_cons_False by done. rewrite <- IH.
    rewrite list_filter_filter. apply list_filter_iff.
    intros y. (intuition congruence).
Qed.

Lemma record_reads_nub d rs :
  record_reads d rs = d ++ nub (filter (fun s => s ∉ d) rs).
Proof.
  revert d. induction rs as [|x rs IH]; intros d; simpl.
  - by rewrite app_nil_r.
  - change (record_reads (deps_add x d) rs = d ++ nub (filter (fun s => s ∉ d) (x :: rs))).
    rewrite IH. unfold deps_add. case_bool_decide as Hx.
    + by rewrite filter_cons_False by (intuition congruence).
    + rewrite filter_cons_True by done. simpl. rewrite <- app_assoc. simpl.
      do 2 f_equal. rewrite filter_nub. f_equal.
      rewrite list_filter_filter. apply list_filter_iff.
      intros y. rewrite not_elem_of_app, list_elem_of_singleton. (intuition congruence).
Qed.

Lemma record_reads_idle rs : record_reads [] rs = nub rs.
Proof.
  rewrite record_reads_nub. simpl. f_equal.
  induction rs as [|x rs IH]; [done|].
  rewrite filter_cons_True by apply not_elem_of_nil. by f_equal.
Qed.

Lemma elem_of_nub x l : x ∈ nub l <-> x ∈ l.
Proof.
  induction l as [|y l IH]; simpl; [done|].
  rewrite !elem_of_cons, list_elem_of_filter, IH.
  destruct (decide (x = y)); (intuition congruence).
Qed.

Lemma NoDup_nub l : NoDup (nub l).
Proof.
  induction l as [|y l IH]; simpl; [constructor|].
  constructor; [|by apply NoDup_filter].
  rewrite list_elem_of_filter. (intuition congruence).
Qed.

Lemma elem_of_record_reads s d rs :
  s ∈ record_reads d rs <-> s ∈ d \/ s ∈ rs.
Proof.
  rewrite record_reads_nub, elem_of_app, elem_of_nub, list_elem_of_filter.
  destruct (decide (s ∈ d)); (intuition congruence).
Qed.

Lemma elem_of_reads s evs : s ∈ reads evs <-> EvGet s "value" ∈ evs.
Proof.
  unfold reads. rewrite list_elem_of_omap. split.
  - intros (e & He & Hr). destruct e; simpl in Hr; try done.
    destruct (String.eqb prop "value") eqn:E; [|done].
    apply String.eqb_eq in E. by simplify_eq.
  - intros H. by exists (EvGet s "value").
Qed.

Lemma Steps_recording loop st evs st' :
  Steps loop st evs st' -> isRunningEffect st = true ->
  Forall (fun e => is_capture e = false) evs ->
  isRunningEffect st' = true /\
  effectDependencies st' = record_reads (effectDependencies st) (reads evs).
Proof.
  intros H Hflag Hnc. destruct (steps_recorder _ _ _ _ H Hnc) as [Hf Hd].
  rewrite Hflag in *. done.
Qed.

(** ** More fuel changes no result *)

Lemma refines_refl {A} (m : M A) : refines m m.
Proof. by intros st _. Qed.

Lemma refines_bind {A B} (m m' : M A) (k k' : A -> M B) :
  refines m m' -> (forall a, refines (k a) (k' a)) ->
  refines (bind m k) (bind m' k').
Proof.
  intros Hm Hk st Hd. unfold bind in *.
  destruct (m st) as [a st1|st1|] eqn:Em; [| |done].
  - rewrite (Hm st) by (by rewrite Em). rewrite Em. by apply Hk.
  - rewrite (Hm st) by (by rewrite Em). by rewrite Em.
Qed.

Lemma refines_notify_with fe fe' s :
  (forall i, refines (fe s i) (fe' s i)) ->
  refines (notify_with fe s) (notify_with fe' s).
Proof.
  intros H. apply refines_bind; [apply refines_refl|]. intros _. apply H.
Qed.

Lemma refines_signal_set n n' s prop v :
  (forall s, refines (n s) (n' s)) ->
  refines (signal_set n s prop v) (signal_set n' s prop v).
Proof.
  intros H st Hd. unfold signal_set in *.
  destruct (signals st !! s); [|done].
  destruct (String.eqb prop "value"); [|done].
  revert Hd. apply (refines_bind (n s) (n' s)); [apply H|].
  intros _. apply refines_refl.
Qed.

Lemma refines_obj_set n n' r k v :
  (forall s, refines (n s) (n' s)) ->
  refines (obj_set n r k v) (obj_set n' r k v).
Proof.
  intros H st Hd. unfold obj_set in *.
  destruct (heap st !! r) as [o|]; [|done].
  destruct (okind o); [done..|]. by apply H.
Qed.

Lemma refines_val_set n n' t k v :
  (forall s, refines (n s) (n' s)) ->
  refines (val_set n t k v) (val_set n' t k v).
Proof.
  intros H. destruct t; simpl; try apply refines_refl.
  by apply refines_obj_set.
Qed.

Lemma refines_call_with prog run run' cb :
  (forall c, refines (run c) (run' c)) ->
  refines (call_with prog run cb) (call_with prog run' cb).
Proof.
  intros H. apply refines_bind; [apply refines_refl|]. intros _. apply H.
Qed.

Lemma refines_getDependenciesFromEffect_with call call' cb :
  (forall cb, refines (call cb) (call' cb)) ->
  refines (getDependenciesFromEffect_with call cb)
          (getDependenciesFromEffect_with call' cb).
Proof.
  intros H. unfold getDependenciesFromEffect_with.
  apply refines_bind; [apply refines_refl|]. intros _.
  apply refines_bind; [apply refines_refl|]. intros _.
  apply refines_bind; [apply H|]. intros _. apply refines_refl.
Qed.

Lemma refines_signalEffect_with call call' cb :
  (forall cb, refines (call cb) (call' cb)) ->
  refines (signalEffect_with call cb) (signalEffect_with call' cb).
Proof.
  intros H. unfold signalEffect_with.
  apply refines_bind; [|intros ?; apply refines_refl].
  by apply refines_getDependenciesFromEffect_with.
Qed.

Lemma exec_forEach_fuel prog f :
  (forall f' c, f <= f' -> refines (exec prog f c) (exec prog f' c)) /\
  (forall f' s i, f <= f' ->
     refines (forEach prog f s i) (forEach prog f' s i)).
Proof.
  induction f as [|f [IHe IHf]]; [split; intros; intros st Hd; done|].
  split.
  - intros [|f'] c Hle; [lia|]. assert (f <= f') as Hle' by lia.
    destruct c; simpl; try apply refines_refl.
    + apply refines_bind; [by apply IHe|]. intros _. by apply IHe.
    + apply refines_bind; [apply refines_refl|]. intros v.
      destruct (truthy v); by apply IHe.
    + apply refines_bind; [apply refines_refl|]. intros v.
      apply refines_bind; [|intros ?; apply refines_refl].
      apply refines_signal_set. intros s'. apply refines_notify_with.
      intros i. by apply IHf.
    + apply refines_bind; [apply refines_refl|]. intros t.
      apply refines_bind; [apply refines_refl|]. intros v.
      apply refines_val_set. intros s'. apply refines_notify_with.
      intros i. by apply IHf.
    + apply refines_bind; [|intros ?; apply refines_refl].
      apply refines_signalEffect_with. intros cb'.
      apply refines_call_with. intros c'. by apply IHe.
  - intros [|f'] s i Hle; [lia|]. assert (f <= f') as Hle' by lia.
    intros st Hd. simpl in *.
    destruct (listeners_of st s !! i) as [[cb|]|]; [| |done].
    + revert Hd. apply (refines_bind _ _ _ _ (refines_refl _)).
      intros _. apply refines_bind; [by apply IHe|]. intros _. by apply IHf.
    + by apply IHf.
Qed.

(** A run that returns or throws does the same with any larger fuel. *)
Lemma exec_fuel prog f f' c st :
  f <= f' -> exec prog f c st <> Diverge ->
  exec prog f' c st = exec prog f c st.
Proof. intros Hle. by apply exec_forEach_fuel. Qed.

Lemma write_fuel prog f f' s prop v st :
  f <= f' -> write prog f s prop v st <> Diverge ->
  write prog f' s prop v st = write prog f s prop v st.
Proof.
  intros Hle. apply refines_signal_set. intros s'.
  apply refines_notify_with. intros i. by apply exec_forEach_fuel.
Qed.

Lemma getDependenciesFromEffect_fuel prog f f' cb st :
  f <= f' -> getDependenciesFromEffect prog f cb st <> Diverge ->
  getDependenciesFromEffect prog f' cb st
    = getDependenciesFromEffect prog f cb st.
Proof.
  intros Hle. apply refines_getDependenciesFromEffect_with. intros cb'.
  apply refines_call_with. intros c. by apply exec_forEach_fuel.
Qed.

Lemma signalEffect_fuel prog f f' cb st :
  f <= f' -> signalEffect prog f cb st <> Diverge ->
  signalEffect prog f' cb st = signalEffect prog f cb st.
Proof.
  intros Hle. apply refines_signalEffect_with. intros cb'.
  apply refines_call_with. intros c. by apply exec_forEach_fuel.
Qed.

(** ** The recorder is idle between runs in which nothing throws

    Only [getDependenciesFromEffect] touches the flag, and it clears flag
    and working set before it returns; a [get] trap adds to the working
    set only while the flag is set.  So the recorder is idle whenever
    client code that started with it idle has returned, which here means
    that nothing was thrown on the way.  A capture whose callback throws
    leaves the flag set and the working set as it is (C8). *)

Lemma keeps_idle_ret {A} (a : A) : keeps_idle (ret a).
Proof. intros st a' st' [= _ <-]. done. Qed.

Lemma keeps_idle_throw {A} : keeps_idle (@throw A).
Proof. intros st a' st' ?. done. Qed.

Lemma keeps_idle_bind {A B} (m : M A) (k : A -> M B) :
  keeps_idle m -> (forall a, keeps_idle (k a)) -> keeps_idle (bind m k).
Proof.
  intros Hm Hk st b st' Hr Hi. unfold bind in Hr.
  destruct (m st) as [a st1| |] eqn:Em; [|done..].
  eapply Hk; [exact Hr|]. by eapply Hm.
Qed.

Lemma keeps_idle_modify f :
  (forall st, recorder_idle st -> recorder_idle (f st)) ->
  keeps_idle (modify f).
Proof.
  intros Hf st a st' Hr Hi. unfold modify in Hr. simplify_eq. by apply Hf.
Qed.

Lemma keeps_idle_signal_get s prop : keeps_idle (signal_get s prop).
Proof.
  intros st v st' Hg [Hflag Hdeps]. unfold signal_get in Hg.
  destruct (signals st !! s); [|done]. simplify_eq.
  unfold record_get. simpl. rewrite Hflag, andb_false_r. done.
Qed.

Lemma keeps_idle_call_subscribe s cb : keeps_idle (call_subscribe s cb).
Proof.
  apply keeps_idle_bind; [apply keeps_idle_signal_get|]. intros _.
  by apply keeps_idle_modify.
Qed.

Lemma keeps_idle_eval e : keeps_idle (eval e).
Proof.
  induction e as [l|s prop|e IH k]; simpl.
  - intros st v st' Hr Hi. destruct (alloc_lit l (heap st)). by simplify_eq.
  - apply keeps_idle_signal_get.
  - apply keeps_idle_bind; [done|]. intros v.
    destruct v; simpl;
      first [apply keeps_idle_ret | apply keeps_idle_throw | idtac].
    intros st v st' Hr Hi. unfold obj_get in Hr.
    destruct (heap st !! r); by simplify_eq.
Qed.

Lemma keeps_idle_notify_with fe s :
  (forall i, keeps_idle (fe s i)) -> keeps_idle (notify_with fe s).
Proof.
  intros H. apply keeps_idle_bind; [by apply keeps_idle_modify|].
  intros _. apply H.
Qed.

Lemma keeps_idle_signal_set n s prop v :
  (forall s, keeps_idle (n s)) -> keeps_idle (signal_set n s prop v).
Proof.
  intros H st b st' Hr Hi. unfold signal_set in Hr.
  destruct (signals st !! s); [|done].
  destruct (String.eqb prop "value"); [|by simplify_eq].
  revert Hr. unfold bind, ret.
  destruct (n s (store_value s v st)) as [[] st1| |] eqn:En; [|done..].
  intros [= _ <-]. by eapply H.
Qed.

Lemma keeps_idle_val_set n t k v :
  (forall s, keeps_idle (n s)) -> keeps_idle (val_set n t k v).
Proof.
  intros H. destruct t; simpl;
    first [apply keeps_idle_ret | apply keeps_idle_throw | idtac].
  intros st b st' Hr Hi. unfold obj_set in Hr.
  destruct (heap st !! r) as [o|]; [|done].
  destruct (okind o); [by simplify_eq..|]. by eapply H.
Qed.

Lemma keeps_idle_for_each {A} (f : A -> M unit) l :
  (forall x, keeps_idle (f x)) -> keeps_idle (for_each f l).
Proof.
  intros Hf. induction l as [|x l IH]; simpl; [apply keeps_idle_ret|].
  apply keeps_idle_bind; [apply Hf|]. intros _. apply IH.
Qed.

Lemma keeps_idle_signalEffect_with call cb :
  keeps_idle (signalEffect_with call cb).
Proof.
  unfold signalEffect_with. apply keeps_idle_bind.
  - intros st deps st' Hr _. unfold getDependenciesFromEffect_with in Hr.
    unfold bind at 1 2, modify at 1 2 in Hr. unfold bind at 1 in Hr.
    destruct (call cb _) as [[] st1| |]; [|done..].
    unfold bind, modify, ret in Hr. by simplify_eq.
  - intros deps. apply keeps_idle_bind; [|intros _; apply keeps_idle_ret].
    apply keeps_idle_for_each. intros s. apply keeps_idle_call_subscribe.
Qed.

Lemma keeps_idle_exec_forEach prog fuel :
  (forall c, keeps_idle (exec prog fuel c)) /\
  (forall s i, keeps_idle (forEach prog fuel s i)).
Proof.
  induction fuel as [|f [IHe IHf]]; [split; intros; intros st a st' Hr; done|].
  split.
  - intros c. destruct c; simpl.
    + apply keeps_idle_ret.
    + apply keeps_idle_bind; [apply IHe|]. intros _. apply IHe.
    + apply keeps_idle_bind; [apply keeps_idle_eval|].
      intros _. apply keeps_idle_ret.
    + apply keeps_idle_bind; [apply keeps_idle_eval|]. intros v.
      destruct (truthy v); apply IHe.
    + apply keeps_idle_throw.
    + apply keeps_idle_bind; [apply keeps_idle_eval|]. intros v.
      apply keeps_idle_bind.
      * apply keeps_idle_signal_set. intros s'.
        apply keeps_idle_notify_with. intros i. apply IHf.
      * intros [|]; [apply keeps_idle_ret|apply keeps_idle_throw].
    + apply keeps_idle_bind; [apply keeps_idle_eval|]. intros t.
      apply keeps_idle_bind; [apply keeps_idle_eval|]. intros v.
      apply keeps_idle_val_set. intros s'.
      apply keeps_idle_notify_with. intros i. apply IHf.
    + apply keeps_idle_call_subscribe.
    + by apply keeps_idle_modify.
    + apply keeps_idle_bind; [apply keeps_idle_signalEffect_with|].
      intros _. apply keeps_idle_ret.
  - intros s i st a st' Hr Hi. simpl in Hr.
    destruct (listeners_of st s !! i) as [[cb|]|]; [| |by simplify_eq].
    + revert Hr Hi. apply keeps_idle_bind; [by apply keeps_idle_modify|].
      intros _. apply keeps_idle_bind; [apply IHe|]. intros _. apply IHf.
    + by eapply IHf.
Qed.

Lemma exec_keeps_idle prog fuel c : keeps_idle (exec prog fuel c).
Proof. apply keeps_idle_exec_forEach. Qed.

Lemma write_keeps_idle prog fuel s prop v :
  keeps_idle (write prog fuel s prop v).
Proof.
  apply keeps_idle_signal_set. intros s'. apply keeps_idle_notify_with.
  intros i. apply keeps_idle_exec_forEach.
Qed.

Lemma signalEffect_keeps_idle prog fuel cb :
  keeps_idle (signalEffect prog fuel cb).
Proof. apply keeps_idle_signalEffect_with. Qed.

Lemma createSignal_keeps_idle fuel v : keeps_idle (createSignal fuel v).
Proof.
  intros st s st' Hr Hi. unfold createSignal in Hr.
  destruct (as_object (heap st) v); [|by simplify_eq].
  destruct (recursiveProxy _ _ _ _) as [[r' h']|]; by simplify_eq.
Qed.

(** ** Listener sets are sets *)

Lemma wf_listeners_initial : wf_listeners initial.
Proof. intros s. destruct s; constructor. Qed.

Lemma exec_wf_listeners prog fuel c st st' :
  final (exec prog fuel c st) = Some st' ->
  wf_listeners st -> wf_listeners st'.
Proof.
  intros Hf Hwf s.
  destruct (sound_exec prog fuel c st st' Hf) as [evs H].
  by apply (steps_nodup _ _ _ _ H).
Qed.

Lemma write_wf_listeners prog fuel s prop v st st' :
  final (write prog fuel s prop v st) = Some st' ->
  wf_listeners st -> wf_listeners st'.
Proof.
  intros Hf Hwf s'.
  destruct (sound_write prog fuel s prop v st st' Hf) as [evs H].
  by apply (steps_nodup _ _ _ _ H).
Qed.

Lemma signalEffect_wf_listeners prog fuel cb st st' :
  final (signalEffect prog fuel cb st) = Some st' ->
  wf_listeners st -> wf_listeners st'.
Proof.
  intros Hf Hwf s'.
  destruct (sound_signalEffect prog fuel cb st st' Hf) as [evs H].
  by apply (steps_nodup _ _ _ _ H).
Qed.

Lemma createSignal_wf_listeners fuel v st s st' :
  createSignal fuel v st = Ok s st' -> wf_listeners st -> wf_listeners st'.
Proof.
  intros Hc Hwf s'.
  assert (Hsig : exists c, signals st' = signals st ++ [mkCell c []]).
  { unfold createSignal in Hc.
    destruct (as_object (heap st) v); [|simplify_eq; eauto].
    destruct (recursiveProxy _ _ _ _) as [[r' h']|]; simplify_eq; eauto. }
  destruct Hsig as [c Hsig]. unfold listeners_of. rewrite Hsig.
  destruct (decide (s' < length (signals st))) as [Hlt|Hge].
  - rewrite lookup_app_l by done. apply (Hwf s').
  - rewrite lookup_app_r by lia.
    destruct (s' - length (signals st)) as [|[|n]]; constructor.
Qed.

(** ** The embedding on small runs *)

(** A listener added while the set is iterated is visited by the same
    pass. *)
Example forEach_visits_added_listener :
  exists st,
    write subscribing 5 0 "value" (VNum 1)
          (run (s <- createSignal 1 (VNum 0) ;; call_subscribe s 0) initial)
      = Ok true st /\
    calls_by 0 (trace st) = [0; 1].
Proof. eexists. split; vm_compute; reflexivity. Qed.

(** A listener that writes its own signal runs a second pass inside the
    first: it is invoked twice by one outer write, and the payload is not
    the one written. *)
Example reentrant_write_nests :
  exists st,
    write rewriting 8 0 "value" (VNum 0)
          (run (s <- createSignal 1 (VNum 5) ;; call_subscribe s 0) initial)
      = Ok true st /\
    calls_by 0 (trace st) = [0; 0] /\
    value_of st 0 = VNum 1.
Proof. eexists. split_and!; vm_compute; reflexivity. Qed.

(** A listener that calls its own handle and subscribes again is appended
    behind the pass, which invokes it a second time. *)
Example resubscribed_listener_runs_twice :
  exists st,
    write returning 8 0 "value" (VNum 5)
          (run (call_subscribe 0 0) three_signals)
      = Ok true st /\
    calls_by 0 (new_events (run (call_subscribe 0 0) three_signals) st)
      = [0; 0] /\
    notify_count 0 (new_events (run (call_subscribe 0 0) three_signals) st)
      = 1.
Proof. eexists. split_and!; vm_compute; reflexivity. Qed.

(** A listener that throws ends the pass: the write does not return and
    the listeners behind it are not invoked. *)
Example throwing_listener_ends_pass :
  exists st,
    write failing_first 5 0 "value" (VNum 5) two_listeners = Throw st /\
    calls_by 0 (new_events two_listeners st) = [0].
Proof. eexists. split; vm_compute; reflexivity. Qed.

(** [recursiveProxy] does not return on an object that contains itself. *)
Example cyclic_object_exhausts_fuel :
  createSignal 50 (VRef 0) cyclic_heap = Diverge.
Proof. vm_compute. reflexivity. Qed.

(** [createSignal({ count: 0 })] stores a proxy of the signal and leaves
    the object it was given as it is. *)
Example createSignal_wraps_object :
  value_of object_signal 0 = VRef 1 /\
  heap object_signal !! 0 = Some (mkObj KPlain [("count", VNum 0)]) /\
  heap object_signal !! 1 = Some (mkObj (KProxy 0) [("count", VNum 0)]).
Proof. split_and!; reflexivity. Qed.

(** [signalEffect] followed by the closure it returned leaves the effect
    subscribed nowhere. *)
Example teardown_unsubscribes :
  exists st,
    (deps <- signalEffect switching 6 0 ;; teardown 0 deps) three_signals
      = Ok tt st /\
    live (listeners_of st 0) = [] /\ live (listeners_of st 1) = [].
Proof. eexists. split_and!; vm_compute; reflexivity. Qed.

(** After a capture that threw, the flag and the working set it left behind
    leak into the next capture: the second effect reads [b] only and is
    subscribed to [a] as well. *)
Example throwing_capture_leaks_into_next :
  exists st1 st2,
    signalEffect throwing_then_reading 5 0 three_signals = Throw st1 /\
    signalEffect throwing_then_reading 5 1 st1 = Ok [0; 1] st2 /\
    live (listeners_of st2 0) = [1].
Proof. do 2 eexists. split_and!; vm_compute; reflexivity. Qed.

(** ** Rejected writes *)

(** C5: on the outer cell of a signal, assigning to a property other than
    [value] makes the [set] trap return [false]; the state, the listener
    sets and the trace are unchanged, so nothing is stored and no listener
    is notified. *)
Theorem rejected_write (notify : nat -> M unit) st s c prop newValue :
  signals st !! s = Some c ->
  prop <> "value" ->
  signal_set notify s prop newValue st = Ok false st.
Proof.
  intros Hs Hp. unfold signal_set. rewrite Hs.
  destruct (String.eqb prop "value") eqn:E; [|done].
  by apply String.eqb_eq in E.
Qed.

Lemma rejected_write_witness :
  write [] 5 0 "count" (VNum 1) two_listeners = Ok false two_listeners.
Proof.
  apply (rejected_write _ two_listeners 0 (mkCell (VNum 0) [Some 0; Some 1])).
  - reflexivity.
  - discriminate.
Defined.

(** ** What a capture records *)

Lemma live_drop_lookup l i (cb : nat) :
  l !! i = Some (Some cb) -> live (drop i l) <> [].
Proof.
  intros Hi Hl. rewrite (drop_S l (Some cb) i Hi) in Hl. done.
Qed.

Lemma live_drop_skip l i :
  l !! i = Some None -> live (drop i l) = live (drop (S i) l).
Proof. intros Hi. by rewrite (drop_S l None i Hi). Qed.

Lemma forEach_dead prog fuel s i st :
  live (drop i (listeners_of st s)) = [] ->
  forEach prog fuel s i st = Diverge \/ forEach prog fuel s i st = Ok tt st.
Proof.
  revert i. induction fuel as [|f IH]; intros i Hl; [by left|]. simpl.
  destruct (listeners_of st s !! i) as [[cb|]|] eqn:Ei.
  - by apply live_drop_lookup in Ei.
  - apply IH. by rewrite <- live_drop_skip.
  - by right.
Qed.

Lemma listeners_of_store_value st s v s' :
  listeners_of (store_value s v st) s' = listeners_of st s'.
Proof.
  unfold store_value. rewrite listeners_of_alter. case_decide; [subst|done].
  unfold listeners_of. by destruct (signals st !! s').
Qed.

Lemma write_value_unfold prog fuel s v st c :
  signals st !! s = Some c ->
  write prog fuel s "value" v st =
    (forEach prog fuel s 0 ;; ret true)
      (emit (EvNotify s) (store_value s v st)).
Proof.
  intros Hs. unfold write, signal_set. rewrite Hs. simpl.
  unfold notifyListeners, notify_with, bind, modify. done.
Qed.

Lemma write_value_valid prog fuel s v st b st' :
  write prog fuel s "value" v st = Ok b st' ->
  exists c, signals st !! s = Some c.
Proof.
  unfold write, signal_set. destruct (signals st !! s); [eauto|done].
Qed.

(** C10: while the capture flag is set, client code leaves a signal in the
    working set exactly when the signal was there before or its [value] was
    read through the outer [get] trap.  The [get] trap registers the signal
    for [value] and for no other property (such as [subscribe]); reading a
    field of a nested proxy changes nothing; a write to [signal.value]
    registers only what its listeners read, and nothing when there are
    none. *)
Theorem value_read_registers_dependency prog fuel c st st' :
  isRunningEffect st = true ->
  final (exec prog fuel c st) = Some st' ->
  Forall (fun e => is_capture e = false) (new_events st st') ->
  (forall s, s ∈ effectDependencies st' <->
     s ∈ effectDependencies st \/ EvGet s "value" ∈ new_events st st') /\
  (forall s prop v st1, signal_get s prop st = Ok v st1 ->
     new_events st st1 = [EvGet s prop] /\
     effectDependencies st1 =
       if String.eqb prop "value" then deps_add s (effectDependencies st)
       else effectDependencies st) /\
  (forall r k v st1, obj_get r k st = Ok v st1 -> st1 = st) /\
  (forall s v b st1, write prog fuel s "value" v st = Ok b st1 ->
     Forall (fun e => is_capture e = false) (new_events st st1) ->
     (forall s', s' ∈ effectDependencies st1 <->
        s' ∈ effectDependencies st \/ EvGet s' "value" ∈ new_events st st1) /\
     (live (listeners_of st s) = [] ->
        effectDependencies st1 = effectDependencies st)).
Proof.
  intros Hflag Hf Hnc. split_and!.
  - intros s.
    pose proof (sound_new_events None _ st st' (sound_exec prog fuel c) Hf) as H.
    destruct (Steps_recording _ _ _ _ H Hflag Hnc) as [_ ->].
    by rewrite elem_of_record_reads, elem_of_reads.
  - intros s prop v st1 Hg. unfold signal_get in Hg.
    destruct (signals st !! s); [|done]. simplify_eq.
    unfold record_get. simpl. rewrite Hflag, andb_true_r. split.
    + unfold new_events. destruct (String.eqb prop "value"); simpl;
        apply drop_app_length.
    + by destruct (String.eqb prop "value").
  - intros r k v st1 Hg. unfold obj_get in Hg.
    destruct (heap st !! r); by simplify_eq.
  - intros s v b st1 Hw Hnc1.
    assert (Hf1 : final (write prog fuel s "value" v st) = Some st1)
      by (by rewrite Hw).
    pose proof (sound_new_events None _ st st1
                  (sound_write prog fuel s "value" v) Hf1) as H.
    destruct (Steps_recording _ _ _ _ H Hflag Hnc1) as [_ Hd]. split.
    + intros s'. rewrite Hd. by rewrite elem_of_record_reads, elem_of_reads.
    + intros Hlive. rewrite Hd.
      assert (Hev : new_events st st1 = [EvNotify s]); [|by rewrite Hev].
      destruct (write_value_valid _ _ _ _ _ _ _ Hw) as [cell Hs].
      rewrite (write_value_unfold _ _ _ _ _ _ Hs) in Hw. unfold bind in Hw.
      set (st0 := emit (EvNotify s) (store_value s v st)) in *.
      destruct (forEach_dead prog fuel s 0 st0) as [Hd'|Hd'].
      { change (live (drop 0 (listeners_of (store_value s v st) s)) = []).
        by rewrite listeners_of_store_value. }
      * by rewrite Hd' in Hw.
      * rewrite Hd' in Hw. unfold ret in Hw. simplify_eq.
        unfold new_events. simpl. apply drop_app_length.
Qed.

Lemma value_read_registers_dependency_witness :
  exists st',
    exec [] 6 probe capturing = Ok tt st' /\
    effectDependencies st' = [2] /\
    (forall s, s ∈ effectDependencies st' <->
       s ∈ effectDependencies capturing \/
       EvGet s "value" ∈ new_events capturing st').
Proof.
  eexists. split; [vm_compute; reflexivity|]. split; [reflexivity|].
  refine (proj1 (value_read_registers_dependency [] 6 probe capturing _ _ _ _)).
  - reflexivity.
  - vm_compute. reflexivity.
  - vm_compute. repeat constructor.
Defined.


(** ** Dependency capture *)

Lemma new_events_app st evs st' :
  trace st' = trace st ++ evs -> new_events st st' = evs.
Proof. intros H. unfold new_events. rewrite H. apply drop_app_length. Qed.

Lemma getDependenciesFromEffect_unfold prog fuel cb st :
  getDependenciesFromEffect prog fuel cb st =
    match exec prog fuel (body prog cb) (capture_start cb st) with
    | Ok _ st1 => Ok (effectDependencies st1) (capture_end cb st1)
    | Throw st1 => Throw st1
    | Diverge => Diverge
    end.
Proof.
  unfold getDependenciesFromEffect, getDependenciesFromEffect_with, call,
    call_with, bind, modify, ret, capture_start, capture_end.
  by destruct (exec _ _ _ _).
Qed.

Lemma signalEffect_unfold prog fuel cb st :
  signalEffect prog fuel cb st =
    match getDependenciesFromEffect prog fuel cb st with
    | Ok deps st1 =>
        (for_each (fun s => call_subscribe s cb) deps ;; ret deps) st1
    | Throw st1 => Throw st1
    | Diverge => Diverge
    end.
Proof. done. Qed.

(** A capture whose run of [cb] returns: what is returned, and that the
    signals returned exist. *)
Lemma capture_returns_signals_read_core prog fuel cb st st1 :
  recorder_idle st ->
  exec prog fuel (body prog cb) (capture_start cb st) = Ok tt st1 ->
  Forall (fun e => is_capture e = false)
         (new_events (capture_start cb st) st1) ->
  getDependenciesFromEffect prog fuel cb st =
    Ok (nub (reads (new_events (capture_start cb st) st1)))
       (capture_end cb st1) /\
  (forall s, s ∈ nub (reads (new_events (capture_start cb st) st1)) ->
     s < length (signals (capture_end cb st1))).
Proof.
  intros [Hflag Hdeps] Hrun Hnc.
  assert (Hf : final (exec prog fuel (body prog cb) (capture_start cb st))
               = Some st1) by (by rewrite Hrun).
  pose proof (sound_new_events None _ _ _ (sound_exec prog fuel _) Hf) as H.
  destruct (Steps_recording _ _ _ _ H eq_refl Hnc) as [_ Hd].
  change (effectDependencies (capture_start cb st))
    with (effectDependencies st) in Hd.
  rewrite Hdeps, record_reads_idle in Hd. split.
  - by rewrite getDependenciesFromEffect_unfold, Hrun, Hd.
  - intros s Hs. apply elem_of_nub, elem_of_reads in Hs.
    change (length (signals (capture_end cb st1)))
      with (length (signals st1)).
    rewrite (steps_signals _ _ _ _ H).
    by apply (steps_get _ _ _ _ H s "value").
Qed.

(** A capture whose run of [cb] returns: what is returned, and that the
    signals read exist. *)
Lemma capture_records prog fuel cb st st1 :
  exec prog fuel (body prog cb) (capture_start cb st) = Ok tt st1 ->
  Forall (fun e => is_capture e = false)
         (new_events (capture_start cb st) st1) ->
  getDependenciesFromEffect prog fuel cb st =
    Ok (record_reads (effectDependencies st)
          (reads (new_events (capture_start cb st) st1)))
       (capture_end cb st1) /\
  (forall s, EvGet s "value" ∈ new_events (capture_start cb st) st1 ->
     s < length (signals (capture_end cb st1))).
Proof.
  intros Hrun Hnc.
  assert (Hf : final (exec prog fuel (body prog cb) (capture_start cb st))
               = Some st1) by (by rewrite Hrun).
  pose proof (sound_new_events None _ _ _ (sound_exec prog fuel _) Hf) as H.
  destruct (Steps_recording _ _ _ _ H eq_refl Hnc) as [_ Hd].
  change (effectDependencies (capture_start cb st))
    with (effectDependencies st) in Hd.
  split.
  - by rewrite getDependenciesFromEffect_unfold, Hrun, Hd.
  - intros s Hs.
    change (length (signals (capture_end cb st1)))
      with (length (signals st1)).
    rewrite (steps_signals _ _ _ _ H).
    by apply (steps_get _ _ _ _ H s "value").
Qed.

(** C2, as the code has it: when the working set is empty as the capture
    starts, [getDependenciesFromEffect(fn)] sets the flag, runs [fn] once
    and, when that run returns and starts no capture of its own, clears the
    flag, returns the signals whose [value] was read during the run, each
    once and in the order of their first read (reads in branches not taken
    leave no event and are not among them), and leaves the working set
    empty. *)
Theorem capture_returns_signals_read prog fuel fn st st1 :
  effectDependencies st = [] ->
  exec prog fuel (body prog fn) (capture_start fn st) = Ok tt st1 ->
  Forall (fun e => is_capture e = false)
         (new_events (capture_start fn st) st1) ->
  isRunningEffect (capture_start fn st) = true /\
  getDependenciesFromEffect prog fuel fn st =
    Ok (nub (reads (new_events (capture_start fn st) st1)))
       (capture_end fn st1) /\
  new_events st (capture_end fn st1) =
    [EvCapture fn; EvCall None fn] ++
    new_events (capture_start fn st) st1 ++ [EvCaptured fn] /\
  (forall cb, EvCall None cb ∉ new_events (capture_start fn st) st1) /\
  isRunningEffect (capture_end fn st1) = false /\
  effectDependencies (capture_end fn st1) = [] /\
  (forall fuel', fuel <= fuel' ->
     getDependenciesFromEffect prog fuel' fn st =
       Ok (nub (reads (new_events (capture_start fn st) st1)))
          (capture_end fn st1)).
Proof.
  intros Hdeps Hrun Hnc.
  destruct (capture_records _ _ _ _ _ Hrun Hnc) as [Hget _].
  rewrite Hdeps, record_reads_idle in Hget.
  assert (Hmore : forall fuel', fuel <= fuel' ->
     getDependenciesFromEffect prog fuel' fn st =
       Ok (nub (reads (new_events (capture_start fn st) st1)))
          (capture_end fn st1)).
  { intros fuel' Hle. rewrite <- Hget.
    apply getDependenciesFromEffect_fuel; [done|]. by rewrite Hget. }
  assert (Hf : final (exec prog fuel (body prog fn) (capture_start fn st))
               = Some st1) by (by rewrite Hrun).
  pose proof (sound_new_events None _ _ _ (sound_exec prog fuel _) Hf) as H.
  split_and!; try done.
  - apply new_events_app. simpl. rewrite (steps_trace _ _ _ _ H). simpl.
    by rewrite <- !app_assoc.
  - by apply (steps_direct _ _ _ _ H).
Qed.

Lemma capture_returns_signals_read_witness :
  exists st1,
    exec branching 5 (body branching 0) (capture_start 0 three_signals)
      = Ok tt st1 /\
    getDependenciesFromEffect branching 5 0 three_signals
      = Ok [1] (capture_end 0 st1).
Proof.
  eexists. split; [vm_compute; reflexivity|].
  destruct (capture_returns_signals_read branching 5 0 three_signals _
              eq_refl
              ltac:(vm_compute; reflexivity)
              ltac:(vm_compute; repeat constructor))
    as (_ & Hdeps & _).
  exact Hdeps.
Defined.

(** C2 as stated fails: a capture that threw leaves what it read in the
    working set, and the next capture returns it along with its own reads:
    a signal that was not read during the run of [fn]. *)
Lemma capture_returns_leftover_signal :
  ~ (forall deps st',
       getDependenciesFromEffect throwing_then_reading 5 1
         (run (signalEffect throwing_then_reading 5 0) three_signals)
         = Ok deps st' ->
       forall s, s ∈ deps ->
         EvGet s "value"
           ∈ new_events
               (run (signalEffect throwing_then_reading 5 0) three_signals)
               st').
Proof.
  intros H.
  specialize (H [0; 1] _ ltac:(vm_compute; reflexivity) 0 ltac:(by_compute)).
  revert H. by_compute.
Qed.

(** C8: what the code does when the callback of [signalEffect] throws
    during the capture run.  The exception reaches the caller in the very
    state the callback left, so [signalEffect] subscribes nothing.  The
    two statements that clear the recorder (lines 160 and 162) follow
    [callback()] with no [try] and [finally] around it, and are not
    reached: the capture flag stays set and the working set keeps the
    signals read before the throw, where C8 has both cleared on every
    path. *)
Theorem throwing_capture_skips_cleanup prog fuel cb st st1 :
  exec prog fuel (body prog cb) (capture_start cb st) = Throw st1 ->
  Forall (fun e => is_capture e = false)
         (new_events (capture_start cb st) st1) ->
  signalEffect prog fuel cb st = Throw st1 /\
  new_events st st1 =
    [EvCapture cb; EvCall None cb] ++ new_events (capture_start cb st) st1 /\
  (forall s, Forall (fun e => touches s e = false)
                    (new_events (capture_start cb st) st1) ->
             listeners_of st1 s = listeners_of st s) /\
  isRunningEffect st1 = true /\
  effectDependencies st1 =
    record_reads (effectDependencies st)
                 (reads (new_events (capture_start cb st) st1)) /\
  (forall fuel', fuel <= fuel' -> signalEffect prog fuel' cb st = Throw st1).
Proof.
  intros Hrun Hnc.
  assert (Hthrow : signalEffect prog fuel cb st = Throw st1)
    by (by rewrite signalEffect_unfold, getDependenciesFromEffect_unfold, Hrun).
  assert (Hmore : forall fuel', fuel <= fuel' ->
            signalEffect prog fuel' cb st = Throw st1).
  { intros fuel' Hle. rewrite <- Hthrow.
    apply signalEffect_fuel; [done|]. by rewrite Hthrow. }
  assert (Hf : final (exec prog fuel (body prog cb) (capture_start cb st))
               = Some st1) by (by rewrite Hrun).
  pose proof (sound_new_events None _ _ _ (sound_exec prog fuel _) Hf) as H.
  destruct (Steps_recording _ _ _ _ H eq_refl Hnc) as [Hfl Hd].
  split_and!; try done.
  - apply new_events_app. rewrite (steps_trace _ _ _ _ H). simpl.
    by rewrite <- !app_assoc.
  - intros s Hs. by rewrite (steps_listeners _ _ _ _ H s Hs).
Qed.

Lemma throwing_capture_skips_cleanup_witness :
  exists st1,
    signalEffect throwing 5 0 three_signals = Throw st1 /\
    isRunningEffect st1 = true /\ effectDependencies st1 = [0] /\
    listeners_of st1 0 = [].
Proof.
  eexists.
  destruct (throwing_capture_skips_cleanup throwing 5 0 three_signals
              _ ltac:(vm_compute; reflexivity)
              ltac:(vm_compute; repeat constructor))
    as (Hthrow & _ & Hl & Hflag & Hdeps & _).
  split; [exact Hthrow|]. split; [exact Hflag|]. split; [exact Hdeps|].
  apply Hl. vm_compute. repeat constructor.
Defined.

(** C8 at [signalEffect(() => { a.value; throw ... })]: the recorder is not
    left cleared. *)
Lemma throwing_capture_not_cleared :
  ~ (forall st', signalEffect throwing 5 0 three_signals = Throw st' ->
                 isRunningEffect st' = false /\ effectDependencies st' = []).
Proof.
  intros H.
  destruct (H _ ltac:(vm_compute; reflexivity)) as [Hflag _].
  vm_compute in Hflag. discriminate.
Qed.

(** ** One notification pass *)

Lemma called_by_Some s e cb :
  called_by s e = Some cb <-> e = EvCall (Some s) cb.
Proof.
  split.
  - destruct e as [| |[s'|]| | | |]; simpl; try done.
    case_bool_decide; [|done]. intros. by simplify_eq.
  - intros ->. simpl. by rewrite bool_decide_eq_true_2.
Qed.

Lemma calls_by_nil s evs :
  (forall cb, EvCall (Some s) cb ∉ evs) -> calls_by s evs = [].
Proof.
  intros H. induction evs as [|e evs IH]; [done|].
  unfold calls_by. simpl. destruct (called_by s e) as [cb|] eqn:E.
  - apply called_by_Some in E. subst. destruct (H cb). left.
  - apply IH. intros cb Hin. apply (H cb). by right.
Qed.

Lemma elem_of_calls_by s cb evs :
  cb ∈ calls_by s evs <-> EvCall (Some s) cb ∈ evs.
Proof.
  unfold calls_by. rewrite list_elem_of_omap. split.
  - intros (e & He & Hc). apply called_by_Some in Hc. by subst.
  - intros H. exists (EvCall (Some s) cb). split; [done|].
    by apply called_by_Some.
Qed.

Lemma notify_count_0 s evs : notify_count s evs = 0 -> EvNotify s ∉ evs.
Proof.
  unfold notify_count. intros H Hin.
  apply length_zero_iff_nil in H.
  assert (EvNotify s ∈ filter (fun e => e = EvNotify s) evs) as Hf
    by (by apply list_elem_of_filter).
  rewrite H in Hf. by apply elem_of_nil in Hf.
Qed.

Lemma count_absent (l : list nat) x :
  x ∉ l -> length (filter (fun c => c = x) l) = 0.
Proof.
  induction l as [|y l IH]; intros Hx; [done|].
  apply not_elem_of_cons in Hx as [Hne Hx].
  rewrite filter_cons_False by congruence. by apply IH.
Qed.

Lemma count_NoDup (l : list nat) x :
  NoDup l -> x ∈ l -> length (filter (fun c => c = x) l) = 1.
Proof.
  induction 1 as [|y l Hy Hnd IH]; intros Hin; [by apply elem_of_nil in Hin|].
  destruct (decide (y = x)) as [->|Hne].
  - rewrite filter_cons_True by done. simpl. f_equal. by apply count_absent.
  - rewrite filter_cons_False by done. apply IH.
    apply elem_of_cons in Hin as [->|]; done.
Qed.

(** A pass that finishes, during which nobody changes the listener set of
    [s] or notifies [s] again, invokes the live entries from [i] on, in
    order, and nothing else on behalf of [s]. *)
Lemma forEach_exact prog fuel s i st st' :
  forEach prog fuel s i st = Ok tt st' ->
  Forall (fun e => touches s e = false) (new_events st st') ->
  EvNotify s ∉ new_events st st' ->
  calls_by s (new_events st st') = live (drop i (listeners_of st s)) /\
  listeners_of st' s = listeners_of st s /\
  value_of st' s = value_of st s.
Proof.
  revert i st. induction fuel as [|f IH]; intros i st Hrun Ht Hn; [done|].
  simpl in Hrun. destruct (listeners_of st s !! i) as [[cb|]|] eqn:Ei.
  - unfold bind at 1, modify in Hrun.
    set (st1 := emit (EvCall (Some s) cb) st) in *.
    unfold bind in Hrun.
    destruct (exec prog f (body prog cb) st1) as [[] st2|st2|] eqn:Eb;
      [|done..].
    assert (H2 : Steps None st1 (new_events st1 st2) st2).
    { apply (sound_new_events None (exec prog f (body prog cb)));
        [apply sound_exec|]. by rewrite Eb. }
    assert (H3 : Steps (Some s) st2 (new_events st2 st') st').
    { apply (sound_new_events (Some s) (forEach prog f s (S i)));
        [apply sound_forEach|]. by rewrite Hrun. }
    assert (Hev : new_events st st' =
              [EvCall (Some s) cb] ++ new_events st1 st2 ++ new_events st2 st').
    { apply new_events_app.
      rewrite (steps_trace _ _ _ _ H3), (steps_trace _ _ _ _ H2). simpl.
      by rewrite <- !app_assoc. }
    rewrite Hev in Ht, Hn |- *.
    apply Forall_app in Ht as [_ [Ht2 Ht3]%Forall_app].
    apply not_elem_of_app in Hn as [_ [Hn2 Hn3]%not_elem_of_app].
    destruct (IH _ _ Hrun Ht3 Hn3) as (Hc3 & Hl3 & Hv3).
    pose proof (steps_listeners _ _ _ _ H2 s Ht2) as Hl2.
    pose proof (steps_value _ _ _ _ H2 s Hn2) as Hv2.
    change (listeners_of st1 s) with (listeners_of st s) in Hl2.
    change (value_of st1 s) with (value_of st s) in Hv2.
    split_and!; [|congruence..].
    rewrite !calls_by_app, Hc3, Hl2.
    rewrite (calls_by_nil s (new_events st1 st2)).
    + rewrite (drop_S _ _ _ Ei). simpl.
      by rewrite bool_decide_eq_true_2.
    + intros cb'. by apply (steps_calls _ _ _ _ H2).
  - destruct (IH _ _ Hrun Ht Hn) as (Hc & Hl & Hv).
    split_and!; [|done..]. by rewrite (drop_S _ _ _ Ei).
  - simplify_eq. unfold new_events. rewrite drop_all.
    split_and!; [|done..].
    rewrite drop_ge; [done|]. by apply lookup_ge_None.
Qed.

(** A write to [value] that returns, while the listener set of [s] stays
    as it is and [s] is notified once: the pass invokes the listeners of
    the moment of the write, in order. *)
Lemma write_value_pass prog fuel s v st b st' :
  write prog fuel s "value" v st = Ok b st' ->
  Forall (fun e => touches s e = false) (new_events st st') ->
  notify_count s (new_events st st') = 1 ->
  b = true /\
  calls_by s (new_events st st') = live (listeners_of st s) /\
  value_of st' s = v /\
  listeners_of st' s = listeners_of st s.
Proof.
  intros Hw Ht Hn.
  destruct (write_value_valid _ _ _ _ _ _ _ Hw) as [c Hs].
  rewrite (write_value_unfold _ _ _ _ _ _ Hs) in Hw. unfold bind in Hw.
  set (st0 := emit (EvNotify s) (store_value s v st)) in *.
  destruct (forEach prog fuel s 0 st0) as [[] st1|st1|] eqn:Ef; [|done..].
  unfold ret in Hw. simplify_eq.
  assert (H1 : Steps (Some s) st0 (new_events st0 st') st').
  { apply (sound_new_events (Some s) (forEach prog fuel s 0));
      [apply sound_forEach|]. by rewrite Ef. }
  assert (Hev : new_events st st' = [EvNotify s] ++ new_events st0 st').
  { apply new_events_app. rewrite (steps_trace _ _ _ _ H1). simpl.
    by rewrite <- !app_assoc. }
  rewrite Hev in Ht, Hn |- *.
  apply Forall_app in Ht as [_ Ht].
  unfold notify_count in Hn. simpl in Hn.
  rewrite filter_cons_True in Hn by done. simpl in Hn.
  assert (Hn' : EvNotify s ∉ new_events st0 st').
  { apply notify_count_0. unfold notify_count. lia. }
  destruct (forEach_exact _ _ _ _ _ _ Ef Ht Hn') as (Hc & Hl & Hv).
  change (listeners_of st0 s) with (listeners_of (store_value s v st) s)
    in Hc, Hl.
  rewrite listeners_of_store_value in Hc, Hl. rewrite drop_0 in Hc.
  split_and!; try done.
  rewrite Hv. unfold st0, store_value.
  change (value_of (emit ?e ?x) s) with (value_of x s).
  rewrite value_of_alter. rewrite decide_True by done. by rewrite Hs.
Qed.

(** A pass that finishes reaches every entry that is not deleted before its
    turn. *)
Lemma forEach_reaches prog fuel s cb i j st st' :
  forEach prog fuel s j st = Ok tt st' ->
  listeners_of st s !! i = Some (Some cb) ->
  j <= i ->
  EvUnsub s cb ∉ new_events st st' ->
  EvCall (Some s) cb ∈ new_events st st'.
Proof.
  revert j st. induction fuel as [|f IH]; intros j st Hrun Hi Hle Hu; [done|].
  simpl in Hrun. destruct (listeners_of st s !! j) as [[cb'|]|] eqn:Ej.
  - unfold bind at 1, modify in Hrun.
    set (st1 := emit (EvCall (Some s) cb') st) in *.
    unfold bind in Hrun.
    destruct (exec prog f (body prog cb') st1) as [[] st2|st2|] eqn:Eb;
      [|done..].
    assert (H2 : Steps None st1 (new_events st1 st2) st2).
    { apply (sound_new_events None (exec prog f (body prog cb')));
        [apply sound_exec|]. by rewrite Eb. }
    assert (H3 : Steps (Some s) st2 (new_events st2 st') st').
    { apply (sound_new_events (Some s) (forEach prog f s (S j)));
        [apply sound_forEach|]. by rewrite Hrun. }
    assert (Hev : new_events st st' =
              [EvCall (Some s) cb'] ++ new_events st1 st2 ++ new_events st2 st').
    { apply new_events_app.
      rewrite (steps_trace _ _ _ _ H3), (steps_trace _ _ _ _ H2). simpl.
      by rewrite <- !app_assoc. }
    rewrite Hev in Hu |- *.
    apply not_elem_of_app in Hu as [_ [Hu2 Hu3]%not_elem_of_app].
    destruct (decide (i = j)) as [->|Hne].
    + rewrite Hi in Ej. simplify_eq. apply elem_of_app. left.
      apply list_elem_of_singleton. done.
    + apply elem_of_app. right. apply elem_of_app. right.
      apply (IH (S j) st2); [done| |lia|done].
      by apply (steps_stay _ _ _ _ H2).
  - destruct (decide (i = j)) as [->|Hne]; [congruence|].
    apply (IH (S j) st); [done|done|lia|done].
  - apply lookup_ge_None in Ej. apply lookup_lt_Some in Hi. lia.
Qed.

Lemma write_reaches prog fuel s cb i v st b st' :
  write prog fuel s "value" v st = Ok b st' ->
  listeners_of st s !! i = Some (Some cb) ->
  EvUnsub s cb ∉ new_events st st' ->
  EvCall (Some s) cb ∈ new_events st st'.
Proof.
  intros Hw Hi Hu.
  destruct (write_value_valid _ _ _ _ _ _ _ Hw) as [c Hs].
  rewrite (write_value_unfold _ _ _ _ _ _ Hs) in Hw. unfold bind in Hw.
  set (st0 := emit (EvNotify s) (store_value s v st)) in *.
  destruct (forEach prog fuel s 0 st0) as [[] st1|st1|] eqn:Ef; [|done..].
  unfold ret in Hw. simplify_eq.
  assert (H1 : Steps (Some s) st0 (new_events st0 st') st').
  { apply (sound_new_events (Some s) (forEach prog fuel s 0));
      [apply sound_forEach|]. by rewrite Ef. }
  assert (Hev : new_events st st' = [EvNotify s] ++ new_events st0 st').
  { apply new_events_app. rewrite (steps_trace _ _ _ _ H1). simpl.
    by rewrite <- !app_assoc. }
  rewrite Hev in Hu |- *. apply not_elem_of_app in Hu as [_ Hu].
  apply elem_of_app. right.
  apply (forEach_reaches _ _ _ _ i 0 _ _ Ef); [|lia|done].
  change (listeners_of st0 s) with (listeners_of (store_value s v st) s).
  by rewrite listeners_of_store_value.
Qed.

(** ** Entries of a listener set are never filled again *)

Lemma entries_grow_refl st : entries_grow st st.
Proof. intros s. split; [done|]. intros i cb H. by left. Qed.

Lemma entries_grow_trans st1 st2 st3 :
  entries_grow st1 st2 -> entries_grow st2 st3 -> entries_grow st1 st3.
Proof.
  intros H12 H23 s. destruct (H12 s) as [Hl1 He1], (H23 s) as [Hl2 He2].
  split; [lia|]. intros i cb H3.
  destruct (He2 i cb H3) as [H2|H2]; [by apply He1|]. right. lia.
Qed.

Lemma entries_grow_same st st' :
  (forall s, listeners_of st' s = listeners_of st s) -> entries_grow st st'.
Proof. intros H s. rewrite H. split; [done|]. intros i cb Hi. by left. Qed.

Lemma entries_grow_alter f s0 st :
  (forall l,
     length l <= length (f l) /\
     forall i cb, f l !! i = Some (Some cb) ->
       l !! i = Some (Some cb) \/ length l <= i) ->
  (forall c, value (mkCell (value c) (f (listeners c))) = value c) ->
  entries_grow st
    (set_signals (alter (fun c => mkCell (value c) (f (listeners c))) s0) st).
Proof.
  intros Hf _ s. rewrite listeners_of_alter. case_decide; [|by split; [|left]].
  subst s0. unfold listeners_of. destruct (signals st !! s); [apply Hf|].
  by split; [|left].
Qed.

Lemma keeps_entries_ret {A} (a : A) : keeps_entries (ret a).
Proof. intros st a' st' [= _ <-]. apply entries_grow_refl. Qed.

Lemma keeps_entries_throw {A} : keeps_entries (@throw A).
Proof. intros st a' st' ?. done. Qed.

Lemma keeps_entries_bind {A B} (m : M A) (k : A -> M B) :
  keeps_entries m -> (forall a, keeps_entries (k a)) ->
  keeps_entries (bind m k).
Proof.
  intros Hm Hk st b st' Hr. unfold bind in Hr.
  destruct (m st) as [a st1| |] eqn:Em; [|done..].
  eapply entries_grow_trans; [by eapply Hm|by eapply Hk].
Qed.

Lemma keeps_entries_modify f :
  (forall st, entries_grow st (f st)) -> keeps_entries (modify f).
Proof. intros Hf st a st' Hr. unfold modify in Hr. by simplify_eq. Qed.

Lemma keeps_entries_signal_get s prop : keeps_entries (signal_get s prop).
Proof.
  intros st v st' Hg. unfold signal_get in Hg.
  destruct (signals st !! s); [|done]. simplify_eq.
  apply entries_grow_same. intros s'. unfold listeners_of.
  by rewrite signals_record_get.
Qed.

Lemma keeps_entries_subscribe s cb : keeps_entries (subscribe s cb).
Proof.
  apply keeps_entries_modify. intros st.
  eapply entries_grow_trans; [|by apply entries_grow_same].
  apply (entries_grow_alter (listeners_add cb)); [|done].
  intros l. unfold listeners_add. case_bool_decide; [by split; [|left]|].
  split; [rewrite length_app; lia|]. intros i cb' Hi.
  destruct (decide (i < length l)) as [Hlt|Hge]; [|right; lia].
  left. by rewrite lookup_app_l in Hi.
Qed.

Lemma keeps_entries_unsubscribe s cb : keeps_entries (unsubscribe s cb).
Proof.
  apply keeps_entries_modify. intros st.
  eapply entries_grow_trans; [|by apply entries_grow_same].
  apply (entries_grow_alter (listeners_delete cb)); [|done].
  intros l. unfold listeners_delete. split; [by rewrite length_map|].
  intros i cb' Hi. left. rewrite list_lookup_fmap in Hi.
  destruct (l !! i) as [e|]; [|done]. simpl in Hi.
  case_bool_decide; [done|]. by simplify_eq.
Qed.

Lemma keeps_entries_call_subscribe s cb : keeps_entries (call_subscribe s cb).
Proof.
  apply keeps_entries_bind; [apply keeps_entries_signal_get|]. intros _.
  apply keeps_entries_subscribe.
Qed.

Lemma keeps_entries_eval e : keeps_entries (eval e).
Proof.
  induction e as [l|s prop|e IH k]; simpl.
  - intros st v st' Hr. destruct (alloc_lit l (heap st)). simplify_eq.
    by apply entries_grow_same.
  - apply keeps_entries_signal_get.
  - apply keeps_entries_bind; [done|]. intros v.
    destruct v; simpl;
      first [apply keeps_entries_ret | apply keeps_entries_throw | idtac].
    intros st v st' Hr. unfold obj_get in Hr.
    destruct (heap st !! r); [|done]. simplify_eq. apply entries_grow_refl.
Qed.

Lemma keeps_entries_notify_with fe s :
  (forall i, keeps_entries (fe s i)) -> keeps_entries (notify_with fe s).
Proof.
  intros H. apply keeps_entries_bind.
  - apply keeps_entries_modify. intros st. by apply entries_grow_same.
  - intros _. apply H.
Qed.

Lemma keeps_entries_signal_set n s prop v :
  (forall s, keeps_entries (n s)) -> keeps_entries (signal_set n s prop v).
Proof.
  intros H st b st' Hr. unfold signal_set in Hr.
  destruct (signals st !! s); [|done].
  destruct (String.eqb prop "value"); [|simplify_eq; apply entries_grow_refl].
  revert Hr. unfold bind, ret.
  destruct (n s (store_value s v st)) as [[] st1| |] eqn:En; [|done..].
  intros [= _ <-]. eapply entries_grow_trans; [|by eapply H].
  apply entries_grow_same. intros s'. apply listeners_of_store_value.
Qed.

Lemma keeps_entries_val_set n t k v :
  (forall s, keeps_entries (n s)) -> keeps_entries (val_set n t k v).
Proof.
  intros H. destruct t; simpl;
    first [apply keeps_entries_ret | apply keeps_entries_throw | idtac].
  intros st b st' Hr. unfold obj_set in Hr.
  destruct (heap st !! r) as [o|]; [|done].
  destruct (okind o); [simplify_eq; by apply entries_grow_same..|].
  eapply entries_grow_trans; [|by eapply H]. by apply entries_grow_same.
Qed.

Lemma keeps_entries_for_each {A} (f : A -> M unit) l :
  (forall x, keeps_entries (f x)) -> keeps_entries (for_each f l).
Proof.
  intros Hf. induction l as [|x l IH]; simpl; [apply keeps_entries_ret|].
  apply keeps_entries_bind; [apply Hf|]. intros _. apply IH.
Qed.

Lemma keeps_entries_signalEffect_with call cb :
  (forall cb, keeps_entries (call cb)) ->
  keeps_entries (signalEffect_with call cb).
Proof.
  intros Hcall. unfold signalEffect_with. apply keeps_entries_bind.
  - unfold getDependenciesFromEffect_with.
    assert (Hm : forall f, (forall st s, listeners_of (f st) s = listeners_of st s) ->
              keeps_entries (modify f)).
    { intros f Hf. apply keeps_entries_modify. intros st.
      apply entries_grow_same. intros s. apply Hf. }
    apply keeps_entries_bind; [by apply Hm|]. intros _.
    apply keeps_entries_bind; [by apply Hm|]. intros _.
    apply keeps_entries_bind; [apply Hcall|]. intros _.
    apply keeps_entries_bind; [by apply Hm|]. intros _.
    apply keeps_entries_bind.
    { intros st a st' [= _ <-]. apply entries_grow_refl. }
    intros deps.
    apply keeps_entries_bind; [by apply Hm|]. intros _.
    apply keeps_entries_bind; [by apply Hm|]. intros _.
    apply keeps_entries_ret.
  - intros deps. apply keeps_entries_bind; [|intros _; apply keeps_entries_ret].
    apply keeps_entries_for_each. intros s. apply keeps_entries_call_subscribe.
Qed.

Lemma keeps_entries_exec_forEach prog fuel :
  (forall c, keeps_entries (exec prog fuel c)) /\
  (forall s i, keeps_entries (forEach prog fuel s i)).
Proof.
  induction fuel as [|f [IHe IHf]]; [split; intros; intros st a st' Hr; done|].
  split.
  - intros c. destruct c; simpl.
    + apply keeps_entries_ret.
    + apply keeps_entries_bind; [apply IHe|]. intros _. apply IHe.
    + apply keeps_entries_bind; [apply keeps_entries_eval|].
      intros _. apply keeps_entries_ret.
    + apply keeps_entries_bind; [apply keeps_entries_eval|]. intros v.
      destruct (truthy v); apply IHe.
    + apply keeps_entries_throw.
    + apply keeps_entries_bind; [apply keeps_entries_eval|]. intros v.
      apply keeps_entries_bind.
      * apply keeps_entries_signal_set. intros s'.
        apply keeps_entries_notify_with. intros i. apply IHf.
      * intros [|]; [apply keeps_entries_ret|apply keeps_entries_throw].
    + apply keeps_entries_bind; [apply keeps_entries_eval|]. intros t.
      apply keeps_entries_bind; [apply keeps_entries_eval|]. intros v.
      apply keeps_entries_val_set. intros s'.
      apply keeps_entries_notify_with. intros i. apply IHf.
    + apply keeps_entries_call_subscribe.
    + apply keeps_entries_unsubscribe.
    + apply keeps_entries_bind.
      * apply keeps_entries_signalEffect_with. intros cb'.
        unfold call_with. apply keeps_entries_bind; [|intros _; apply IHe].
        apply keeps_entries_modify. intros st. by apply entries_grow_same.
      * intros _. apply keeps_entries_ret.
  - intros s i st a st' Hr. simpl in Hr.
    destruct (listeners_of st s !! i) as [[cb|]|];
      [| |simplify_eq; apply entries_grow_refl].
    + revert Hr. apply keeps_entries_bind.
      * apply keeps_entries_modify. intros st0. by apply entries_grow_same.
      * intros _. apply keeps_entries_bind; [apply IHe|]. intros _. apply IHf.
    + by eapply IHf.
Qed.

(** ** The place of a listener *)

Lemma place_after_app s cb p e1 e2 :
  place_after s cb p (e1 ++ e2) =
    place_after s cb (place_after s cb p e1) e2.
Proof. apply foldl_app. Qed.

Lemma turns_lost_app s cb p e1 e2 :
  turns_lost s cb p (e1 ++ e2) =
    turns_lost s cb p e1 + turns_lost s cb (place_after s cb p e1) e2.
Proof.
  revert p. induction e1 as [|e e1 IH]; intros p; simpl; [done|].
  rewrite IH. lia.
Qed.

Lemma turns_gained_app s cb p e1 e2 :
  turns_gained s cb p (e1 ++ e2) =
    turns_gained s cb p e1 + turns_gained s cb (place_after s cb p e1) e2.
Proof.
  revert p. induction e1 as [|e e1 IH]; intros p; simpl; [done|].
  rewrite IH. lia.
Qed.

(** While the pass does not invoke [cb], the turn it owes [cb] changes by
    the turns lost and gained. *)
Lemma turns_balance s cb p evs :
  EvCall (Some s) cb ∉ evs ->
  turns_due p + turns_gained s cb p evs =
    turns_due (place_after s cb p evs) + turns_lost s cb p evs.
Proof.
  revert p. induction evs as [|e evs IH]; intros p Hn; simpl; [lia|].
  apply not_elem_of_cons in Hn as [Hne Hn].
  specialize (IH (place_step s cb p e) Hn).
  destruct p; simpl in *; repeat case_bool_decide; simpl in *;
    first [congruence | lia].
Qed.

(** A callback whose handle is not called stays in the set, and neither
    loses nor gains a turn. *)
Lemma place_after_no_unsub s cb p evs :
  EvUnsub s cb ∉ evs -> p <> Out ->
  place_after s cb p evs <> Out /\
  turns_lost s cb p evs = 0 /\ turns_gained s cb p evs = 0.
Proof.
  revert p. induction evs as [|e evs IH]; intros p Hn Hp; simpl; [done|].
  apply not_elem_of_cons in Hn as [Hne Hn].
  assert (Hstep : place_step s cb p e <> Out).
  { destruct p; simpl; repeat case_bool_decide; congruence. }
  destruct (IH _ Hn Hstep) as (Hq & -> & ->).
  split; [done|].
  destruct p; simpl; repeat case_bool_decide; split; first [congruence|lia].
Qed.

Lemma keeps_turn_no_unsub s cb evs :
  EvUnsub s cb ∉ evs -> keeps_turn s cb evs = true.
Proof.
  intros Hn. unfold keeps_turn. apply bool_decide_eq_true_2.
  by destruct (place_after_no_unsub s cb Ahead evs Hn) as (_ & ? & ?).
Qed.

Lemma place_after_quiet s cb p evs :
  EvUnsub s cb ∉ evs -> EvCall (Some s) cb ∉ evs -> p <> Out ->
  place_after s cb p evs = p.
Proof.
  revert p. induction evs as [|e evs IH]; intros p Hu Hc Hp; simpl; [done|].
  apply not_elem_of_cons in Hu as [Hue Hu].
  apply not_elem_of_cons in Hc as [Hce Hc].
  assert (Hstep : place_step s cb p e = p).
  { destruct p; simpl; repeat case_bool_decide; congruence. }
  rewrite Hstep. by apply IH.
Qed.

Lemma place_after_Behind s cb p evs :
  EvCall (Some s) cb ∉ evs ->
  place_after s cb p evs = Behind ->
  p = Behind /\ EvUnsub s cb ∉ evs.
Proof.
  revert p. induction evs as [|e evs IH]; intros p Hc Hp; simpl in Hp.
  - split; [done|]. apply not_elem_of_nil.
  - apply not_elem_of_cons in Hc as [Hce Hc].
    destruct (IH _ Hc Hp) as [Hstep Hu].
    destruct p; simpl in Hstep; repeat case_bool_decide; try congruence.
    split; [done|]. apply not_elem_of_cons. split; [congruence|done].
Qed.

Lemma place_at_in_place s cb j p st : place_at s cb j p st -> in_place s cb p st.
Proof.
  destruct p; simpl; [| |done]; intros (i & _ & Hi);
    by eapply list_elem_of_lookup_2.
Qed.

(** ** Places over a run *)

Lemma places_hold_trans st1 st2 st3 :
  places_hold st1 st2 -> places_hold st2 st3 -> places_hold st1 st3.
Proof.
  intros (Hg1 & e1 & Ht1 & H1) (Hg2 & e2 & Ht2 & H2).
  split; [by eapply entries_grow_trans|]. exists (e1 ++ e2). split.
  - by rewrite Ht2, Ht1, app_assoc.
  - intros s cb. destruct (H1 s cb) as [Hp1 Hu1], (H2 s cb) as [Hp2 Hu2].
    destruct (Hg1 s) as [Hlen1 _], (Hg2 s) as [_ Hold2]. split.
    + intros p Hp. rewrite place_after_app. auto.
    + intros [Hin|Hin]%elem_of_app i Hi Hcb.
      * destruct (Hold2 i cb Hcb) as [H|H]; [|lia]. by apply (Hu1 Hin i).
      * apply (Hu2 Hin i); [lia|done].
Qed.

Lemma in_place_transfer s cb p q st st' :
  (q = Out <-> p = Out) ->
  (Some cb ∈ listeners_of st' s <-> Some cb ∈ listeners_of st s) ->
  in_place s cb p st -> in_place s cb q st'.
Proof.
  intros [Hq1 Hq2] Hl. unfold in_place.
  destruct p, q; rewrite ?Hl; try done;
    first [by discriminate Hq1 | by discriminate Hq2].
Qed.

(** An event that neither subscribes [cb] to [s] nor calls its handle
    leaves [cb] in the set or out of it. *)
Lemma place_step_other s cb p e :
  e <> EvSub s cb -> e <> EvUnsub s cb ->
  place_step s cb p e = Out <-> p = Out.
Proof.
  intros Hs Hu. destruct p; simpl; repeat case_bool_decide;
    split; congruence.
Qed.

Lemma place_after_other s cb p evs :
  EvSub s cb ∉ evs -> EvUnsub s cb ∉ evs ->
  place_after s cb p evs = Out <-> p = Out.
Proof.
  revert p. induction evs as [|e evs IH]; intros p Hs Hu; [done|].
  apply not_elem_of_cons in Hs as [Hse Hs].
  apply not_elem_of_cons in Hu as [Hue Hu].
  simpl. rewrite (IH _ Hs Hu). apply place_step_other; congruence.
Qed.

(** A stretch that leaves the listener sets as they are and neither
    subscribes nor calls a handle. *)
Lemma places_hold_same st st' evs :
  trace st' = trace st ++ evs ->
  (forall s, listeners_of st' s = listeners_of st s) ->
  Forall (fun e => forall s, touches s e = false) evs ->
  places_hold st st'.
Proof.
  intros Ht Hl Hq. split; [by apply entries_grow_same|].
  exists evs. split; [done|]. rewrite Forall_forall in Hq.
  assert (Hn : forall s cb, (EvSub s cb ∉ evs) /\ (EvUnsub s cb ∉ evs)).
  { intros s cb. split; intros Hin; specialize (Hq _ Hin s); simpl in Hq;
      by case_bool_decide. }
  intros s cb. destruct (Hn s cb) as [Hs Hu]. split; [|done].
  intros p. apply in_place_transfer; [by apply place_after_other|].
  by rewrite Hl.
Qed.

Lemma keeps_places_ret {A} (a : A) : keeps_places (ret a).
Proof.
  intros st a' st' [= _ <-].
  apply (places_hold_same _ _ []); [by rewrite app_nil_r|done|constructor].
Qed.

Lemma keeps_places_throw {A} : keeps_places (@throw A).
Proof. intros st a' st' ?. done. Qed.

Lemma keeps_places_bind {A B} (m : M A) (k : A -> M B) :
  keeps_places m -> (forall a, keeps_places (k a)) -> keeps_places (bind m k).
Proof.
  intros Hm Hk st b st' Hr. unfold bind in Hr.
  destruct (m st) as [a st1| |] eqn:Em; [|done..].
  eapply places_hold_trans; [by eapply Hm|by eapply Hk].
Qed.

Lemma keeps_places_modify f evs :
  (forall st, trace (f st) = trace st ++ evs /\
              forall s, listeners_of (f st) s = listeners_of st s) ->
  Forall (fun e => forall s, touches s e = false) evs ->
  keeps_places (modify f).
Proof.
  intros Hf Hq st a st' Hr. unfold modify in Hr. simplify_eq.
  destruct (Hf st) as [Ht Hl]. by apply (places_hold_same _ _ evs).
Qed.

Lemma keeps_places_signal_get s prop : keeps_places (signal_get s prop).
Proof.
  intros st v st' Hg. unfold signal_get in Hg.
  destruct (signals st !! s); [|done]. simplify_eq.
  apply (places_hold_same _ _ [EvGet s prop]).
  - apply trace_record_get.
  - intros s'. unfold listeners_of. by rewrite signals_record_get.
  - by repeat constructor.
Qed.

Lemma elem_of_listeners_delete cb cb' l :
  Some cb' ∈ listeners_delete cb l <-> cb' <> cb /\ Some cb' ∈ l.
Proof.
  unfold listeners_delete. rewrite list_elem_of_fmap. split.
  - intros (e & He & Hin). case_bool_decide; [done|]. subst e.
    split; [congruence|done].
  - intros [Hne Hin]. exists (Some cb'). split; [|done].
    rewrite bool_decide_eq_false_2; [done|congruence].
Qed.

(** The listener set of [s'] after [f] was applied to that of [s]. *)
Lemma listeners_of_change f s st s' :
  listeners_of
    (set_signals (alter (fun c => mkCell (value c) (f (listeners c))) s) st) s'
  = if decide (s = s') then
      match signals st !! s with Some c => f (listeners c) | None => [] end
    else listeners_of st s'.
Proof. by rewrite listeners_of_alter. Qed.

(** [listeners.add(cb)] on a signal that exists. *)
Lemma subscribe_places s cb st a st' :
  is_Some (signals st !! s) ->
  subscribe s cb st = Ok a st' -> places_hold st st'.
Proof.
  intros [c Hc] Hr. split; [by eapply keeps_entries_subscribe|].
  unfold subscribe, modify in Hr. simplify_eq.
  exists [EvSub s cb]. split; [done|]. intros s' cb'. split.
  2:{ intros [?|Hin%elem_of_nil]%elem_of_cons; done. }
  intros p Hp. simpl.
  change (listeners_of (emit ?e ?x) s') with (listeners_of x s').
  destruct (decide (s' = s /\ cb' = cb)) as [[-> ->]|Hne].
  - assert (Hq : place_step s cb p (EvSub s cb) <> Out).
    { destruct p; simpl; repeat case_bool_decide; congruence. }
    assert (Hin : Some cb ∈ listeners_of
              (set_signals
                 (alter (fun c => mkCell (value c)
                                    (listeners_add cb (listeners c))) s)
                 st) s).
    { rewrite listeners_of_change, decide_True, Hc by done.
      apply elem_of_listeners_add. by left. }
    unfold in_place.
    change (listeners_of (emit ?e ?x) s) with (listeners_of x s).
    by destruct (place_step s cb p (EvSub s cb)).
  - revert Hp. apply in_place_transfer.
    + apply place_step_other; [|discriminate].
      intros Heq. injection Heq as ? ?. by destruct Hne.
    + change (listeners_of (emit ?e ?x) s') with (listeners_of x s').
      rewrite listeners_of_change. case_decide as Hs; [subst s'|done].
      unfold listeners_of. rewrite Hc.
      rewrite elem_of_listeners_add.
      split; [intros [->|?]; [by destruct Hne|done]|by right].
Qed.

Lemma keeps_places_unsubscribe s cb : keeps_places (unsubscribe s cb).
Proof.
  intros st a st' Hr. split; [by eapply keeps_entries_unsubscribe|].
  unfold unsubscribe, modify in Hr. simplify_eq.
  exists [EvUnsub s cb]. split; [done|]. intros s' cb'.
  change (listeners_of (emit ?e ?x) s') with (listeners_of x s').
  rewrite listeners_of_change. split.
  - intros p Hp. simpl.
    destruct (decide (s' = s /\ cb' = cb)) as [[-> ->]|Hne].
    + assert (Hq : place_step s cb p (EvUnsub s cb) = Out).
      { destruct p; simpl; repeat case_bool_decide; congruence. }
      rewrite Hq. simpl.
      change (listeners_of (emit ?e ?x) s) with (listeners_of x s).
      rewrite listeners_of_change, decide_True by done.
      destruct (signals st !! s); [apply listeners_delete_absent|].
      apply not_elem_of_nil.
    + revert Hp. apply in_place_transfer.
      * apply place_step_other; [discriminate|].
        intros Heq. injection Heq as ? ?. by destruct Hne.
      * change (listeners_of (emit ?e ?x) s') with (listeners_of x s').
        rewrite listeners_of_change. case_decide as Hs; [subst s'|done].
        unfold listeners_of. destruct (signals st !! s) as [c|]; [|done].
        rewrite elem_of_listeners_delete.
        split; [by intros [_ ?]|]. intros ?.
        split; [intros ->; by destruct Hne|done].
  - intros [[= -> ->]|Hin%elem_of_nil]%elem_of_cons; [|done].
    rewrite decide_True by done. intros i _ Hi.
    destruct (signals st !! s) as [c|]; [|done].
    apply (listeners_delete_absent cb (listeners c)).
    by eapply list_elem_of_lookup_2.
Qed.

Lemma keeps_places_call_subscribe s cb : keeps_places (call_subscribe s cb).
Proof.
  intros st a st' Hr. unfold call_subscribe, bind in Hr.
  destruct (signal_get s "subscribe" st) as [v st1| |] eqn:Eg; [|done..].
  eapply places_hold_trans; [by eapply keeps_places_signal_get|].
  eapply subscribe_places; [|exact Hr].
  unfold signal_get in Eg. destruct (signals st !! s) eqn:Hc; [|done].
  simplify_eq. rewrite signals_record_get. eauto.
Qed.

Lemma keeps_places_eval e : keeps_places (eval e).
Proof.
  induction e as [l|s prop|e IH k]; simpl.
  - intros st v st' Hr. destruct (alloc_lit l (heap st)). simplify_eq.
    apply (places_hold_same _ _ []); [by rewrite app_nil_r|done|constructor].
  - apply keeps_places_signal_get.
  - apply keeps_places_bind; [done|]. intros v.
    destruct v; simpl;
      first [apply keeps_places_ret | apply keeps_places_throw | idtac].
    intros st v st' Hr. unfold obj_get in Hr.
    destruct (heap st !! r); [|done].
    exact (keeps_places_ret (prop_get (oprops o) k) st v st' Hr).
Qed.

Lemma keeps_places_notify_with fe s :
  (forall i, keeps_places (fe s i)) -> keeps_places (notify_with fe s).
Proof.
  intros H. apply keeps_places_bind; [|intros _; apply H].
  by apply (keeps_places_modify _ [EvNotify s]); [|repeat constructor].
Qed.

Lemma keeps_places_signal_set n s prop v :
  (forall s, keeps_places (n s)) -> keeps_places (signal_set n s prop v).
Proof.
  intros H st b st' Hr. unfold signal_set in Hr.
  destruct (signals st !! s); [|done].
  destruct (String.eqb prop "value");
    [|exact (keeps_places_ret false st b st' Hr)].
  revert Hr. unfold bind, ret.
  destruct (n s (store_value s v st)) as [[] st1| |] eqn:En; [|done..].
  intros [= _ <-]. eapply places_hold_trans; [|by eapply H].
  apply (places_hold_same _ _ []); [by rewrite app_nil_r| |constructor].
  intros s'. apply listeners_of_store_value.
Qed.

Lemma keeps_places_val_set n t k v :
  (forall s, keeps_places (n s)) -> keeps_places (val_set n t k v).
Proof.
  intros H. destruct t; simpl;
    first [apply keeps_places_ret | apply keeps_places_throw | idtac].
  intros st b st' Hr. unfold obj_set in Hr.
  destruct (heap st !! r) as [o|]; [|done].
  assert (Hs : places_hold st (store_prop r k v st)).
  { apply (places_hold_same _ _ []); [by rewrite app_nil_r|done|constructor]. }
  destruct (okind o); [by simplify_eq..|].
  eapply places_hold_trans; [exact Hs|by eapply H].
Qed.

Lemma keeps_places_for_each {A} (f : A -> M unit) l :
  (forall x, keeps_places (f x)) -> keeps_places (for_each f l).
Proof.
  intros Hf. induction l as [|x l IH]; simpl; [apply keeps_places_ret|].
  apply keeps_places_bind; [apply Hf|]. intros _. apply IH.
Qed.

Lemma keeps_places_signalEffect_with call cb :
  (forall cb, keeps_places (call cb)) ->
  keeps_places (signalEffect_with call cb).
Proof.
  intros Hcall. unfold signalEffect_with. apply keeps_places_bind.
  - unfold getDependenciesFromEffect_with.
    apply keeps_places_bind.
    { by apply (keeps_places_modify _ [EvCapture cb]); [|repeat constructor]. }
    intros _. apply keeps_places_bind.
    { apply (keeps_places_modify _ []); [|constructor].
      intros st. by rewrite app_nil_r. }
    intros _. apply keeps_places_bind; [apply Hcall|]. intros _.
    apply keeps_places_bind.
    { apply (keeps_places_modify _ []); [|constructor].
      intros st. by rewrite app_nil_r. }
    intros _. apply keeps_places_bind.
    { intros st a st' Hr.
      exact (keeps_places_ret (effectDependencies st) st a st' Hr). }
    intros deps. apply keeps_places_bind.
    { apply (keeps_places_modify _ []); [|constructor].
      intros st. by rewrite app_nil_r. }
    intros _. apply keeps_places_bind.
    { by apply (keeps_places_modify _ [EvCaptured cb]); [|repeat constructor]. }
    intros _. apply keeps_places_ret.
  - intros deps. apply keeps_places_bind; [|intros _; apply keeps_places_ret].
    apply keeps_places_for_each. intros s. apply keeps_places_call_subscribe.
Qed.

Lemma keeps_places_exec_forEach prog fuel :
  (forall c, keeps_places (exec prog fuel c)) /\
  (forall s i, keeps_places (forEach prog fuel s i)).
Proof.
  induction fuel as [|f [IHe IHf]]; [split; intros; intros st a st' Hr; done|].
  split.
  - intros c. destruct c; simpl.
    + apply keeps_places_ret.
    + apply keeps_places_bind; [apply IHe|]. intros _. apply IHe.
    + apply keeps_places_bind; [apply keeps_places_eval|].
      intros _. apply keeps_places_ret.
    + apply keeps_places_bind; [apply keeps_places_eval|]. intros v.
      destruct (truthy v); apply IHe.
    + apply keeps_places_throw.
    + apply keeps_places_bind; [apply keeps_places_eval|]. intros v.
      apply keeps_places_bind.
      * apply keeps_places_signal_set. intros s'.
        apply keeps_places_notify_with. intros i. apply IHf.
      * intros [|]; [apply keeps_places_ret|apply keeps_places_throw].
    + apply keeps_places_bind; [apply keeps_places_eval|]. intros t.
      apply keeps_places_bind; [apply keeps_places_eval|]. intros v.
      apply keeps_places_val_set. intros s'.
      apply keeps_places_notify_with. intros i. apply IHf.
    + apply keeps_places_call_subscribe.
    + apply keeps_places_unsubscribe.
    + apply keeps_places_bind.
      * apply keeps_places_signalEffect_with. intros cb'.
        unfold call_with. apply keeps_places_bind; [|intros _; apply IHe].
        by apply (keeps_places_modify _ [EvCall None cb']);
          [|repeat constructor].
      * intros _. apply keeps_places_ret.
  - intros s i st a st' Hr. simpl in Hr.
    destruct (listeners_of st s !! i) as [[cb|]|];
      [| |exact (keeps_places_ret tt st a st' Hr)].
    + revert Hr. apply keeps_places_bind.
      * by apply (keeps_places_modify _ [EvCall (Some s) cb]);
          [|repeat constructor].
      * intros _. apply keeps_places_bind; [apply IHe|]. intros _. apply IHf.
    + by eapply IHf.
Qed.

(** ** A pass, listener by listener *)

Lemma NoDup_live_lookup l i j (cb : nat) :
  NoDup (live l) ->
  l !! i = Some (Some cb) -> l !! j = Some (Some cb) -> i = j.
Proof.
  revert i j. induction l as [|e l IH]; intros i j Hnd Hi Hj; [done|].
  assert (Hin : forall k, l !! k = Some (Some cb) -> cb ∈ live l).
  { intros k Hk. apply elem_of_live. by eapply list_elem_of_lookup_2. }
  destruct e as [c|]; simpl in Hnd.
  - apply NoDup_cons in Hnd as [Hc Hnd].
    destruct i as [|i], j as [|j]; simpl in Hi, Hj; simplify_eq; auto.
    + by destruct Hc; eapply Hin.
    + by destruct Hc; eapply Hin.
  - destruct i as [|i], j as [|j]; simpl in Hi, Hj; simplify_eq; auto.
Qed.

Lemma count_calls_app s cb e1 e2 :
  count_calls s cb (e1 ++ e2) = count_calls s cb e1 + count_calls s cb e2.
Proof.
  unfold count_calls. by rewrite calls_by_app, filter_app, length_app.
Qed.

Lemma count_calls_call s cb cb' :
  count_calls s cb [EvCall (Some s) cb'] = if decide (cb' = cb) then 1 else 0.
Proof.
  unfold count_calls, calls_by. simpl. rewrite bool_decide_eq_true_2 by done.
  simpl. destruct (decide (cb' = cb)).
  - by rewrite filter_cons_True.
  - by rewrite filter_cons_False.
Qed.

Lemma count_calls_none s cb evs :
  (forall cb', EvCall (Some s) cb' ∉ evs) -> count_calls s cb evs = 0.
Proof. intros H. unfold count_calls. by rewrite calls_by_nil. Qed.

Lemma place_at_next s cb j p st :
  place_at s cb j p st -> listeners_of st s !! j <> Some (Some cb) ->
  place_at s cb (S j) p st.
Proof.
  destruct p; simpl; [| |done].
  - intros (i & Hle & Hi) Hj. exists i. split; [|done].
    destruct (decide (i = j)) as [->|]; [done|lia].
  - intros (i & Hlt & Hi) _. exists i. split; [lia|done].
Qed.

(** What the body of a listener of [s], run by the pass at entry [j],
    does to the place of [cb]: an entry it appends lies ahead of the
    pass. *)
Lemma exec_place prog fuel c st st' s cb j p :
  exec prog fuel c st = Ok tt st' ->
  EvNotify s ∉ new_events st st' ->
  j < length (listeners_of st s) ->
  place_at s cb (S j) p st ->
  place_at s cb (S j) (place_after s cb p (new_events st st')) st' /\
  forall cb', EvCall (Some s) cb' ∉ new_events st st'.
Proof.
  intros Hr Hn Hj Hat.
  assert (H : Steps None st (new_events st st') st').
  { apply (sound_new_events None (exec prog fuel c)); [apply sound_exec|].
    by rewrite Hr. }
  assert (Hcalls : forall cb', EvCall (Some s) cb' ∉ new_events st st').
  { intros cb'. by apply (steps_calls _ _ _ _ H). }
  split; [|done].
  destruct (proj1 (keeps_places_exec_forEach prog fuel) c _ _ _ Hr)
    as (Hgrow & evs & Htr & Hpl).
  rewrite (new_events_app _ _ _ Htr) in *.
  destruct (Hpl s cb) as [Hin Hold]. destruct (Hgrow s) as [_ Hnew].
  specialize (Hin p (place_at_in_place _ _ _ _ _ Hat)).
  assert (Hfresh : (forall i, i < length (listeners_of st s) ->
                      listeners_of st' s !! i <> Some (Some cb)) ->
            place_after s cb p evs <> Behind ->
            place_at s cb (S j) (place_after s cb p evs) st').
  { intros Hno Hnb. destruct (place_after s cb p evs); simpl in *; [|done..].
    apply list_elem_of_lookup in Hin as [i Hi]. exists i. split; [|done].
    destruct (decide (i < length (listeners_of st s))) as [Hlt|]; [|lia].
    by destruct (Hno i Hlt). }
  destruct (decide (EvUnsub s cb ∈ evs)) as [Hu|Hu].
  - apply Hfresh; [by apply Hold|]. intros Hb.
    by destruct (place_after_Behind _ _ _ _ (Hcalls cb) Hb) as [_ ?].
  - destruct (decide (p = Out)) as [->|Hp].
    + apply Hfresh.
      * intros i Hlt Hi. destruct (Hnew i cb Hi) as [Hi'|]; [|lia].
        simpl in Hat. destruct Hat. by eapply list_elem_of_lookup_2.
      * intros Hb.
        by destruct (place_after_Behind _ _ _ _ (Hcalls cb) Hb) as [? _].
    + rewrite (place_after_quiet _ _ _ _ Hu (Hcalls cb) Hp).
      destruct p; simpl in Hat |- *; [| |done];
        destruct Hat as (i & Hi1 & Hi2); exists i; (split; [done|]);
        by apply (steps_stay _ _ _ _ H).
Qed.

(** The part of a pass from entry [j] on, when it finishes and [s] is not
    notified again: [cb] is invoked once if its entry lies ahead, less the
    turns it loses, plus the turns it gains. *)
Lemma forEach_turns prog fuel s cb j st st' p :
  forEach prog fuel s j st = Ok tt st' ->
  NoDup (live (listeners_of st s)) ->
  EvNotify s ∉ new_events st st' ->
  place_at s cb j p st ->
  count_calls s cb (new_events st st') + turns_lost s cb p (new_events st st')
  = turns_due p + turns_gained s cb p (new_events st st').
Proof.
  revert j st p.
  induction fuel as [|f IH]; intros j st p Hrun Hnd Hn Hat; [done|].
  simpl in Hrun. destruct (listeners_of st s !! j) as [[cb'|]|] eqn:Ej.
  - unfold bind at 1, modify in Hrun.
    set (st1 := emit (EvCall (Some s) cb') st) in *.
    unfold bind in Hrun.
    destruct (exec prog f (body prog cb') st1) as [[] st2|st2|] eqn:Eb;
      [|done..].
    assert (H2 : Steps None st1 (new_events st1 st2) st2).
    { apply (sound_new_events None (exec prog f (body prog cb')));
        [apply sound_exec|]. by rewrite Eb. }
    assert (H3 : Steps (Some s) st2 (new_events st2 st') st').
    { apply (sound_new_events (Some s) (forEach prog f s (S j)));
        [apply sound_forEach|]. by rewrite Hrun. }
    assert (Hev : new_events st st' =
              [EvCall (Some s) cb'] ++ new_events st1 st2 ++ new_events st2 st').
    { apply new_events_app.
      rewrite (steps_trace _ _ _ _ H3), (steps_trace _ _ _ _ H2). simpl.
      by rewrite <- !app_assoc. }
    rewrite Hev in Hn |- *.
    apply not_elem_of_app in Hn as [_ [Hn2 Hn3]%not_elem_of_app].
    pose proof (steps_nodup _ _ _ _ H2 s Hnd) as Hnd2.
    set (p1 := place_step s cb p (EvCall (Some s) cb')).
    assert (Hstep : place_at s cb (S j) p1 st /\
              (if decide (cb' = cb) then 1 else 0) + turns_due p1 =
              turns_due p).
    { unfold p1. destruct p; simpl in Hat |- *.
      - destruct (decide (cb' = cb)) as [->|Hne].
        + rewrite bool_decide_eq_true_2 by done. split; [|done].
          destruct Hat as (i & Hle & Hi).
          rewrite (NoDup_live_lookup _ _ _ _ Hnd Hi Ej) in Hi.
          exists j. split; [lia|done].
        + rewrite bool_decide_eq_false_2 by (by intros [=]).
          split; [|done].
          apply (place_at_next s cb j Ahead); [done|congruence].
      - destruct Hat as (i & Hlt & Hi). split.
        + exists i. split; [lia|done].
        + destruct (decide (cb' = cb)) as [->|]; [|done].
          pose proof (NoDup_live_lookup _ _ _ _ Hnd Hi Ej). lia.
      - split; [done|].
        destruct (decide (cb' = cb)) as [->|]; [|done].
        destruct Hat. by eapply list_elem_of_lookup_2. }
    destruct Hstep as [Hat1 Hsum].
    change (place_at s cb (S j) p1 st1) in Hat1.
    assert (Hj : j < length (listeners_of st1 s)).
    { change (listeners_of st1 s) with (listeners_of st s).
      by eapply lookup_lt_Some. }
    destruct (exec_place _ _ _ _ _ s cb j p1 Eb Hn2 Hj Hat1)
      as [Hat2 Hnone].
    pose proof (IH (S j) st2 _ Hrun Hnd2 Hn3 Hat2) as IH3.
    pose proof (turns_balance s cb p1 _ (Hnone cb)) as Hbal.
    rewrite !count_calls_app, !turns_lost_app, !turns_gained_app.
    rewrite count_calls_call.
    rewrite (count_calls_none s cb (new_events st1 st2)) by done.
    change (place_after s cb p [EvCall (Some s) cb']) with p1.
    assert (Hl1 : turns_lost s cb p [EvCall (Some s) cb'] = 0).
    { by destruct p. }
    assert (Hg1 : turns_gained s cb p [EvCall (Some s) cb'] = 0).
    { by destruct p. }
    lia.
  - apply (IH (S j) st p); try done.
    apply place_at_next; [done|congruence].
  - simplify_eq. unfold new_events. rewrite drop_all. simpl.
    destruct p; simpl in Hat |- *; try done.
    destruct Hat as (i & Hle & Hi).
    apply lookup_ge_None in Ej. apply lookup_lt_Some in Hi. lia.
Qed.

(** A pass that finishes is made of the runs of the bodies it found. *)
Lemma forEach_visits prog fuel s j st st' :
  forEach prog fuel s j st = Ok tt st' ->
  exists j', visits prog s j st j' st' /\ listeners_of st' s !! j' = None.
Proof.
  revert j st. induction fuel as [|f IH]; intros j st Hrun; [done|].
  simpl in Hrun. destruct (listeners_of st s !! j) as [[cb|]|] eqn:Ej.
  - unfold bind at 1, modify in Hrun. unfold bind in Hrun.
    destruct (exec prog f (body prog cb) (emit (EvCall (Some s) cb) st))
      as [[] st2|st2|] eqn:Eb; [|done..].
    destruct (IH _ _ Hrun) as (j' & Hv & Hend).
    exists j'. split; [|done]. by eapply visits_call.
  - destruct (IH _ _ Hrun) as (j' & Hv & Hend).
    exists j'. split; [|done]. by eapply visits_skip.
  - simplify_eq. exists j. split; [apply visits_here|done].
Qed.

(** A pass that finishes has run the body of every callback whose entry
    lay ahead and whose handle was not called. *)
Lemma forEach_runs prog fuel s cb i j st st' :
  forEach prog fuel s j st = Ok tt st' ->
  listeners_of st s !! i = Some (Some cb) ->
  j <= i ->
  EvUnsub s cb ∉ new_events st st' ->
  exists j0 sta f stb j',
    visits prog s j st j0 sta /\
    listeners_of sta s !! j0 = Some (Some cb) /\
    exec prog f (body prog cb) (emit (EvCall (Some s) cb) sta) = Ok tt stb /\
    visits prog s (S j0) stb j' st' /\
    listeners_of st' s !! j' = None.
Proof.
  revert j st. induction fuel as [|f IH]; intros j st Hrun Hi Hle Hu; [done|].
  simpl in Hrun. destruct (listeners_of st s !! j) as [[cb'|]|] eqn:Ej.
  - unfold bind at 1, modify in Hrun.
    set (st1 := emit (EvCall (Some s) cb') st) in *.
    unfold bind in Hrun.
    destruct (exec prog f (body prog cb') st1) as [[] st2|st2|] eqn:Eb;
      [|done..].
    assert (H2 : Steps None st1 (new_events st1 st2) st2).
    { apply (sound_new_events None (exec prog f (body prog cb')));
        [apply sound_exec|]. by rewrite Eb. }
    assert (H3 : Steps (Some s) st2 (new_events st2 st') st').
    { apply (sound_new_events (Some s) (forEach prog f s (S j)));
        [apply sound_forEach|]. by rewrite Hrun. }
    assert (Hev : new_events st st' =
              [EvCall (Some s) cb'] ++ new_events st1 st2 ++ new_events st2 st').
    { apply new_events_app.
      rewrite (steps_trace _ _ _ _ H3), (steps_trace _ _ _ _ H2). simpl.
      by rewrite <- !app_assoc. }
    rewrite Hev in Hu.
    apply not_elem_of_app in Hu as [_ [Hu2 Hu3]%not_elem_of_app].
    destruct (decide (i = j)) as [->|Hne].
    + rewrite Hi in Ej. simplify_eq.
      destruct (forEach_visits _ _ _ _ _ _ Hrun) as (j' & Hv & Hend).
      exists j, st, f, st2, j'. split_and!; try done. apply visits_here.
    + destruct (IH (S j) st2) as (j0 & sta & f' & stb & j' & Hv & Ha & Hex & Hw & Hend);
        [done|by apply (steps_stay _ _ _ _ H2)|lia|done|].
      exists j0, sta, f', stb, j'. split_and!; try done.
      by apply (visits_call _ _ _ _ cb' f st2).
  - destruct (decide (i = j)) as [->|Hne]; [congruence|].
    destruct (IH (S j) st) as (j0 & sta & f' & stb & j' & Hv & Ha & Hex & Hw & Hend);
      [done|done|lia|done|].
    exists j0, sta, f', stb, j'. split_and!; try done.
    by apply visits_skip.
  - apply lookup_ge_None in Ej. apply lookup_lt_Some in Hi. lia.
Qed.

(** A write to [value] that returns is the store followed by one pass. *)
Lemma write_value_split prog fuel s v st b st' :
  write prog fuel s "value" v st = Ok b st' ->
  b = true /\
  forEach prog fuel s 0 (emit (EvNotify s) (store_value s v st)) = Ok tt st' /\
  new_events st st' =
    [EvNotify s] ++ new_events (emit (EvNotify s) (store_value s v st)) st' /\
  value_of (emit (EvNotify s) (store_value s v st)) s = v.
Proof.
  intros Hw.
  destruct (write_value_valid _ _ _ _ _ _ _ Hw) as [c Hs].
  rewrite (write_value_unfold _ _ _ _ _ _ Hs) in Hw. unfold bind in Hw.
  set (st0 := emit (EvNotify s) (store_value s v st)) in *.
  destruct (forEach prog fuel s 0 st0) as [[] st1|st1|] eqn:Ef; [|done..].
  unfold ret in Hw. simplify_eq.
  assert (H1 : Steps (Some s) st0 (new_events st0 st') st').
  { apply (sound_new_events (Some s) (forEach prog fuel s 0));
      [apply sound_forEach|]. by rewrite Ef. }
  split_and!; [done|done| |].
  - apply new_events_app. rewrite (steps_trace _ _ _ _ H1). simpl.
    by rewrite <- !app_assoc.
  - unfold st0, store_value.
    change (value_of (emit ?e ?x) s) with (value_of x s).
    rewrite value_of_alter. rewrite decide_True by done. by rewrite Hs.
Qed.

Lemma notify_count_once s evs :
  notify_count s ([EvNotify s] ++ evs) = 1 -> EvNotify s ∉ evs.
Proof.
  unfold notify_count. simpl. rewrite filter_cons_True by done. simpl.
  intros H. apply notify_count_0. unfold notify_count. lia.
Qed.

(** The turns of a listener subscribed when [signal.value] is written, over
    a write that returns and notifies [s] once. *)
Lemma write_turns prog fuel s v st b st' cb :
  NoDup (live (listeners_of st s)) ->
  write prog fuel s "value" v st = Ok b st' ->
  notify_count s (new_events st st') = 1 ->
  cb ∈ live (listeners_of st s) ->
  count_calls s cb (new_events st st') +
    turns_lost s cb Ahead (new_events st st')
  = 1 + turns_gained s cb Ahead (new_events st st').
Proof.
  intros Hnd Hw Hn [i Hi]%elem_of_live%list_elem_of_lookup.
  destruct (write_value_split _ _ _ _ _ _ _ Hw) as (Hb & Hf & Hev & Hv).
  set (st0 := emit (EvNotify s) (store_value s v st)) in *.
  assert (Hl0 : listeners_of st0 s = listeners_of st s).
  { change (listeners_of st0 s) with (listeners_of (store_value s v st) s).
    apply listeners_of_store_value. }
  assert (Hn0 : EvNotify s ∉ new_events st0 st').
  { apply notify_count_once. by rewrite <- Hev. }
  rewrite Hev, count_calls_app, turns_lost_app, turns_gained_app.
  rewrite (count_calls_none s cb [EvNotify s]).
  2:{ intros cb' [?|Hin%elem_of_nil]%elem_of_cons; done. }
  change (place_after s cb Ahead [EvNotify s]) with Ahead.
  change (turns_lost s cb Ahead [EvNotify s]) with 0.
  change (turns_gained s cb Ahead [EvNotify s]) with 0.
  apply (forEach_turns _ _ _ cb 0 _ _ Ahead Hf); [by rewrite Hl0|done|].
  exists i. split; [lia|]. by rewrite Hl0.
Qed.

(** C1, as the code has it: let a write to [signal.value] return, the
    signal being notified once (no listener writes it again).  The written
    value is stored, and a listener subscribed at the moment of the write
    is invoked by the pass made before the write returns: once, less the
    turns it loses -- its handle is called while it waits for its turn, and
    its entry is skipped -- and plus the turns it gains -- it is
    subscribed again after its handle was called, and is appended behind
    the pass.  So a listener that keeps its turn is invoked exactly once,
    whatever else is subscribed during the pass, whichever other handles
    are called, and also when its own handle is called during or after its
    turn.  A listener whose handle is not called at all keeps its turn,
    has its body run and is still subscribed afterwards; when no listener
    set of the signal is touched, the listeners are invoked in
    subscription order. *)
Theorem write_notifies_each_listener_once prog fuel s v st b st' :
  NoDup (live (listeners_of st s)) ->
  write prog fuel s "value" v st = Ok b st' ->
  notify_count s (new_events st st') = 1 ->
  b = true /\
  value_of st' s = v /\
  (forall cb, cb ∈ live (listeners_of st s) ->
     count_calls s cb (new_events st st') +
       turns_lost s cb Ahead (new_events st st')
     = 1 + turns_gained s cb Ahead (new_events st st')) /\
  (forall cb, cb ∈ live (listeners_of st s) ->
     keeps_turn s cb (new_events st st') = true ->
     count_calls s cb (new_events st st') = 1) /\
  (forall cb, cb ∈ live (listeners_of st s) ->
     EvUnsub s cb ∉ new_events st st' ->
     keeps_turn s cb (new_events st st') = true /\
     runs_listener prog s cb (emit (EvNotify s) (store_value s v st)) st' /\
     cb ∈ live (listeners_of st' s)) /\
  (Forall (fun e => touches s e = false) (new_events st st') ->
     calls_by s (new_events st st') = live (listeners_of st s)) /\
  (forall fuel', fuel <= fuel' ->
     write prog fuel' s "value" v st = Ok b st').
Proof.
  intros Hnd Hw Hn.
  destruct (write_value_split _ _ _ _ _ _ _ Hw) as (Hb & Hf & Hev & Hv).
  set (st0 := emit (EvNotify s) (store_value s v st)) in *.
  assert (Hl0 : listeners_of st0 s = listeners_of st s).
  { change (listeners_of st0 s) with (listeners_of (store_value s v st) s).
    apply listeners_of_store_value. }
  assert (H1 : Steps (Some s) st0 (new_events st0 st') st').
  { apply (sound_new_events (Some s) (forEach prog fuel s 0));
      [apply sound_forEach|]. by rewrite Hf. }
  assert (Hn0 : EvNotify s ∉ new_events st0 st').
  { apply notify_count_once. by rewrite <- Hev. }
  split_and!.
  - done.
  - by rewrite (steps_value _ _ _ _ H1 s Hn0).
  - intros cb Hcb. by eapply write_turns.
  - intros cb Hcb Hk.
    pose proof (write_turns _ _ _ _ _ _ _ cb Hnd Hw Hn Hcb) as Ht.
    unfold keeps_turn in Hk. apply bool_decide_eq_true_1 in Hk as [Hl Hg].
    lia.
  - intros cb [i Hi]%elem_of_live%list_elem_of_lookup Hu. split_and!.
    + by apply keeps_turn_no_unsub.
    + rewrite Hev in Hu. apply not_elem_of_app in Hu as [_ Hu].
      apply (forEach_runs _ _ _ cb i 0 _ _ Hf); [by rewrite Hl0|lia|done].
    + apply elem_of_live. apply (list_elem_of_lookup_2 _ i).
      rewrite Hev in Hu. apply not_elem_of_app in Hu as [_ Hu].
      apply (steps_stay _ _ _ _ H1); [by rewrite Hl0|done].
  - intros Ht.
    by destruct (write_value_pass _ _ _ _ _ _ _ Hw Ht Hn) as (_ & Hc & _).
  - intros fuel' Hle. rewrite <- Hw. apply write_fuel; [done|].
    by rewrite Hw.
Qed.

Lemma write_notifies_each_listener_once_witness :
  exists st' st'',
    write leaving 6 0 "value" (VNum 5) two_listeners = Ok true st' /\
    calls_by 0 (new_events two_listeners st') = [0; 1; 2] /\
    live (listeners_of st' 0) = [1; 2] /\
    count_calls 0 0 (new_events two_listeners st') = 1 /\
    count_calls 0 1 (new_events two_listeners st') = 1 /\
    value_of st' 0 = VNum 5 /\
    write reordering 6 0 "value" (VNum 5) two_listeners = Ok true st'' /\
    turns_lost 0 1 Ahead (new_events two_listeners st'') = 1 /\
    count_calls 0 1 (new_events two_listeners st'') = 1.
Proof.
  do 2 eexists.
  destruct (write_notifies_each_listener_once leaving 6 0 (VNum 5)
              two_listeners true _
              ltac:(by_compute)
              ltac:(vm_compute; reflexivity)
              ltac:(vm_compute; reflexivity))
    as (_ & Hv & _ & Hone & _).
  destruct (write_notifies_each_listener_once reordering 6 0 (VNum 5)
              two_listeners true _
              ltac:(by_compute)
              ltac:(vm_compute; reflexivity)
              ltac:(vm_compute; reflexivity))
    as (_ & _ & Hlaw & _).
  split; [vm_compute; reflexivity|].
  split; [vm_compute; reflexivity|].
  split; [vm_compute; reflexivity|].
  split; [apply (Hone 0); [by_compute|vm_compute; reflexivity]|].
  split; [apply (Hone 1); [by_compute|vm_compute; reflexivity]|].
  split; [exact Hv|].
  split; [vm_compute; reflexivity|].
  split; [vm_compute; reflexivity|].
  specialize (Hlaw 1 ltac:(by_compute)).
  change (turns_lost 0 1 Ahead _) with 1 in Hlaw.
  change (turns_gained 0 1 Ahead _) with 1 in Hlaw.
  lia.
Defined.

(** C1 as stated fails: a listener subscribed at the moment of the write is
    not invoked when a listener invoked before it calls its unsubscribe
    handle, although the write returns. *)
Lemma write_skips_listener_unsubscribed_in_pass :
  ~ (forall b st',
       write unsubscribing 5 0 "value" (VNum 1) two_listeners = Ok b st' ->
       forall cb, cb ∈ live (listeners_of two_listeners 0) ->
         count_calls 0 cb (new_events two_listeners st') = 1).
Proof.
  intros H.
  specialize (H _ _ ltac:(vm_compute; reflexivity) 1).
  assert (Hin : 1 ∈ live (listeners_of two_listeners 0)).
  { by_compute. }
  specialize (H Hin). vm_compute in H. discriminate.
Qed.

(** ** No equality check on writes *)

Lemma store_value_twice s v w st :
  store_value s v (store_value s w st) = store_value s v st.
Proof.
  unfold store_value, set_signals. simpl. f_equal.
  by rewrite list_alter_alter_eq.
Qed.

(** C6: the [set] trap does not look at the stored value.  A write of a
    value [===] to the stored one that returns has entered the pass, and
    every listener subscribed at the moment of the write whose handle is
    not called is invoked and its body run; when the signal is notified
    once, the value stays stored and every listener that keeps its turn is
    invoked exactly once, as by a write of any other value: with any other
    value stored, the write has the same outcome.  And again: the value
    is then still [===] to the one written, and a further write of it
    that returns enters the pass and invokes the listeners once more. *)
Theorem equal_write_notifies_again prog fuel s v st b st' :
  NoDup (live (listeners_of st s)) ->
  strict_eq (value_of st s) v = true ->
  write prog fuel s "value" v st = Ok b st' ->
  b = true /\
  EvNotify s ∈ new_events st st' /\
  (forall cb, cb ∈ live (listeners_of st s) ->
     EvUnsub s cb ∉ new_events st st' ->
     EvCall (Some s) cb ∈ new_events st st' /\
     runs_listener prog s cb (emit (EvNotify s) (store_value s v st)) st') /\
  (notify_count s (new_events st st') = 1 ->
     value_of st' s = value_of st s /\
     (forall cb, cb ∈ live (listeners_of st s) ->
        keeps_turn s cb (new_events st st') = true ->
        count_calls s cb (new_events st st') = 1) /\
     (Forall (fun e => touches s e = false) (new_events st st') ->
        calls_by s (new_events st st') = live (listeners_of st s))) /\
  (forall w, write prog fuel s "value" v (store_value s w st) = Ok b st') /\
  (notify_count s (new_events st st') = 1 ->
   strict_eq (value_of st' s) v = true /\
   forall fuel2 b2 st2,
     write prog fuel2 s "value" v st' = Ok b2 st2 ->
     EvNotify s ∈ new_events st' st2 /\
     forall cb, cb ∈ live (listeners_of st' s) ->
       EvUnsub s cb ∉ new_events st' st2 ->
       EvCall (Some s) cb ∈ new_events st' st2).
Proof.
  intros Hnd Heq Hw. apply bool_decide_eq_true_1 in Heq.
  destruct (write_value_split _ _ _ _ _ _ _ Hw) as (Hb & Hf & Hev & Hv).
  set (st0 := emit (EvNotify s) (store_value s v st)) in *.
  assert (Hl0 : listeners_of st0 s = listeners_of st s).
  { change (listeners_of st0 s) with (listeners_of (store_value s v st) s).
    apply listeners_of_store_value. }
  assert (H1 : Steps (Some s) st0 (new_events st0 st') st').
  { apply (sound_new_events (Some s) (forEach prog fuel s 0));
      [apply sound_forEach|]. by rewrite Hf. }
  split_and!.
  - done.
  - rewrite Hev. apply elem_of_app. left. by apply list_elem_of_singleton.
  - intros cb [i Hi]%elem_of_live%list_elem_of_lookup Hu. split.
    + by eapply write_reaches.
    + rewrite Hev in Hu. apply not_elem_of_app in Hu as [_ Hu].
      apply (forEach_runs _ _ _ cb i 0 _ _ Hf); [by rewrite Hl0|lia|done].
  - intros Hn.
    assert (Hn0 : EvNotify s ∉ new_events st0 st').
    { apply notify_count_once. by rewrite <- Hev. }
    split_and!.
    + by rewrite (steps_value _ _ _ _ H1 s Hn0), Hv.
    + intros cb Hcb Hk.
      pose proof (write_turns _ _ _ _ _ _ _ cb Hnd Hw Hn Hcb) as Ht.
      unfold keeps_turn in Hk. apply bool_decide_eq_true_1 in Hk as [Hl Hg].
      lia.
    + intros Ht.
      by destruct (write_value_pass _ _ _ _ _ _ _ Hw Ht Hn) as (_ & Hc & _).
  - intros w. rewrite <- Hw.
    destruct (write_value_valid _ _ _ _ _ _ _ Hw) as [c Hs].
    assert (Hs' : signals (store_value s w st) !! s
                  = Some (mkCell w (listeners c))).
    { unfold store_value. simpl. rewrite list_lookup_alter, decide_True by done.
      by rewrite Hs. }
    rewrite (write_value_unfold _ _ _ _ _ _ Hs),
      (write_value_unfold _ _ _ _ _ _ Hs').
    by rewrite store_value_twice.
  - intros Hn.
    assert (Hn0 : EvNotify s ∉ new_events st0 st').
    { apply notify_count_once. by rewrite <- Hev. }
    split.
    { apply bool_decide_eq_true_2.
      by rewrite (steps_value _ _ _ _ H1 s Hn0). }
    intros fuel2 b2 st2 Hw2.
    destruct (write_value_split _ _ _ _ _ _ _ Hw2) as (_ & _ & Hev2 & _).
    split.
    + rewrite Hev2. apply elem_of_app. left. by apply list_elem_of_singleton.
    + intros cb [i Hi]%elem_of_live%list_elem_of_lookup Hu.
      by eapply write_reaches.
Qed.

Lemma equal_write_notifies_again_witness :
  exists st2 st3 st4,
    (s <- createSignal 5 (VNum 0) ;; call_subscribe s 0) initial
      = Ok tt st2 /\
    write reading 5 0 "value" (VNum 5) st2 = Ok true st3 /\
    calls_by 0 (new_events st2 st3) = [0] /\
    value_of st3 0 = VNum 5 /\
    write reading 5 0 "value" (VNum 5) st3 = Ok true st4 /\
    count_calls 0 0 (new_events st3 st4) = 1 /\
    runs_listener reading 0 0
      (emit (EvNotify 0) (store_value 0 (VNum 5) st3)) st4.
Proof.
  destruct (equal_write_notifies_again reading 5 0 (VNum 5)
              (run (write reading 5 0 "value" (VNum 5))
                 (run (s <- createSignal 5 (VNum 0) ;; call_subscribe s 0)
                    initial))
              true _
              ltac:(by_compute)
              ltac:(vm_compute; reflexivity)
              ltac:(vm_compute; reflexivity))
    as (_ & _ & Hrun & Hone & _ & _).
  do 3 eexists.
  split; [vm_compute; reflexivity|].
  split; [vm_compute; reflexivity|].
  split; [vm_compute; reflexivity|].
  split; [vm_compute; reflexivity|].
  split; [vm_compute; reflexivity|].
  split.
  - apply (Hone ltac:(vm_compute; reflexivity)); [by_compute|].
    vm_compute. reflexivity.
  - apply Hrun; by_compute.
Defined.

(** ** Unsubscribing *)

Lemma unsubscribe_unfold s cb st :
  unsubscribe s cb st =
    Ok tt (emit (EvUnsub s cb)
             (set_signals
                (alter (fun c => mkCell (value c)
                                   (listeners_delete cb (listeners c))) s)
                st)).
Proof. done. Qed.

Lemma listeners_of_unsubscribe s cb st st1 s' :
  unsubscribe s cb st = Ok tt st1 ->
  listeners_of st1 s' =
    if decide (s = s') then listeners_delete cb (listeners_of st s)
    else listeners_of st s'.
Proof.
  rewrite unsubscribe_unfold. intros [= <-].
  change (listeners_of (emit ?e ?x) s') with (listeners_of x s').
  rewrite listeners_of_alter. case_decide; [|done].
  unfold listeners_of. by destruct (signals st !! s).
Qed.

(** C7: after the handle returned by [signal.subscribe(callback)] has been
    called, [callback] is not in the listener set, and whatever client code
    runs next (any writes to the signal among it, starting right away),
    and whatever remains of a pass that was running, never has a pass of
    that signal invoke [callback], unless the code subscribes it again;
    calling the handle a second time returns normally and leaves every
    listener set and payload as it is. *)
Theorem unsubscribed_listener_never_invoked prog fuel s cb st st1 c st2 :
  unsubscribe s cb st = Ok tt st1 ->
  final (exec prog fuel c st1) = Some st2 ->
  EvSub s cb ∉ new_events st1 st2 ->
  (Some cb ∉ listeners_of st1 s) /\
  (EvCall (Some s) cb ∉ new_events st1 st2) /\
  count_calls s cb (new_events st1 st2) = 0 /\
  (forall v st3, final (write prog fuel s "value" v st1) = Some st3 ->
     EvSub s cb ∉ new_events st1 st3 ->
     count_calls s cb (new_events st1 st3) = 0) /\
  (forall i st3, final (forEach prog fuel s i st1) = Some st3 ->
     EvSub s cb ∉ new_events st1 st3 ->
     count_calls s cb (new_events st1 st3) = 0) /\
  exists st1', unsubscribe s cb st1 = Ok tt st1' /\
     (forall s', listeners_of st1' s' = listeners_of st1 s') /\
     (forall s', value_of st1' s' = value_of st1 s').
Proof.
  intros Hu Hf Hsub.
  assert (Habs : Some cb ∉ listeners_of st1 s).
  { rewrite (listeners_of_unsubscribe _ _ _ _ s Hu), decide_True by done.
    apply listeners_delete_absent. }
  pose proof (sound_new_events None _ _ _ (sound_exec prog fuel c) Hf) as H.
  destruct (steps_absent _ _ _ _ H s cb Habs Hsub) as [_ Hcall].
  split_and!; try done.
  - unfold count_calls. apply count_absent. by rewrite elem_of_calls_by.
  - intros v st3 Hf3 Hsub3.
    pose proof (sound_new_events None _ _ _
                  (sound_write prog fuel s "value" v) Hf3) as H3.
    destruct (steps_absent _ _ _ _ H3 s cb Habs Hsub3) as [_ Hcall3].
    unfold count_calls. apply count_absent. by rewrite elem_of_calls_by.
  - intros i st3 Hf3 Hsub3.
    pose proof (sound_new_events (Some s) _ _ _
                  (sound_forEach prog fuel s i) Hf3) as H3.
    destruct (steps_absent _ _ _ _ H3 s cb Habs Hsub3) as [_ Hcall3].
    unfold count_calls. apply count_absent. by rewrite elem_of_calls_by.
  - eexists. split; [apply unsubscribe_unfold|]. split.
    + intros s'.
      rewrite (listeners_of_unsubscribe s cb st1 _ s' (unsubscribe_unfold _ _ _)).
      case_decide; [subst s'|done].
      rewrite (listeners_of_unsubscribe _ _ _ _ s Hu), decide_True by done.
      apply listeners_delete_idem.
    + intros s'.
      change (value_of (emit ?e ?x) s') with (value_of x s').
      rewrite value_of_alter. case_decide; [subst s'|done].
      unfold value_of. by destruct (signals st1 !! s).
Qed.

Lemma unsubscribed_listener_never_invoked_witness :
  exists st1 st2,
    unsubscribe 0 1 two_listeners = Ok tt st1 /\
    exec reading 5 (CSigSet 0 "value" (ELit (LVal (VNum 7)))) st1
      = Ok tt st2 /\
    calls_by 0 (new_events st1 st2) = [0] /\
    count_calls 0 1 (new_events st1 st2) = 0.
Proof.
  do 2 eexists.
  destruct (unsubscribed_listener_never_invoked reading 5 0 1 two_listeners
              _ (CSigSet 0 "value" (ELit (LVal (VNum 7)))) _
              ltac:(vm_compute; reflexivity)
              ltac:(vm_compute; reflexivity)
              ltac:(by_compute))
    as (_ & _ & Hcount & _).
  split; [vm_compute; reflexivity|].
  split; [vm_compute; reflexivity|].
  split; [vm_compute; reflexivity|exact Hcount].
Defined.

(** ** Effects *)

Lemma call_subscribe_ok s cb st :
  s < length (signals st) ->
  exists st', call_subscribe s cb st = Ok tt st' /\
    length (signals st') = length (signals st) /\
    forall s', listeners_of st' s' =
      if decide (s = s') then listeners_add cb (listeners_of st s)
      else listeners_of st s'.
Proof.
  intros Hlt. destruct (lookup_lt_is_Some_2 _ _ Hlt) as [c Hc].
  unfold call_subscribe, bind, signal_get. rewrite Hc.
  eexists. split; [reflexivity|]. split.
  - simpl. apply length_alter.
  - intros s'.
    change (listeners_of (emit ?e ?x) s') with (listeners_of x s').
    rewrite listeners_of_alter. simpl. case_decide; [|done].
    unfold listeners_of. by rewrite Hc.
Qed.

Lemma for_each_subscribe cb deps st :
  (forall s, s ∈ deps -> s < length (signals st)) ->
  exists st', for_each (fun s => call_subscribe s cb) deps st = Ok tt st' /\
    (forall s, s ∈ deps -> Some cb ∈ listeners_of st' s) /\
    (forall s, s ∉ deps -> listeners_of st' s = listeners_of st s) /\
    (forall s, Some cb ∈ listeners_of st s -> Some cb ∈ listeners_of st' s).
Proof.
  revert st. induction deps as [|s0 deps IH]; intros st Hv.
  - exists st. split_and!; try done. intros s Hs. by apply elem_of_nil in Hs.
  - destruct (call_subscribe_ok s0 cb st) as (sta & Hc & Hlen & Hl).
    { apply Hv. left. }
    destruct (IH sta) as (st' & Hf & Hin & Hout & Hmono).
    { intros s Hs. rewrite Hlen. apply Hv. by right. }
    exists st'. split_and!.
    + simpl. unfold bind. by rewrite Hc.
    + intros s [->|Hs]%elem_of_cons; [|by apply Hin].
      apply Hmono. rewrite Hl, decide_True by done.
      apply elem_of_listeners_add. by left.
    + intros s [Hne Hs]%not_elem_of_cons.
      rewrite (Hout s Hs), Hl. by rewrite decide_False.
    + intros s Hs. apply Hmono. rewrite Hl. case_decide; [subst|done].
      apply elem_of_listeners_add. by right.
Qed.

(** C3, as the code has it: let [signalEffect(cb)] be called with the
    working set empty, and let the first run of [cb] return without a
    capture of its own.  Then [signalEffect] returns the signals the run
    read, and from then on: a write to one of them that returns invokes
    [cb] again, whatever the value, as long as [cb] was not unsubscribed
    from it; a signal the first run did not read, and that [cb] was not
    subscribed to, never has its passes invoke [cb] and never gets [cb] as
    a listener, whatever later runs of [cb] read, unless client code
    subscribes it; so the signals [cb] listens to stay those of the first
    run until client code calls [subscribe] or a handle. *)
Theorem effect_reruns_on_first_run_dependencies prog fuel cb st stb :
  effectDependencies st = [] ->
  exec prog fuel (body prog cb) (capture_start cb st) = Ok tt stb ->
  Forall (fun e => is_capture e = false)
         (new_events (capture_start cb st) stb) ->
  exists st1,
    signalEffect prog fuel cb st
      = Ok (nub (reads (new_events (capture_start cb st) stb))) st1 /\
    (forall s f1 c stm f2 v b st2,
       EvGet s "value" ∈ new_events (capture_start cb st) stb ->
       final (exec prog f1 c st1) = Some stm ->
       EvUnsub s cb ∉ new_events st1 stm ->
       write prog f2 s "value" v stm = Ok b st2 ->
       EvUnsub s cb ∉ new_events stm st2 ->
       EvCall (Some s) cb ∈ new_events stm st2) /\
    (forall s f1 c st2,
       EvGet s "value" ∉ new_events (capture_start cb st) stb ->
       Some cb ∉ listeners_of stb s ->
       final (exec prog f1 c st1) = Some st2 ->
       EvSub s cb ∉ new_events st1 st2 ->
       (EvCall (Some s) cb ∉ new_events st1 st2) /\
       (Some cb ∉ listeners_of st2 s)) /\
    (forall s f1 c st2,
       final (exec prog f1 c st1) = Some st2 ->
       EvSub s cb ∉ new_events st1 st2 ->
       EvUnsub s cb ∉ new_events st1 st2 ->
       (Some cb ∈ listeners_of st2 s <->
        EvGet s "value" ∈ new_events (capture_start cb st) stb \/
        Some cb ∈ listeners_of stb s)) /\
    recorder_idle st1 /\
    (forall fuel', fuel <= fuel' ->
       signalEffect prog fuel' cb st
         = Ok (nub (reads (new_events (capture_start cb st) stb))) st1).
Proof.
  intros Hempty Hrun Hnc.
  destruct (capture_records _ _ _ _ _ Hrun Hnc) as (Hget & Hval).
  rewrite Hempty, record_reads_idle in Hget.
  set (deps := nub (reads (new_events (capture_start cb st) stb))) in *.
  assert (Hin_deps : forall s, s ∈ deps <->
            EvGet s "value" ∈ new_events (capture_start cb st) stb).
  { intros s. unfold deps. by rewrite elem_of_nub, elem_of_reads. }
  destruct (for_each_subscribe cb deps (capture_end cb stb))
    as (st1 & Hsub & Hin & Hout & Hmono).
  { intros s Hs. by apply Hval, Hin_deps. }
  assert (Hse : signalEffect prog fuel cb st = Ok deps st1).
  { rewrite signalEffect_unfold, Hget. unfold bind. by rewrite Hsub. }
  exists st1. split_and!.
  - done.
  - intros s f1 c stm f2 v b st2 Hread Hf Hu1 Hw Hu2.
    assert (Hs : s ∈ deps) by (by apply Hin_deps).
    apply Hin, list_elem_of_lookup in Hs as [i Hi].
    pose proof (sound_new_events None _ _ _ (sound_exec prog f1 c) Hf) as H.
    pose proof (steps_stay _ _ _ _ H s cb i Hi Hu1) as Hi'.
    by eapply write_reaches.
  - intros s f1 c st2 Hread Habs Hf Hs.
    assert (Hs' : s ∉ deps) by (by rewrite Hin_deps).
    pose proof (sound_new_events None _ _ _ (sound_exec prog f1 c) Hf) as H.
    destruct (steps_absent _ _ _ _ H s cb) as [Hl Hc]; [|done|done].
    by rewrite (Hout s Hs').
  - intros s f1 c st2 Hf Hs Hu.
    pose proof (sound_new_events None _ _ _ (sound_exec prog f1 c) Hf) as H.
    assert (Hstay : Some cb ∈ listeners_of st1 s ->
                    Some cb ∈ listeners_of st2 s).
    { intros [i Hi]%list_elem_of_lookup.
      eapply list_elem_of_lookup_2. by apply (steps_stay _ _ _ _ H). }
    split.
    + intros Hin2. destruct (decide (s ∈ deps)) as [Hd|Hd].
      { left. by apply Hin_deps. }
      right. destruct (decide (Some cb ∈ listeners_of stb s)); [done|].
      destruct (steps_absent _ _ _ _ H s cb) as [Hl _]; [|done|done].
      by rewrite (Hout s Hd).
    + intros [Hread|Hprior]; apply Hstay.
      * by apply Hin, Hin_deps.
      * by apply Hmono.
  - apply (keeps_idle_for_each (fun s => call_subscribe s cb) deps
             (fun s => keeps_idle_call_subscribe s cb) _ _ _ Hsub).
    by split.
  - intros fuel' Hle. rewrite <- Hse. apply signalEffect_fuel; [done|].
    by rewrite Hse.
Qed.

Lemma effect_reruns_on_first_run_dependencies_witness :
  exists st1 st2 st3,
    signalEffect switching 6 0 three_signals = Ok [0; 1] st1 /\
    write switching 6 0 "value" (VNum 1) st1 = Ok true st2 /\
    EvCall (Some 0) 0 ∈ new_events st1 st2 /\
    EvGet 2 "value" ∈ new_events st1 st2 /\
    exec switching 6
      (CSeq (CSigSet 0 "value" (ELit (LVal (VNum 1))))
            (CSigSet 2 "value" (ELit (LVal (VNum 9))))) st1 = Ok tt st3 /\
    EvNotify 2 ∈ new_events st1 st3 /\
    EvCall (Some 2) 0 ∉ new_events st1 st3.
Proof.
  destruct (effect_reruns_on_first_run_dependencies switching 6 0
              three_signals _ eq_refl
              ltac:(vm_compute; reflexivity)
              ltac:(vm_compute; repeat constructor))
    as (st1 & Hse & Hre & Hno & _ & _).
  vm_compute in Hse.
  exists st1. injection Hse as <-. do 2 eexists.
  split; [vm_compute; reflexivity|].
  split; [vm_compute; reflexivity|].
  split.
  { apply (Hre 0 1 CSkip _ 6 (VNum 1) true).
    - by_compute.
    - vm_compute. reflexivity.
    - by_compute.
    - vm_compute. reflexivity.
    - by_compute. }
  split; [by_compute|].
  split; [vm_compute; reflexivity|].
  split; [by_compute|].
  refine (proj1 (Hno 2 6
            (CSeq (CSigSet 0 "value" (ELit (LVal (VNum 1))))
                  (CSigSet 2 "value" (ELit (LVal (VNum 9))))) _ _ _ _ _)).
  - by_compute.
  - by_compute.
  - vm_compute. reflexivity.
  - by_compute.
Defined.

(** C3 as stated fails: an effect registered after a capture that threw is
    subscribed to what that capture left in the working set as well; a
    write to such a signal, which the first run of the effect did not read,
    invokes the effect. *)
Lemma write_to_unread_signal_reruns_effect :
  ~ (forall deps st1 b st2,
       signalEffect throwing_then_reading 5 1
         (run (signalEffect throwing_then_reading 5 0) three_signals)
         = Ok deps st1 ->
       EvGet 0 "value"
         ∉ new_events
             (run (signalEffect throwing_then_reading 5 0) three_signals)
             st1 ->
       write throwing_then_reading 5 0 "value" (VNum 1) st1 = Ok b st2 ->
       EvCall (Some 0) 1 ∉ new_events st1 st2).
Proof.
  intros H.
  specialize (H _ _ _ _ ltac:(vm_compute; reflexivity) ltac:(by_compute)
                ltac:(vm_compute; reflexivity)).
  revert H. by_compute.
Qed.

(** ** Objects added after construction *)

Lemma value_of_Some st s r :
  value_of st s = VRef r ->
  exists c, signals st !! s = Some c /\ value c = VRef r.
Proof.
  unfold value_of. destruct (signals st !! s) as [c|]; [eauto|done].
Qed.

Lemma eval_signal_value s st c :
  signals st !! s = Some c ->
  eval (ESigGet s "value") st = Ok (value c) (record_get s "value" st).
Proof. intros Hs. simpl. unfold signal_get. by rewrite Hs. Qed.

Lemma eval_literal l st :
  eval (ELit l) st =
    Ok (alloc_lit l (heap st)).1 (set_heap (alloc_lit l (heap st)).2 st).
Proof. simpl. by destruct (alloc_lit l (heap st)). Qed.

Lemma alloc_object_literal fields h :
  exists ps h1,
    alloc_lit (LObj fields) h = (VRef (length h1), h1 ++ [mkObj KPlain ps]) /\
    h `prefix_of` h1.
Proof.
  simpl.
  assert (Hp : h `prefix_of` (alloc_fields alloc_lit fields [] h).2).
  { apply alloc_fields_prefix, Forall_forall.
    intros kl _ h'. apply alloc_lit_prefix. }
  destruct (alloc_fields alloc_lit fields [] h) as [ps h1].
  by exists ps, h1.
Qed.

Lemma exec_assign prog f t k rhs st :
  exec prog (S f) (CAssign t k rhs) st =
    match eval t st with
    | Ok tv sta =>
        match eval rhs sta with
        | Ok v stb => val_set (notify_with (forEach prog f)) tv k v stb
        | Throw stb => Throw stb
        | Diverge => Diverge
        end
    | Throw sta => Throw sta
    | Diverge => Diverge
    end.
Proof. done. Qed.

Lemma heap_store_prop r k v st r' :
  heap (store_prop r k v st) !! r' =
    if decide (r = r') then
      (fun o => mkObj (okind o) (prop_set (oprops o) k v)) <$> heap st !! r
    else heap st !! r'.
Proof. simpl. apply list_lookup_alter. Qed.

(** C9: let [signal.value] be an object wrapped at construction, and let
    [signal.value.newKey = { ... }] return with the new object still in
    place.  That assignment notified the signal, but the object it stored
    is a plain one: a later [signal.value.newKey.k = v] returns, stores
    [v], and records nothing but the read of [signal.value]: no
    notification takes place and no listener set changes. *)
Theorem key_added_later_is_not_wrapped
    prog fuel s root o newKey fields k v st st1 o1 :
  value_of st s = VRef root ->
  heap st !! root = Some o ->
  okind o = KProxy s ->
  exec prog fuel (CAssign (ESigGet s "value") newKey (ELit (LObj fields))) st
    = Ok tt st1 ->
  value_of st1 s = VRef root ->
  heap st1 !! root = Some o1 ->
  prop_get (oprops o1) newKey = (alloc_lit (LObj fields) (heap st)).1 ->
  EvNotify s ∈ new_events st st1 /\
  exists r' o',
    (alloc_lit (LObj fields) (heap st)).1 = VRef r' /\
    heap st1 !! r' = Some o' /\ okind o' = KPlain /\
    forall f, exists st2,
      exec prog (S f)
           (CAssign (EField (ESigGet s "value") newKey) k (ELit (LVal v))) st1
        = Ok tt st2 /\
      new_events st1 st2 = [EvGet s "value"] /\
      (forall s', listeners_of st2 s' = listeners_of st1 s') /\
      exists o2, heap st2 !! r' = Some o2 /\ prop_get (oprops o2) k = v.
Proof.
  intros Hv Ho Hk Hexec Hv1 Ho1 Hp1.
  destruct fuel as [|f0]; [done|].
  destruct (value_of_Some _ _ _ Hv) as (c & Hc & Hcv).
  destruct (alloc_object_literal fields (heap st)) as (ps & h1 & Ha & Hpre).
  rewrite exec_assign, (eval_signal_value _ _ _ Hc), eval_literal in Hexec.
  rewrite heap_record_get, Ha, Hcv in Hexec. cbn [fst snd] in Hexec.
  rewrite Ha in Hp1. cbn [fst] in Hp1.
  set (stb := set_heap _ (record_get s "value" st)) in *.
  assert (Hroot : heap stb !! root = Some o).
  { simpl. apply lookup_app_l_Some. by eapply prefix_lookup_Some. }
  unfold val_set, obj_set in Hexec. rewrite Hroot, Hk in Hexec.
  unfold notify_with, bind, modify in Hexec.
  set (stc := emit (EvNotify s) (store_prop root newKey (VRef (length h1)) stb))
    in *.
  assert (H1 : Steps (Some s) stc (new_events stc st1) st1).
  { apply (sound_new_events (Some s) (forEach prog f0 s 0));
      [apply sound_forEach|]. by rewrite Hexec. }
  split.
  { assert (Hev : new_events st st1 =
       [EvGet s "value"; EvNotify s] ++ new_events stc st1).
    { apply new_events_app. rewrite (steps_trace _ _ _ _ H1). simpl.
      rewrite trace_record_get. by rewrite <- !app_assoc. }
    rewrite Hev. apply elem_of_app. left. right. left. }
  assert (Hnew : heap stc !! length h1 =
                 Some (mkObj KPlain ps)).
  { change (heap stc) with (heap (store_prop root newKey (VRef (length h1)) stb)).
    rewrite heap_store_prop.
    assert (root < length h1).
    { apply lookup_lt_Some in Ho. apply prefix_length in Hpre. lia. }
    rewrite decide_False by lia. simpl. by apply list_lookup_middle. }
  destruct (steps_heap _ _ _ _ H1 _ _ Hnew) as (o' & Ho' & Hk').
  exists (length h1), o'. split_and!; [by rewrite Ha|done|done|].
  intros f. destruct (value_of_Some _ _ _ Hv1) as (c1 & Hc1 & Hcv1).
  eexists. split_and!.
  - rewrite exec_assign. simpl eval. unfold bind.
    unfold signal_get at 1. rewrite Hc1.
    unfold target_get. simpl String.eqb. cbv iota. rewrite Hcv1.
    unfold val_get, obj_get. rewrite heap_record_get, Ho1, Hp1.
    unfold val_set, obj_set.
    change (heap (set_heap ?h _)) with h.
    rewrite heap_record_get, Ho', Hk'. reflexivity.
  - apply new_events_app. simpl. by rewrite trace_record_get.
  - intros s'. unfold listeners_of. simpl. by rewrite signals_record_get.
  - rewrite heap_store_prop, decide_True by done.
    change (heap (set_heap ?h _)) with h.
    rewrite Ho'. simpl. eexists. split; [done|].
    apply prop_get_set_eq.
Qed.

Lemma key_added_later_is_not_wrapped_witness :
  exists st1 st2,
    exec reading 5
      (CAssign (ESigGet 0 "value") "newKey" (ELit (LObj [("a", LVal (VNum 1))])))
      object_signal = Ok tt st1 /\
    calls_by 0 (new_events object_signal st1) = [0] /\
    exec reading 5
      (CAssign (EField (ESigGet 0 "value") "newKey") "a" (ELit (LVal (VNum 2))))
      st1 = Ok tt st2 /\
    new_events st1 st2 = [EvGet 0 "value"].
Proof.
  eexists.
  destruct (key_added_later_is_not_wrapped reading 5 0 1
              (mkObj (KProxy 0) [("count", VNum 0)]) "newKey"
              [("a", LVal (VNum 1))] "a" (VNum 2) object_signal _ _
              eq_refl eq_refl eq_refl
              ltac:(vm_compute; reflexivity)
              ltac:(vm_compute; reflexivity)
              ltac:(vm_compute; reflexivity)
              ltac:(vm_compute; reflexivity))
    as (_ & r' & o' & _ & _ & _ & Hex).
  destruct (Hex 4) as (st2 & He & Hev & _).
  exists st2.
  split; [vm_compute; reflexivity|].
  split; [vm_compute; reflexivity|].
  split; [exact He|exact Hev].
Defined.

(** ** Wrapping at construction *)

Lemma as_object_Some h v r :
  as_object h v = Some r <->
  v = VRef r /\ exists o, h !! r = Some o /\ okind o <> KArray.
Proof.
  unfold as_object. split.
  - destruct v as [| | | | |r'|]; try done.
    destruct (h !! r') as [o|] eqn:E; [|done].
    destruct (okind o) eqn:Ek; intros; simplify_eq;
      (split; [done|]; exists o; split; [done|congruence]).
  - intros (-> & o & Ho & Hk). rewrite Ho. by destruct (okind o).
Qed.

Lemma as_object_prefix h h1 v r :
  h `prefix_of` h1 -> as_object h v = Some r -> as_object h1 v = Some r.
Proof.
  intros Hp (-> & o & Ho & Hk)%as_object_Some. apply as_object_Some.
  split; [done|]. exists o. split; [|done]. by eapply prefix_lookup_Some.
Qed.

Lemma as_object_array h ra oa :
  h !! ra = Some oa -> okind oa = KArray -> as_object h (VRef ra) = None.
Proof. intros Ho Hk. unfold as_object. by rewrite Ho, Hk. Qed.

Lemma walk_prefix h h1 r path rn :
  h `prefix_of` h1 -> walk h r path = Some rn -> walk h1 r path = Some rn.
Proof.
  intros Hp. revert r. induction path as [|key rest IH]; intros r; [done|].
  simpl. destruct (h !! r) as [o|] eqn:Ho; [|done].
  rewrite (prefix_lookup_Some _ _ _ _ Ho Hp).
  destruct (as_object h (prop_get (oprops o) key)) as [r'|] eqn:Ea; [|done].
  rewrite (as_object_prefix _ _ _ _ Hp Ea). apply IH.
Qed.

Lemma prop_get_keys ps k : prop_get ps k <> VUndef -> k ∈ keys_of ps.
Proof.
  unfold keys_of. rewrite elem_of_remove_dups.
  induction ps as [|[k' v] ps IH]; simpl; [done|].
  destruct (String.eqb k k') eqn:E.
  - apply String.eqb_eq in E. subst. intros _. left.
  - intros H. right. by apply IH.
Qed.

(** What the [reduce] leaves under each key. *)
Lemma reduce_keys_spec wrap obj keys :
  (forall r h r' h', wrap r h = Some (r', h') -> h `prefix_of` h') ->
  forall acc h acc' h',
    reduce_keys wrap obj keys acc h = Some (acc', h') ->
    h `prefix_of` h' /\
    forall key,
      (key ∈ keys ->
         (forall rc, as_object h (prop_get obj key) = Some rc ->
            exists rc' ha hb, h `prefix_of` ha /\ wrap rc ha = Some (rc', hb) /\
              hb `prefix_of` h' /\ prop_get acc' key = VRef rc') /\
         (forall ra oa, prop_get obj key = VRef ra -> h !! ra = Some oa ->
            okind oa = KArray -> prop_get acc' key = VRef ra)) /\
      (key ∉ keys -> prop_get acc' key = prop_get acc key).
Proof.
  intros Hwrap. induction keys as [|k0 keys IH]; intros acc h acc' h' Hred.
  - simpl in Hred. simplify_eq. split; [done|]. intros key. split.
    + intros Hin. by apply elem_of_nil in Hin.
    + done.
  - simpl in Hred.
    destruct (as_object h (prop_get obj k0)) as [r0|] eqn:Ea.
    + destruct (wrap r0 h) as [[r0' h0]|] eqn:Ew; [|done].
      pose proof (Hwrap _ _ _ _ Ew) as Hp0.
      destruct (IH _ _ _ _ Hred) as [Hp1 Hkeys].
      split; [by etrans|]. intros key.
      destruct (Hkeys key) as [Hin Hout]. split.
      * intros Hk. destruct (decide (key ∈ keys)) as [Hk'|Hk'].
        -- destruct (Hin Hk') as [Hobj Harr]. split.
           ++ intros rc Hrc.
              destruct (Hobj rc (as_object_prefix _ _ _ _ Hp0 Hrc))
                as (rc' & ha & hb & ? & ? & ? & ?).
              exists rc', ha, hb. split_and!; [by etrans|done..].
           ++ intros ra oa Hv Hra Hka. apply (Harr ra oa Hv); [|done].
              by eapply prefix_lookup_Some.
        -- apply elem_of_cons in Hk as [->|]; [|done].
           rewrite (Hout Hk'), prop_get_set_eq. split.
           ++ intros rc Hrc. rewrite Ea in Hrc. simplify_eq.
              exists r0', h, h0. by split_and!.
           ++ intros ra oa Hv Hra Hka. rewrite Hv in Ea.
              by rewrite (as_object_array _ _ _ Hra Hka) in Ea.
      * intros [Hne Hk]%not_elem_of_cons.
        by rewrite (Hout Hk), prop_get_set_ne.
    + destruct (IH _ _ _ _ Hred) as [Hp1 Hkeys].
      split; [done|]. intros key.
      destruct (Hkeys key) as [Hin Hout]. split.
      * intros Hk. destruct (decide (key ∈ keys)) as [Hk'|Hk'].
        -- by apply Hin.
        -- apply elem_of_cons in Hk as [->|]; [|done].
           rewrite (Hout Hk'), prop_get_set_eq. split.
           ++ intros rc Hrc. by rewrite Ea in Hrc.
           ++ done.
      * intros [Hne Hk]%not_elem_of_cons.
        by rewrite (Hout Hk), prop_get_set_ne.
Qed.

Lemma recursiveProxy_prefix fuel s r h r' h' :
  recursiveProxy fuel s r h = Some (r', h') -> h `prefix_of` h'.
Proof.
  revert r h r' h'. induction fuel as [|f IH]; intros r h r' h' Hr; [done|].
  simpl in Hr. destruct (h !! r) as [o|]; [|done].
  destruct (reduce_keys _ _ _ _ _) as [[parsed hm]|] eqn:Er; [|done].
  simplify_eq.
  destruct (reduce_keys_spec _ _ _ IH _ _ _ _ Er) as [Hp _].
  etrans; [exact Hp|]. by apply prefix_app_r.
Qed.

Lemma walk_valid h r path rn o :
  h !! r = Some o -> walk h r path = Some rn -> is_Some (h !! rn).
Proof.
  revert r o. induction path as [|key rest IH]; intros r o Ho Hw.
  - simpl in Hw. simplify_eq. eauto.
  - simpl in Hw. rewrite Ho in Hw.
    destruct (as_object h (prop_get (oprops o) key)) as [rc|] eqn:Ea; [|done].
    apply as_object_Some in Ea as (_ & oc & Hoc & _). by eapply IH.
Qed.

(** Every object reached from [obj] through non-array objects has a proxy
    of the signal at the same path of the result, with the same arrays
    under the same keys. *)
Lemma recursiveProxy_mirror fuel s r h r' h' :
  recursiveProxy fuel s r h = Some (r', h') ->
  forall path rn, walk h r path = Some rn ->
    exists rn' on on',
      walk h' r' path = Some rn' /\
      h !! rn = Some on /\ h' !! rn' = Some on' /\
      okind on' = KProxy s /\
      forall key ra oa, prop_get (oprops on) key = VRef ra ->
        h !! ra = Some oa -> okind oa = KArray ->
        prop_get (oprops on') key = VRef ra.
Proof.
  revert r h r' h'. induction fuel as [|f IH]; intros r h r' h' Hr; [done|].
  simpl in Hr. destruct (h !! r) as [o|] eqn:Ho; [|done].
  destruct (reduce_keys _ _ _ _ _) as [[parsed hm]|] eqn:Er; [|done].
  simplify_eq.
  destruct (reduce_keys_spec _ _ _
              (fun r h r' h' => recursiveProxy_prefix f s r h r' h')
              _ _ _ _ Er) as [Hp Hkeys].
  assert (Hroot : (hm ++ [mkObj (KProxy s) parsed]) !! length hm
                  = Some (mkObj (KProxy s) parsed))
    by (by apply list_lookup_middle).
  intros [|key rest] rn Hw.
  - simpl in Hw. simplify_eq.
    exists (length hm), o, (mkObj (KProxy s) parsed).
    split_and!; try done.
    intros key ra oa Hv Hra Hka. simpl.
    destruct (Hkeys key) as [Hin _].
    destruct Hin as [_ Harr].
    { apply prop_get_keys. by rewrite Hv. }
    by apply (Harr ra oa).
  - simpl in Hw. rewrite Ho in Hw.
    destruct (as_object h (prop_get (oprops o) key)) as [rc|] eqn:Ea; [|done].
    destruct (Hkeys key) as [Hin _].
    destruct Hin as [Hobj _].
    { apply prop_get_keys. apply as_object_Some in Ea as [-> _]. done. }
    destruct (Hobj rc Ea) as (rc' & ha & hb & Hpa & Hwrap & Hpb & Hget).
    destruct (IH _ _ _ _ Hwrap rest rn (walk_prefix _ _ _ _ _ Hpa Hw))
      as (rn' & on & on' & Hw' & Hon & Hon' & Hk' & Harr').
    destruct (IH _ _ _ _ Hwrap [] rc eq_refl)
      as (rc0 & oc & oc' & Hwc & _ & Hoc' & Hkc & _).
    simpl in Hwc. injection Hwc as Heq. subst rc0.
    assert (Hpf : hb `prefix_of` hm ++ [mkObj (KProxy s) parsed])
      by (etrans; [exact Hpb|by apply prefix_app_r]).
    pose proof Ea as (_ & oc0 & Hoc0 & _)%as_object_Some.
    destruct (walk_valid _ _ _ _ _ Hoc0 Hw) as [on0 Hon0].
    pose proof (prefix_lookup_Some _ _ _ _ Hon0 Hpa) as Hon0'.
    rewrite Hon in Hon0'. injection Hon0' as Heq. subst on0.
    exists rn', on, on'. split_and!; try done.
    + simpl. rewrite Hroot. simpl. rewrite Hget.
      rewrite (proj2 (as_object_Some _ (VRef rc') rc')).
      * by eapply walk_prefix.
      * split; [done|]. exists oc'. split; [by eapply prefix_lookup_Some|].
        by rewrite Hkc.
    + by eapply prefix_lookup_Some.
    + intros key' ra oa Hv Hra Hka. apply (Harr' key' ra oa Hv); [|done].
      by eapply prefix_lookup_Some.
Qed.

(** [createSignal] returns on every object that does not contain itself,
    given fuel above its depth. *)
Lemma recursiveProxy_returns h rank s :
  closed_heap h -> ranked h rank ->
  forall fuel r h', h `prefix_of` h' -> r < length h -> rank r < fuel ->
    is_Some (recursiveProxy fuel s r h').
Proof.
  intros Hclosed Hranked.
  induction fuel as [|f IH]; intros r h' Hp Hr Hrank; [lia|].
  destruct (lookup_lt_is_Some_2 _ _ Hr) as [o Ho].
  simpl. rewrite (prefix_lookup_Some _ _ _ _ Ho Hp).
  assert (Hred : forall keys acc h1, h `prefix_of` h1 ->
            is_Some (reduce_keys (recursiveProxy f s) (oprops o) keys acc h1)).
  { induction keys as [|key keys IHk]; intros acc h1 Hp1; simpl; [eauto|].
    destruct (as_object h1 (prop_get (oprops o) key)) as [rc|] eqn:Ea;
      [|by apply IHk].
    pose proof Ea as (Hv & oc & Hoc & Hkc)%as_object_Some.
    assert (Hlt : rc < length h) by (by eapply Hclosed).
    assert (Hrc : rank rc < rank r).
    { apply (Hranked r o key rc Ho). apply as_object_Some.
      split; [done|]. exists oc. split; [|done].
      destruct (lookup_lt_is_Some_2 _ _ Hlt) as [oc' Hoc'].
      rewrite Hoc'. f_equal.
      pose proof (prefix_lookup_Some _ _ _ _ Hoc' Hp1). congruence. }
    destruct (IH rc h1 Hp1 Hlt ltac:(lia)) as [[rc' h2] Hw].
    rewrite Hw. apply IHk. etrans; [exact Hp1|].
    by eapply recursiveProxy_prefix. }
  destruct (Hred (keys_of (oprops o)) [] h' Hp) as [[parsed hm] ->]. eauto.
Qed.

Lemma createSignal_returns fuel v r rank st :
  as_object (heap st) v = Some r ->
  closed_heap (heap st) -> ranked (heap st) rank -> rank r < fuel ->
  exists st1, createSignal fuel v st = Ok (length (signals st)) st1.
Proof.
  intros Ha Hc Hr Hrank. unfold createSignal. rewrite Ha.
  destruct (recursiveProxy_returns _ rank (length (signals st)) Hc Hr
              fuel r (heap st)) as [[r' h'] ->]; [done| |done|eauto].
  apply as_object_Some in Ha as (_ & o & Ho & _). by eapply lookup_lt_Some.
Qed.

Lemma createSignal_object fuel r st s st1 :
  as_object (heap st) (VRef r) = Some r ->
  createSignal fuel (VRef r) st = Ok s st1 ->
  exists root h',
    recursiveProxy fuel s r (heap st) = Some (root, h') /\
    s = length (signals st) /\
    signals st1 = signals st ++ [mkCell (VRef root) []] /\
    heap st1 = h'.
Proof.
  intros Ha Hc. unfold createSignal in Hc. rewrite Ha in Hc.
  destruct (recursiveProxy _ _ _ _) as [[root h']|] eqn:Er; [|done].
  simplify_eq. by exists root, h'.
Qed.

Lemma write_prop_proxy prog fuel r k v st o s :
  heap st !! r = Some o -> okind o = KProxy s ->
  write_prop prog fuel r k v st
    = notifyListeners prog fuel s (store_prop r k v st).
Proof. intros Ho Hk. unfold write_prop, obj_set. by rewrite Ho, Hk. Qed.

Lemma write_prop_array prog fuel r k v st o :
  heap st !! r = Some o -> okind o = KArray ->
  write_prop prog fuel r k v st = Ok tt (store_prop r k v st).
Proof. intros Ho Hk. unfold write_prop, obj_set. by rewrite Ho, Hk. Qed.

(** C4: let a signal be created from a plain non-array object, and let any
    client code run afterwards.  Every object reached from the initial
    value through nested non-array objects has, at the same path under
    [signal.value], a proxy of the signal; assigning to any property of
    that proxy runs [notifyListeners] of the signal after the store, which
    is what assigning to [signal.value] runs, over the same listener sets.
    An array found under a key of such an object is stored under the same
    key as it is, and assigning to a property of any array stores and
    records nothing: no notification. *)
Theorem nested_write_notifies_like_value_write
    prog fuel0 r0 st s st1 path rn on fuel1 c st2 :
  as_object (heap st) (VRef r0) = Some r0 ->
  createSignal fuel0 (VRef r0) st = Ok s st1 ->
  walk (heap st) r0 path = Some rn ->
  heap st !! rn = Some on ->
  final (exec prog fuel1 c st1) = Some st2 ->
  exists root rn' on' o2,
    value_of st1 s = VRef root /\
    walk (heap st1) root path = Some rn' /\
    heap st1 !! rn' = Some on' /\
    heap st2 !! rn' = Some o2 /\ okind o2 = KProxy s /\
    (forall fuel k v w,
       write_prop prog fuel rn' k v st2
         = notifyListeners prog fuel s (store_prop rn' k v st2) /\
       write prog fuel s "value" w st2
         = (notifyListeners prog fuel s ;; ret true) (store_value s w st2) /\
       forall s', listeners_of (store_prop rn' k v st2) s'
                  = listeners_of (store_value s w st2) s') /\
    (forall key ra oa,
       prop_get (oprops on) key = VRef ra ->
       heap st !! ra = Some oa -> okind oa = KArray ->
       prop_get (oprops on') key = VRef ra /\
       exists oa2, heap st2 !! ra = Some oa2 /\ okind oa2 = KArray /\
         forall fuel i v,
           write_prop prog fuel ra i v st2 = Ok tt (store_prop ra i v st2) /\
           new_events st2 (store_prop ra i v st2) = []) /\
    (forall ra oa fuel i v,
       heap st2 !! ra = Some oa -> okind oa = KArray ->
       write_prop prog fuel ra i v st2 = Ok tt (store_prop ra i v st2)).
Proof.
  intros Ha Hc Hw Hon Hf.
  destruct (createSignal_object _ _ _ _ _ Ha Hc)
    as (root & h' & Hr & Hs & Hsig & Hheap).
  destruct (recursiveProxy_mirror _ _ _ _ _ _ Hr path rn Hw)
    as (rn' & on0 & on' & Hw' & Hon0 & Hon' & Hk' & Harr).
  rewrite Hon in Hon0. injection Hon0 as Heq. subst on0.
  pose proof (recursiveProxy_prefix _ _ _ _ _ _ Hr) as Hpre.
  pose proof (sound_new_events None _ _ _ (sound_exec prog fuel1 c) Hf) as H.
  rewrite <- Hheap in Hw', Hon', Hpre.
  destruct (steps_heap _ _ _ _ H _ _ Hon') as (o2 & Ho2 & Hk2).
  assert (Hs1 : signals st1 !! s = Some (mkCell (VRef root) [])).
  { rewrite Hsig, Hs. by apply list_lookup_middle. }
  assert (Hs2 : is_Some (signals st2 !! s)).
  { apply lookup_lt_is_Some. rewrite (steps_signals _ _ _ _ H).
    by eapply lookup_lt_Some. }
  exists root, rn', on', o2. split_and!; try done.
  - unfold value_of. by rewrite Hs1.
  - congruence.
  - intros fuel k v w. split_and!.
    + eapply write_prop_proxy; [done|congruence].
    + destruct Hs2 as [c2 Hc2]. unfold write, signal_set. by rewrite Hc2.
    + intros s'. rewrite listeners_of_store_value. done.
  - intros key ra oa Hv Hra Hka. split; [by eapply Harr|].
    pose proof (prefix_lookup_Some _ _ _ _ Hra Hpre) as Hra1.
    destruct (steps_heap _ _ _ _ H _ _ Hra1) as (oa2 & Hoa2 & Hka2).
    exists oa2. split_and!; [done|congruence|].
    intros fuel i v. split.
    + eapply write_prop_array; [done|congruence].
    + unfold new_events. simpl. apply drop_all.
  - intros ra oa fuel i v Hra Hka. by eapply write_prop_array.
Qed.

Lemma nested_write_notifies_like_value_write_witness :
  exists st1 st2,
    createSignal 5 (VRef 2) nested_heap = Ok 0 st1 /\
    walk (heap st1) 4 ["inner"] = Some 3 /\
    exec reading 5 (CSubscribe 0 0) st1 = Ok tt st2 /\
    write_prop reading 5 3 "count" (VNum 1) st2
      = notifyListeners reading 5 0 (store_prop 3 "count" (VNum 1) st2) /\
    write_prop reading 5 1 "0" (VNum 7) st2
      = Ok tt (store_prop 1 "0" (VNum 7) st2).
Proof.
  do 2 eexists.
  destruct (nested_write_notifies_like_value_write reading 5 2 nested_heap 0 _
              ["inner"] 0 _ 5 (CSubscribe 0 0) _
              eq_refl
              ltac:(vm_compute; reflexivity)
              eq_refl eq_refl
              ltac:(vm_compute; reflexivity))
    as (root & rn' & on' & o2 & Hroot & Hwalk & _ & _ & _ & Hobj & _ & _).
  vm_compute in Hroot. injection Hroot as <-.
  vm_compute in Hwalk. injection Hwalk as <-.
  destruct (Hobj 5 "count" (VNum 1) VUndef) as (Hwp & _).
  destruct (nested_write_notifies_like_value_write reading 5 2 nested_heap 0 _
              [] 2 _ 5 (CSubscribe 0 0) _
              eq_refl
              ltac:(vm_compute; reflexivity)
              eq_refl eq_refl
              ltac:(vm_compute; reflexivity))
    as (root2 & rn2 & on2 & o22 & _ & _ & _ & _ & _ & _ & Harr & _).
  destruct (Harr "items" 1 _ eq_refl eq_refl eq_refl)
    as (_ & oa2 & _ & _ & Hwa).
  destruct (Hwa 5 "0" (VNum 7)) as (Hwa' & _).
  split; [vm_compute; reflexivity|].
  split; [vm_compute; reflexivity|].
  split; [vm_compute; reflexivity|].
  split; [exact Hwp|exact Hwa'].
Defined.

(** * Further properties *)

(** ** Objects that contain themselves *)

Lemma walk_app h r p1 p2 :
  walk h r (p1 ++ p2) =
    match walk h r p1 with
    | Some r1 => walk h r1 p2
    | None => None
    end.
Proof.
  revert r. induction p1 as [|key rest IH]; intros r; [done|].
  simpl. destruct (h !! r) as [o|]; [|done].
  destruct (as_object h (prop_get (oprops o) key)) as [r'|]; [|done].
  apply IH.
Qed.

(** The [reduce] does not return when wrapping the object under one of the
    keys does not. *)
Lemma reduce_keys_stuck wrap obj key rc h0 :
  (forall r h r' h', wrap r h = Some (r', h') -> h `prefix_of` h') ->
  as_object h0 (prop_get obj key) = Some rc ->
  (forall h, h0 `prefix_of` h -> wrap rc h = None) ->
  forall keys acc h, key ∈ keys -> h0 `prefix_of` h ->
    reduce_keys wrap obj keys acc h = None.
Proof.
  intros Hwrap Ha Hstuck.
  induction keys as [|k0 keys IH]; intros acc h Hin Hp.
  - by apply elem_of_nil in Hin.
  - simpl. destruct (decide (k0 = key)) as [->|Hne].
    + rewrite (as_object_prefix _ _ _ _ Hp Ha). by rewrite Hstuck.
    + apply elem_of_cons in Hin as [?|Hin]; [congruence|].
      destruct (as_object h (prop_get obj k0)) as [r0|]; [|by apply IH].
      destruct (wrap r0 h) as [[r0' h1]|] eqn:Ew; [|done].
      apply IH; [done|]. etrans; [exact Hp|]. by eapply Hwrap.
Qed.

Lemma recursiveProxy_cycle s fuel :
  forall r h path, path <> [] -> walk h r path = Some r ->
    recursiveProxy fuel s r h = None.
Proof.
  induction fuel as [|f IH]; intros r h path Hne Hw; [done|].
  destruct path as [|key rest]; [done|].
  simpl in Hw |- *. destruct (h !! r) as [o|] eqn:Ho; [|done].
  destruct (as_object h (prop_get (oprops o) key)) as [rc|] eqn:Ea; [|done].
  rewrite (reduce_keys_stuck (recursiveProxy f s) (oprops o) key rc h); try done.
  - intros. by eapply recursiveProxy_prefix.
  - intros h1 Hp. apply (IH rc h1 (rest ++ [key])).
    + by destruct rest.
    + rewrite walk_app, (walk_prefix _ _ _ _ _ Hp Hw). simpl.
      rewrite (prefix_lookup_Some _ _ _ _ Ho Hp).
      by rewrite (as_object_prefix _ _ _ _ Hp Ea).
  - apply prop_get_keys. apply as_object_Some in Ea as [-> _]. done.
Qed.

(** X1: [createSignal] never returns on an object that reaches itself through
    its non-array object fields: whatever the depth allowed to the
    recursion of [recursiveProxy], it is used up. *)
Theorem createSignal_diverges_on_cyclic_object fuel r path st :
  path <> [] ->
  walk (heap st) r path = Some r ->
  createSignal fuel (VRef r) st = Diverge.
Proof.
  intros Hne Hw. unfold createSignal.
  destruct (as_object (heap st) (VRef r)) as [r0|] eqn:Ea.
  - apply as_object_Some in Ea as [[= <-] _].
    by rewrite (recursiveProxy_cycle _ _ _ _ path Hne Hw).
  - exfalso. destruct path as [|key rest] using rev_ind; [done|].
    clear IHrest. rewrite walk_app in Hw.
    destruct (walk (heap st) r rest) as [r1|]; [|done].
    simpl in Hw. destruct (heap st !! r1) as [o1|]; [|done].
    destruct (as_object (heap st) (prop_get (oprops o1) key)) as [r2|] eqn:E2;
      [|done].
    simplify_eq. pose proof E2 as [Hv _]%as_object_Some.
    rewrite Hv in E2. congruence.
Qed.

Lemma createSignal_diverges_on_cyclic_object_witness :
  createSignal 1000 (VRef 0) cyclic_heap = Diverge.
Proof.
  apply (createSignal_diverges_on_cyclic_object 1000 0 ["self"] cyclic_heap).
  - discriminate.
  - reflexivity.
Defined.
(** ** The payload is a copy *)

Lemma prop_set_fresh ps k v :
  k ∉ map fst ps -> prop_set ps k v = ps ++ [(k, v)].
Proof.
  induction ps as [|[k' v'] ps IH]; intros Hk; [done|].
  simpl in Hk |- *. apply not_elem_of_cons in Hk as [Hne Hk].
  destruct (String.eqb k k') eqn:E.
  - by apply String.eqb_eq in E.
  - by rewrite IH.
Qed.

Lemma remove_dups_NoDup (l : list string) : NoDup l -> remove_dups l = l.
Proof.
  induction 1 as [|x l Hx Hnd IH]; [done|].
  simpl. destruct (decide_rel _ _ _); [done|]. by rewrite IH.
Qed.

(** The [reduce] visits the keys in order and copies what is not a
    reference. *)
Lemma reduce_keys_copy wrap obj keys :
  forall acc h acc' h',
    reduce_keys wrap obj keys acc h = Some (acc', h') ->
    NoDup keys -> (forall k, k ∈ keys -> k ∉ map fst acc) ->
    map fst acc' = map fst acc ++ keys /\
    forall key, (forall r, prop_get obj key <> VRef r) ->
      key ∈ keys -> prop_get acc' key = prop_get obj key.
Proof.
  induction keys as [|k0 keys IH]; intros acc h acc' h' Hred Hnd Hfresh.
  - simpl in Hred. simplify_eq. split; [by rewrite app_nil_r|].
    intros key _ Hin. by apply elem_of_nil in Hin.
  - apply NoDup_cons in Hnd as [Hk0 Hnd]. simpl in Hred.
    assert (Hset : forall v, map fst (prop_set acc k0 v) = map fst acc ++ [k0]).
    { intros v. rewrite prop_set_fresh; [by rewrite map_app|].
      apply Hfresh. left. }
    assert (Hfresh' : forall v k, k ∈ keys -> k ∉ map fst (prop_set acc k0 v)).
    { intros v k Hk. rewrite Hset. intros [Hin|Hin]%elem_of_app.
      - by apply (Hfresh k); [right|].
      - apply list_elem_of_singleton in Hin. by subst. }
    assert (Hkeep : forall v acc1 h1 h2,
              reduce_keys wrap obj keys (prop_set acc k0 v) h1 = Some (acc1, h2) ->
              prop_get acc1 k0 = v).
    { intros v acc1 h1 h2 Hr.
      assert (Hgen : forall ks a a1 ha hb,
                reduce_keys wrap obj ks a ha = Some (a1, hb) ->
                k0 ∉ ks -> prop_get a1 k0 = prop_get a k0).
      { induction ks as [|k1 ks IHks]; intros a a1 ha hb Hr1 Hn1.
        - simpl in Hr1. by simplify_eq.
        - apply not_elem_of_cons in Hn1 as [Hne Hn1]. simpl in Hr1.
          destruct (as_object ha (prop_get obj k1)) as [r1|].
          + destruct (wrap r1 ha) as [[r1' h1']|]; [|done].
            rewrite (IHks _ _ _ _ Hr1 Hn1). by apply prop_get_set_ne.
          + rewrite (IHks _ _ _ _ Hr1 Hn1). by apply prop_get_set_ne. }
      rewrite (Hgen _ _ _ _ _ Hr Hk0). apply prop_get_set_eq. }
    destruct (as_object h (prop_get obj k0)) as [r0|] eqn:Ea.
    + destruct (wrap r0 h) as [[r0' h0]|] eqn:Ew; [|done].
      destruct (IH _ _ _ _ Hred Hnd (Hfresh' _)) as [Hkeys Hcopy].
      split; [by rewrite Hkeys, Hset, <- app_assoc|].
      intros key Hprim [->|Hin]%elem_of_cons; [|by apply Hcopy].
      apply as_object_Some in Ea as [Hv _]. by destruct (Hprim r0).
    + destruct (IH _ _ _ _ Hred Hnd (Hfresh' _)) as [Hkeys Hcopy].
      split; [by rewrite Hkeys, Hset, <- app_assoc|].
      intros key Hprim [->|Hin]%elem_of_cons; [|by apply Hcopy].
      by eapply Hkeep.
Qed.

Lemma prop_get_absent ps k : k ∉ map fst ps -> prop_get ps k = VUndef.
Proof.
  induction ps as [|[k' v] ps IH]; intros Hk; [done|].
  simpl in Hk |- *. apply not_elem_of_cons in Hk as [Hne Hk].
  destruct (String.eqb k k') eqn:E; [by apply String.eqb_eq in E|by apply IH].
Qed.

(** The proxy [recursiveProxy] returns is the last object allocated; its
    target has the keys of [obj], in order, and what [obj] holds under them,
    references apart. *)
Lemma recursiveProxy_root fuel s r h r' h' :
  recursiveProxy fuel s r h = Some (r', h') ->
  exists o parsed,
    h !! r = Some o /\
    h' !! r' = Some (mkObj (KProxy s) parsed) /\
    length h <= r' /\
    keys_of parsed = keys_of (oprops o) /\
    forall key, (forall rc, prop_get (oprops o) key <> VRef rc) ->
      prop_get parsed key = prop_get (oprops o) key.
Proof.
  destruct fuel as [|f]; [done|]. simpl. intros Hr.
  destruct (h !! r) as [o|] eqn:Ho; [|done].
  destruct (reduce_keys _ _ _ _ _) as [[parsed hm]|] eqn:Er; [|done].
  simplify_eq. exists o, parsed.
  destruct (reduce_keys_spec _ _ _
              (fun r h r' h' => recursiveProxy_prefix f s r h r' h')
              _ _ _ _ Er) as [Hp _].
  destruct (reduce_keys_copy _ _ _ _ _ _ _ Er) as [Hkeys Hcopy].
  { apply NoDup_remove_dups. }
  { intros k _ Hin. by apply elem_of_nil in Hin. }
  simpl in Hkeys. split_and!; try done.
  - by apply list_lookup_middle.
  - by apply prefix_length.
  - unfold keys_of at 1. rewrite Hkeys. apply remove_dups_NoDup.
    apply NoDup_remove_dups.
  - intros key Hprim.
    destruct (decide (key ∈ keys_of (oprops o))) as [Hin|Hout]; [by apply Hcopy|].
    rewrite prop_get_absent by (by rewrite Hkeys).
    symmetry. apply prop_get_absent. intros Hin. apply Hout.
    unfold keys_of. by apply elem_of_remove_dups.
Qed.

(** Every object reached from [obj] is the argument of one of the calls of
    [recursiveProxy], whose result sits at the same path of the result. *)
Lemma recursiveProxy_node fuel s r h r' h' :
  recursiveProxy fuel s r h = Some (r', h') ->
  forall path rn, walk h r path = Some rn ->
    exists rn' f ha hb,
      walk h' r' path = Some rn' /\
      h `prefix_of` ha /\ recursiveProxy f s rn ha = Some (rn', hb) /\
      hb `prefix_of` h'.
Proof.
  revert r h r' h'. induction fuel as [|f IH]; intros r h r' h' Hr; [done|].
  intros [|key rest] rn Hw.
  - simpl in Hw. simplify_eq. by exists r', (S f), h, h'.
  - pose proof Hr as Hr0. simpl in Hr.
    destruct (h !! r) as [o|] eqn:Ho; [|done].
    destruct (reduce_keys _ _ _ _ _) as [[parsed hm]|] eqn:Er; [|done].
    simplify_eq.
    destruct (reduce_keys_spec _ _ _
                (fun r h r' h' => recursiveProxy_prefix f s r h r' h')
                _ _ _ _ Er) as [Hp Hkeys].
    simpl in Hw. rewrite Ho in Hw.
    destruct (as_object h (prop_get (oprops o) key)) as [rc|] eqn:Ea; [|done].
    destruct (Hkeys key) as [Hin _].
    destruct Hin as [Hobj _].
    { apply prop_get_keys. apply as_object_Some in Ea as [-> _]. done. }
    destruct (Hobj rc Ea) as (rc' & ha & hb & Hpa & Hwrap & Hpb & Hget).
    destruct (IH _ _ _ _ Hwrap rest rn (walk_prefix _ _ _ _ _ Hpa Hw))
      as (rn' & f' & ha' & hb' & Hw' & Hpa' & Hcall & Hpb').
    destruct (recursiveProxy_root _ _ _ _ _ _ Hwrap)
      as (oc & pc & _ & Hrc' & _).
    assert (Hpf : hb `prefix_of` hm ++ [mkObj (KProxy s) parsed])
      by (etrans; [exact Hpb|by apply prefix_app_r]).
    exists rn', f', ha', hb'. split_and!.
    + simpl. rewrite list_lookup_middle by done. simpl. rewrite Hget.
      rewrite (proj2 (as_object_Some _ (VRef rc') rc')).
      * by eapply walk_prefix.
      * split; [done|]. eexists. split; [by eapply prefix_lookup_Some|done].
    + by etrans.
    + done.
    + by etrans.
Qed.

(** X2: [createSignal(obj)] builds the payload beside [obj]: at every path
    through nested non-array objects the payload has a new object with the
    same keys, in the same order, holding the same primitives. *)
Theorem createSignal_mirrors_fields fuel r st s st1 path rn on :
  as_object (heap st) (VRef r) = Some r ->
  createSignal fuel (VRef r) st = Ok s st1 ->
  walk (heap st) r path = Some rn ->
  heap st !! rn = Some on ->
  exists root rn' on',
    value_of st1 s = VRef root /\
    walk (heap st1) root path = Some rn' /\
    heap st1 !! rn' = Some on' /\
    length (heap st) <= rn' /\
    keys_of (oprops on') = keys_of (oprops on) /\
    forall key, (forall rc, prop_get (oprops on) key <> VRef rc) ->
      prop_get (oprops on') key = prop_get (oprops on) key.
Proof.
  intros Ha Hc Hw Hon.
  destruct (createSignal_object _ _ _ _ _ Ha Hc)
    as (root & h' & Hr & Hs & Hsig & Hheap).
  destruct (recursiveProxy_node _ _ _ _ _ _ Hr path rn Hw)
    as (rn' & f & ha & hb & Hw' & Hpa & Hcall & Hpb).
  destruct (recursiveProxy_root _ _ _ _ _ _ Hcall)
    as (o & parsed & Ho & Hrn' & Hlen & Hkeys & Hcopy).
  rewrite (prefix_lookup_Some _ _ _ _ Hon Hpa) in Ho. injection Ho as <-.
  exists root, rn', (mkObj (KProxy s) parsed). rewrite Hheap.
  split_and!; try done.
  - unfold value_of. rewrite Hsig, Hs. by rewrite list_lookup_middle.
  - by eapply prefix_lookup_Some.
  - apply prefix_length in Hpa. lia.
Qed.

Lemma createSignal_mirrors_fields_witness :
  exists st1,
    createSignal 5 (VRef 2) nested_heap = Ok 0 st1 /\
    value_of st1 0 = VRef 4 /\
    walk (heap st1) 4 ["inner"] = Some 3 /\
    exists on', heap st1 !! 3 = Some on' /\
      prop_get (oprops on') "count" = VNum 0.
Proof.
  eexists. split; [vm_compute; reflexivity|].
  destruct (createSignal_mirrors_fields 5 2 nested_heap 0 _ ["inner"] 0 _
              eq_refl ltac:(vm_compute; reflexivity) eq_refl eq_refl)
    as (root & rn' & on' & Hroot & Hwalk & Hon' & _ & _ & Hcopy).
  vm_compute in Hroot. injection Hroot as <-.
  vm_compute in Hwalk. injection Hwalk as <-.
  split; [reflexivity|]. split; [reflexivity|].
  exists on'. split; [exact Hon'|].
  rewrite (Hcopy "count"); [reflexivity|]. intros rc. discriminate.
Defined.
Lemma write_prop_plain prog fuel r k v st o :
  heap st !! r = Some o -> okind o = KPlain ->
  write_prop prog fuel r k v st = Ok tt (store_prop r k v st).
Proof. intros Ho Hk. unfold write_prop, obj_set. by rewrite Ho, Hk. Qed.

(** X3: [createSignal(obj)] changes no object that exists, [obj] included.
    [signal.value] is a new object, and so is what it holds at every path
    of keys that leads through non-array objects; a later assignment to a
    field of [obj] stores in [obj] alone, notifies nobody and changes none
    of these new objects.  Arrays are not among them: an array is shared
    between [obj] and the payload, with all it holds. *)
Theorem write_to_initial_object_is_not_seen prog fuel0 r o st s st1 :
  heap st !! r = Some o ->
  okind o = KPlain ->
  createSignal fuel0 (VRef r) st = Ok s st1 ->
  exists root,
    value_of st1 s = VRef root /\
    length (heap st) <= root /\
    heap st `prefix_of` heap st1 /\
    forall fuel k v,
      write_prop prog fuel r k v st1 = Ok tt (store_prop r k v st1) /\
      new_events st1 (store_prop r k v st1) = [] /\
      signals (store_prop r k v st1) = signals st1 /\
      forall path rn, walk (heap st) r path = Some rn ->
        exists rn', walk (heap st1) root path = Some rn' /\
          length (heap st) <= rn' /\
          heap (store_prop r k v st1) !! rn' = heap st1 !! rn'.
Proof.
  intros Ho Hk Hc.
  assert (Ha : as_object (heap st) (VRef r) = Some r).
  { apply as_object_Some. split; [done|]. exists o. split; [done|]. by rewrite Hk. }
  destruct (createSignal_object _ _ _ _ _ Ha Hc)
    as (root & h' & Hr & Hs & Hsig & Hheap).
  pose proof (recursiveProxy_prefix _ _ _ _ _ _ Hr) as Hpre.
  rewrite <- Hheap in Hpre.
  assert (Hroot : value_of st1 s = VRef root).
  { unfold value_of. rewrite Hsig, Hs. by rewrite list_lookup_middle. }
  destruct (recursiveProxy_root _ _ _ _ _ _ Hr) as (_ & _ & _ & _ & Hlen & _).
  exists root. split_and!; try done.
  intros fuel k v.
  pose proof (prefix_lookup_Some _ _ _ _ Ho Hpre) as Ho1.
  split_and!.
  - by eapply write_prop_plain.
  - unfold new_events. simpl. apply drop_all.
  - done.
  - intros path rn Hw.
    destruct (recursiveProxy_node _ _ _ _ _ _ Hr path rn Hw)
      as (rn' & f & ha & hb & Hw' & Hpa & Hcall & _).
    destruct (recursiveProxy_root _ _ _ _ _ _ Hcall)
      as (_ & _ & _ & _ & Hlen' & _).
    apply prefix_length in Hpa.
    exists rn'. split_and!; [by rewrite Hheap|lia|].
    rewrite heap_store_prop. rewrite decide_False; [done|].
    apply lookup_lt_Some in Ho. lia.
Qed.

Lemma write_to_initial_object_is_not_seen_witness :
  exists st1,
    createSignal 5 (VRef 2) nested_heap = Ok 0 st1 /\
    value_of st1 0 = VRef 4 /\
    write_prop [] 5 2 "inner" (VNum 7) st1
      = Ok tt (store_prop 2 "inner" (VNum 7) st1) /\
    heap (store_prop 2 "inner" (VNum 7) st1) !! 4 = heap st1 !! 4.
Proof.
  eexists. split; [vm_compute; reflexivity|].
  destruct (write_to_initial_object_is_not_seen [] 5 2 _ nested_heap 0 _
              eq_refl eq_refl ltac:(vm_compute; reflexivity))
    as (root & Hroot & _ & _ & Hw).
  vm_compute in Hroot. injection Hroot as <-.
  destruct (Hw 5 "inner" (VNum 7)) as (Hwrite & _ & _ & Hsame).
  split; [reflexivity|]. split; [exact Hwrite|].
  destruct (Hsame [] 2 eq_refl) as (rn' & Hwalk & _ & Heq).
  vm_compute in Hwalk. injection Hwalk as <-. exact Heq.
Defined.

(** ** A payload installed by assignment *)

(** X4: The [set] trap of the signal stores what it is given: an object
    assigned to [signal.value] is not wrapped by [recursiveProxy].  When the
    write has returned with the object in place, assigning to a field of
    [signal.value] stores and notifies nobody. *)
Theorem assigned_object_is_not_wrapped prog fuel s r o st b st1 :
  heap st !! r = Some o ->
  okind o = KPlain ->
  write prog fuel s "value" (VRef r) st = Ok b st1 ->
  notify_count s (new_events st st1) = 1 ->
  value_of st1 s = VRef r /\
  exists o1, heap st1 !! r = Some o1 /\ okind o1 = KPlain /\
    forall f k v, exists st2,
      exec prog (S f) (CAssign (ESigGet s "value") k (ELit (LVal v))) st1
        = Ok tt st2 /\
      new_events st1 st2 = [EvGet s "value"] /\
      (exists o2, heap st2 !! r = Some o2 /\ prop_get (oprops o2) k = v).
Proof.
  intros Ho Hk Hw Hn.
  pose proof (sound_new_events None _ _ _ (sound_write prog fuel s "value"
                (VRef r)) ltac:(by rewrite Hw)) as H.
  destruct (steps_heap _ _ _ _ H _ _ Ho) as (o1 & Ho1 & Hk1).
  assert (Hv : value_of st1 s = VRef r).
  { destruct (write_value_valid _ _ _ _ _ _ _ Hw) as [c Hs].
    rewrite (write_value_unfold _ _ _ _ _ _ Hs) in Hw. unfold bind in Hw.
    set (st0 := emit (EvNotify s) (store_value s (VRef r) st)) in *.
    destruct (forEach prog fuel s 0 st0) as [[] st'|st'|] eqn:Ef; [|done..].
    unfold ret in Hw. simplify_eq.
    assert (H1 : Steps (Some s) st0 (new_events st0 st1) st1).
    { apply (sound_new_events (Some s) (forEach prog fuel s 0));
        [apply sound_forEach|]. by rewrite Ef. }
    assert (Hev : new_events st st1 = [EvNotify s] ++ new_events st0 st1).
    { apply new_events_app. rewrite (steps_trace _ _ _ _ H1). simpl.
      by rewrite <- !app_assoc. }
    rewrite Hev in Hn. unfold notify_count in Hn. simpl in Hn.
    rewrite filter_cons_True in Hn by done. simpl in Hn.
    rewrite (steps_value _ _ _ _ H1 s).
    - unfold st0, store_value.
      change (value_of (emit ?e ?x) s) with (value_of x s).
      rewrite value_of_alter. rewrite decide_True by done. by rewrite Hs.
    - apply notify_count_0. unfold notify_count. lia. }
  split; [done|]. exists o1. split_and!; [done|congruence|].
  intros f k v. destruct (value_of_Some _ _ _ Hv) as (c1 & Hc1 & Hcv1).
  eexists. split_and!.
  - rewrite exec_assign, (eval_signal_value _ _ _ Hc1), eval_literal.
    simpl alloc_lit. cbn [fst snd]. rewrite Hcv1.
    unfold val_set, obj_set.
    change (heap (set_heap ?h _)) with h.
    rewrite heap_record_get, Ho1, Hk1, Hk. reflexivity.
  - apply new_events_app. simpl. by rewrite trace_record_get.
  - rewrite heap_store_prop, decide_True by done.
    change (heap (set_heap ?h _)) with h.
    rewrite ?heap_record_get, Ho1. simpl. eexists. split; [done|].
    apply prop_get_set_eq.
Qed.

Lemma assigned_object_is_not_wrapped_witness :
  exists st1 st2,
    write reading 5 0 "value" (VRef 0) object_signal = Ok true st1 /\
    calls_by 0 (new_events object_signal st1) = [0] /\
    exec reading 5
      (CAssign (ESigGet 0 "value") "count" (ELit (LVal (VNum 2)))) st1
      = Ok tt st2 /\
    new_events st1 st2 = [EvGet 0 "value"].
Proof.
  eexists.
  destruct (assigned_object_is_not_wrapped reading 5 0 0 _ object_signal
              true _ eq_refl eq_refl
              ltac:(vm_compute; reflexivity)
              ltac:(vm_compute; reflexivity))
    as (_ & o1 & _ & _ & Hex).
  destruct (Hex 4 "count" (VNum 2)) as (st2 & He & Hev & _).
  exists st2.
  split; [vm_compute; reflexivity|].
  split; [vm_compute; reflexivity|].
  split; [exact He|exact Hev].
Defined.
(** ** Listeners subscribed during a pass *)

(** A pass that finishes has invoked every callback its set holds at the
    end, from the entry it started at. *)
Lemma forEach_covers prog fuel s cb i j st st' :
  forEach prog fuel s j st = Ok tt st' ->
  listeners_of st' s !! i = Some (Some cb) ->
  j <= i ->
  EvCall (Some s) cb ∈ new_events st st'.
Proof.
  revert j st. induction fuel as [|f IH]; intros j st Hrun Hi Hle; [done|].
  pose proof (proj2 (keeps_entries_exec_forEach prog (S f)) s j _ _ _ Hrun s)
    as [_ Hgrow].
  simpl in Hrun. destruct (listeners_of st s !! j) as [[cb'|]|] eqn:Ej.
  - unfold bind at 1, modify in Hrun.
    set (st1 := emit (EvCall (Some s) cb') st) in *.
    unfold bind in Hrun.
    destruct (exec prog f (body prog cb') st1) as [[] st2|st2|] eqn:Eb;
      [|done..].
    assert (H2 : Steps None st1 (new_events st1 st2) st2).
    { apply (sound_new_events None (exec prog f (body prog cb')));
        [apply sound_exec|]. by rewrite Eb. }
    assert (H3 : Steps (Some s) st2 (new_events st2 st') st').
    { apply (sound_new_events (Some s) (forEach prog f s (S j)));
        [apply sound_forEach|]. by rewrite Hrun. }
    assert (Hev : new_events st st' =
              [EvCall (Some s) cb'] ++ new_events st1 st2 ++ new_events st2 st').
    { apply new_events_app.
      rewrite (steps_trace _ _ _ _ H3), (steps_trace _ _ _ _ H2). simpl.
      by rewrite <- !app_assoc. }
    rewrite Hev. destruct (decide (i = j)) as [->|Hne].
    + destruct (Hgrow j cb Hi) as [Hj|Hj].
      * rewrite Hj in Ej. simplify_eq. apply elem_of_app. left.
        by apply list_elem_of_singleton.
      * apply lookup_lt_Some in Ej. lia.
    + apply elem_of_app. right. apply elem_of_app. right.
      apply (IH (S j) st2); [done|done|lia].
  - destruct (decide (i = j)) as [->|Hne].
    + destruct (Hgrow j cb Hi) as [Hj|Hj]; [congruence|].
      apply lookup_lt_Some in Ej. lia.
    + apply (IH (S j) st); [done|done|lia].
  - simplify_eq. apply lookup_ge_None in Ej. apply lookup_lt_Some in Hi. lia.
Qed.

(** X5: When a write to [signal.value] returns, every callback that is then in
    the listener set of the signal has been invoked by the write: those
    subscribed before it and still subscribed, and those a listener
    subscribed while the pass was running. *)
Theorem write_invokes_every_listener_left prog fuel s v st b st' cb :
  write prog fuel s "value" v st = Ok b st' ->
  cb ∈ live (listeners_of st' s) ->
  EvCall (Some s) cb ∈ new_events st st'.
Proof.
  intros Hw Hcb.
  destruct (write_value_valid _ _ _ _ _ _ _ Hw) as [c Hs].
  rewrite (write_value_unfold _ _ _ _ _ _ Hs) in Hw. unfold bind in Hw.
  set (st0 := emit (EvNotify s) (store_value s v st)) in *.
  destruct (forEach prog fuel s 0 st0) as [[] st1|st1|] eqn:Ef; [|done..].
  unfold ret in Hw. simplify_eq.
  assert (H1 : Steps (Some s) st0 (new_events st0 st') st').
  { apply (sound_new_events (Some s) (forEach prog fuel s 0));
      [apply sound_forEach|]. by rewrite Ef. }
  assert (Hev : new_events st st' = [EvNotify s] ++ new_events st0 st').
  { apply new_events_app. rewrite (steps_trace _ _ _ _ H1). simpl.
    by rewrite <- !app_assoc. }
  rewrite Hev. apply elem_of_app. right.
  apply elem_of_live, list_elem_of_lookup in Hcb as [i Hi].
  apply (forEach_covers _ _ _ _ i 0 _ _ Ef Hi). lia.
Qed.

Lemma write_invokes_every_listener_left_witness :
  exists st',
    write subscribing 5 0 "value" (VNum 1)
          (run (s <- createSignal 1 (VNum 0) ;; call_subscribe s 0) initial)
      = Ok true st' /\
    EvCall (Some 0) 1
      ∈ new_events
          (run (s <- createSignal 1 (VNum 0) ;; call_subscribe s 0) initial) st'.
Proof.
  eexists. split; [vm_compute; reflexivity|].
  apply (write_invokes_every_listener_left subscribing 5 0 (VNum 1) _ true).
  - vm_compute. reflexivity.
  - by_compute.
Defined.
(** ** A listener that throws *)

(** A pass that a listener ends by throwing: the listeners before it were
    invoked, in order, it was invoked, and those after it were not. *)
Lemma forEach_throws prog fuel s i st st' :
  forEach prog fuel s i st = Throw st' ->
  Forall (fun e => touches s e = false) (new_events st st') ->
  EvNotify s ∉ new_events st st' ->
  exists before cb after,
    live (drop i (listeners_of st s)) = before ++ cb :: after /\
    calls_by s (new_events st st') = before ++ [cb] /\
    listeners_of st' s = listeners_of st s /\
    value_of st' s = value_of st s.
Proof.
  revert i st. induction fuel as [|f IH]; intros i st Hrun Ht Hn; [done|].
  simpl in Hrun. destruct (listeners_of st s !! i) as [[cb|]|] eqn:Ei.
  - unfold bind at 1, modify in Hrun.
    set (st1 := emit (EvCall (Some s) cb) st) in *.
    unfold bind in Hrun.
    destruct (exec prog f (body prog cb) st1) as [[] st2|st2|] eqn:Eb;
      [| |done].
    + assert (H2 : Steps None st1 (new_events st1 st2) st2).
      { apply (sound_new_events None (exec prog f (body prog cb)));
          [apply sound_exec|]. by rewrite Eb. }
      assert (H3 : Steps (Some s) st2 (new_events st2 st') st').
      { apply (sound_new_events (Some s) (forEach prog f s (S i)));
          [apply sound_forEach|]. by rewrite Hrun. }
      assert (Hev : new_events st st' =
                [EvCall (Some s) cb] ++ new_events st1 st2 ++ new_events st2 st').
      { apply new_events_app.
        rewrite (steps_trace _ _ _ _ H3), (steps_trace _ _ _ _ H2). simpl.
        by rewrite <- !app_assoc. }
      rewrite Hev in Ht, Hn |- *.
      apply Forall_app in Ht as [_ [Ht2 Ht3]%Forall_app].
      apply not_elem_of_app in Hn as [_ [Hn2 Hn3]%not_elem_of_app].
      destruct (IH _ _ Hrun Ht3 Hn3) as (before & cb' & after & Hl & Hc & Hl3 & Hv3).
      pose proof (steps_listeners _ _ _ _ H2 s Ht2) as Hl2.
      pose proof (steps_value _ _ _ _ H2 s Hn2) as Hv2.
      change (listeners_of st1 s) with (listeners_of st s) in Hl2.
      change (value_of st1 s) with (value_of st s) in Hv2.
      exists (cb :: before), cb', after. split_and!; [| |congruence..].
      * rewrite (drop_S _ _ _ Ei). simpl. by rewrite <- Hl2, Hl.
      * rewrite !calls_by_app, Hc.
        rewrite (calls_by_nil s (new_events st1 st2)).
        -- simpl. by rewrite bool_decide_eq_true_2.
        -- intros cb0. by apply (steps_calls _ _ _ _ H2).
    + simplify_eq.
      assert (H2 : Steps None st1 (new_events st1 st') st').
      { apply (sound_new_events None (exec prog f (body prog cb)));
          [apply sound_exec|]. by rewrite Eb. }
      assert (Hev : new_events st st' =
                [EvCall (Some s) cb] ++ new_events st1 st').
      { apply new_events_app. rewrite (steps_trace _ _ _ _ H2). simpl.
        by rewrite <- !app_assoc. }
      rewrite Hev in Ht, Hn |- *.
      apply Forall_app in Ht as [_ Ht2].
      apply not_elem_of_app in Hn as [_ Hn2].
      pose proof (steps_listeners _ _ _ _ H2 s Ht2) as Hl2.
      pose proof (steps_value _ _ _ _ H2 s Hn2) as Hv2.
      exists [], cb, (live (drop (S i) (listeners_of st s))).
      split_and!; [| |done..].
      * by rewrite (drop_S _ _ _ Ei).
      * rewrite calls_by_app.
        rewrite (calls_by_nil s (new_events st1 st')).
        -- simpl. by rewrite bool_decide_eq_true_2.
        -- intros cb0. by apply (steps_calls _ _ _ _ H2).
  - destruct (IH _ _ Hrun Ht Hn) as (before & cb' & after & Hl & Hc & Hl3 & Hv3).
    exists before, cb', after. split_and!; [|done..].
    by rewrite (drop_S _ _ _ Ei).
  - done.
Qed.

(** X6: A write to [signal.value] during which a listener throws: the value
    written stays stored, the listeners subscribed before the one that threw
    have been invoked, in order, and those subscribed after it are not
    invoked at all. *)
Theorem throwing_listener_aborts_pass prog fuel s v st st' :
  NoDup (live (listeners_of st s)) ->
  write prog fuel s "value" v st = Throw st' ->
  Forall (fun e => touches s e = false) (new_events st st') ->
  notify_count s (new_events st st') = 1 ->
  value_of st' s = v /\
  exists before cb after,
    live (listeners_of st s) = before ++ cb :: after /\
    calls_by s (new_events st st') = before ++ [cb] /\
    (forall cb', cb' ∈ after -> count_calls s cb' (new_events st st') = 0) /\
    listeners_of st' s = listeners_of st s.
Proof.
  intros Hnd Hw Ht Hn.
  assert (Hs : exists c, signals st !! s = Some c).
  { destruct (signals st !! s) as [c|] eqn:E; [eauto|].
    unfold write, signal_set in Hw. rewrite E in Hw. simplify_eq.
    unfold new_events, notify_count in Hn. rewrite drop_all in Hn. done. }
  destruct Hs as [c Hs].
  rewrite (write_value_unfold _ _ _ _ _ _ Hs) in Hw. unfold bind in Hw.
  set (st0 := emit (EvNotify s) (store_value s v st)) in *.
  destruct (forEach prog fuel s 0 st0) as [[] st1|st1|] eqn:Ef; [done| |done].
  simplify_eq.
  assert (H1 : Steps (Some s) st0 (new_events st0 st') st').
  { apply (sound_new_events (Some s) (forEach prog fuel s 0));
      [apply sound_forEach|]. by rewrite Ef. }
  assert (Hev : new_events st st' = [EvNotify s] ++ new_events st0 st').
  { apply new_events_app. rewrite (steps_trace _ _ _ _ H1). simpl.
    by rewrite <- !app_assoc. }
  rewrite Hev in Ht, Hn |- *.
  apply Forall_app in Ht as [_ Ht].
  unfold notify_count in Hn. simpl in Hn.
  rewrite filter_cons_True in Hn by done. simpl in Hn.
  assert (Hn' : EvNotify s ∉ new_events st0 st').
  { apply notify_count_0. unfold notify_count. lia. }
  destruct (forEach_throws _ _ _ _ _ _ Ef Ht Hn')
    as (before & cb & after & Hl & Hc & Hl' & Hv).
  change (listeners_of st0 s) with (listeners_of (store_value s v st) s)
    in Hl, Hl'.
  rewrite listeners_of_store_value in Hl, Hl'. rewrite drop_0 in Hl.
  split.
  { rewrite Hv. unfold st0, store_value.
    change (value_of (emit ?e ?x) s) with (value_of x s).
    rewrite value_of_alter. rewrite decide_True by done. by rewrite Hs. }
  exists before, cb, after. split_and!; try done.
  intros cb' Hcb'. unfold count_calls.
  change (calls_by s ([EvNotify s] ++ new_events st0 st'))
    with (calls_by s (new_events st0 st')).
  rewrite Hc. apply count_absent.
  rewrite Hl in Hnd. apply NoDup_app in Hnd as (_ & Hdis & Hnd2).
  apply NoDup_cons in Hnd2 as [Hcb _].
  intros [Hin|Hin]%elem_of_app.
  - apply (Hdis cb' Hin). by right.
  - apply list_elem_of_singleton in Hin. by subst.
Qed.
Lemma throwing_listener_aborts_pass_witness :
  exists st',
    write failing_first 5 0 "value" (VNum 1) two_listeners = Throw st' /\
    value_of st' 0 = VNum 1 /\
    count_calls 0 1 (new_events two_listeners st') = 0.
Proof.
  eexists. split; [vm_compute; reflexivity|].
  destruct (throwing_listener_aborts_pass failing_first 5 0 (VNum 1)
              two_listeners _
              ltac:(by_compute)
              ltac:(vm_compute; reflexivity)
              ltac:(vm_compute; repeat constructor)
              ltac:(vm_compute; reflexivity))
    as (Hv & _).
  split; [exact Hv|]. vm_compute. reflexivity.
Defined.

(** ** The listener set is a set *)

Lemma unsubscribe_ok s cb st :
  exists st', unsubscribe s cb st = Ok tt st' /\
    trace st' = trace st ++ [EvUnsub s cb] /\
    heap st' = heap st /\
    isRunningEffect st' = isRunningEffect st /\
    effectDependencies st' = effectDependencies st /\
    (forall s', value_of st' s' = value_of st s') /\
    forall s', listeners_of st' s' =
      if decide (s = s') then listeners_delete cb (listeners_of st s)
      else listeners_of st s'.
Proof.
  eexists. split; [reflexivity|]. split_and!; try done.
  - intros s'. change (value_of (emit ?e ?x) s') with (value_of x s').
    rewrite value_of_alter. case_decide; [subst|done].
    unfold value_of. by destruct (signals st !! s').
  - intros s'. change (listeners_of (emit ?e ?x) s') with (listeners_of x s').
    rewrite listeners_of_alter. simpl. case_decide; [subst|done].
    unfold listeners_of. by destruct (signals st !! s').
Qed.

(** X7: Subscribing a callback that is subscribed changes nothing: the set
    holds it once, a write invokes it once, and one call of a handle
    removes it, however often it was subscribed; the other listeners stay,
    in their order. *)
Theorem subscribe_twice_is_once prog s cb st :
  s < length (signals st) ->
  NoDup (live (listeners_of st s)) ->
  exists st1 st2 st3,
    call_subscribe s cb st = Ok tt st1 /\
    call_subscribe s cb st1 = Ok tt st2 /\
    listeners_of st2 s = listeners_of st1 s /\
    (forall fuel v b st',
       write prog fuel s "value" v st2 = Ok b st' ->
       Forall (fun e => touches s e = false) (new_events st2 st') ->
       notify_count s (new_events st2 st') = 1 ->
       count_calls s cb (new_events st2 st') = 1) /\
    unsubscribe s cb st2 = Ok tt st3 /\
    live (listeners_of st3 s)
      = filter (fun c => c <> cb) (live (listeners_of st s)).
Proof.
  intros Hlt Hnd.
  destruct (call_subscribe_ok s cb st Hlt) as (st1 & Hc1 & Hlen1 & Hl1).
  destruct (call_subscribe_ok s cb st1) as (st2 & Hc2 & Hlen2 & Hl2); [lia|].
  destruct (unsubscribe_ok s cb st2) as (st3 & Hu & _ & _ & _ & _ & _ & Hl3).
  specialize (Hl1 s). specialize (Hl2 s). specialize (Hl3 s).
  rewrite decide_True in Hl1, Hl2, Hl3 by done.
  assert (Hin1 : Some cb ∈ listeners_of st1 s).
  { rewrite Hl1. apply elem_of_listeners_add. by left. }
  assert (Hsame : listeners_of st2 s = listeners_of st1 s).
  { rewrite Hl2. unfold listeners_add. by rewrite bool_decide_eq_true_2. }
  assert (Hnd1 : NoDup (live (listeners_of st1 s))).
  { rewrite Hl1, live_listeners_add. case_bool_decide as Hin; [done|].
    apply NoDup_app. split_and!; [done| |apply NoDup_singleton].
    intros x Hx Hx'. apply list_elem_of_singleton in Hx'. subst.
    by apply elem_of_live in Hx. }
  exists st1, st2, st3. split_and!; try done.
  - intros fuel v b st' Hw Ht Hn.
    destruct (write_value_pass _ _ _ _ _ _ _ Hw Ht Hn) as (_ & Hc & _).
    unfold count_calls. rewrite Hc, Hsame. apply count_NoDup; [done|].
    by apply elem_of_live.
  - rewrite Hl3, live_listeners_delete, Hsame, Hl1, live_listeners_add.
    case_bool_decide as Hin; [done|].
    rewrite filter_app. rewrite (filter_cons_False _ cb) by (intros Hcb; by apply Hcb).
    rewrite filter_nil, app_nil_r. done.
Qed.

Lemma subscribe_twice_is_once_witness :
  exists st1 st2 st3,
    call_subscribe 0 1 two_listeners = Ok tt st1 /\
    call_subscribe 0 1 st1 = Ok tt st2 /\
    live (listeners_of st2 0) = [0; 1] /\
    unsubscribe 0 1 st2 = Ok tt st3 /\
    live (listeners_of st3 0) = [0].
Proof.
  destruct (subscribe_twice_is_once [] 0 1 two_listeners
              ltac:(vm_compute; lia) ltac:(by_compute))
    as (st1 & st2 & st3 & H1 & H2 & _ & _ & H3 & Hl).
  vm_compute in H1. injection H1 as <-.
  vm_compute in H2. injection H2 as <-.
  vm_compute in H3. injection H3 as <-.
  do 3 eexists. split_and!; [reflexivity..|exact Hl].
Defined.

(** X8: A callback that is unsubscribed and subscribed again takes the last
    place: a pass invokes the other listeners first, in their order, and it
    last. *)
Theorem resubscribed_listener_is_invoked_last prog s cb st :
  s < length (signals st) ->
  exists st1 st2,
    unsubscribe s cb st = Ok tt st1 /\
    call_subscribe s cb st1 = Ok tt st2 /\
    live (listeners_of st2 s)
      = filter (fun c => c <> cb) (live (listeners_of st s)) ++ [cb] /\
    forall fuel v b st',
      write prog fuel s "value" v st2 = Ok b st' ->
      Forall (fun e => touches s e = false) (new_events st2 st') ->
      notify_count s (new_events st2 st') = 1 ->
      calls_by s (new_events st2 st')
        = filter (fun c => c <> cb) (live (listeners_of st s)) ++ [cb].
Proof.
  intros Hlt.
  destruct (unsubscribe_ok s cb st) as (st1 & Hu & _ & _ & _ & _ & _ & Hl1).
  assert (Hlen : length (signals st1) = length (signals st)).
  { unfold unsubscribe, modify in Hu. simplify_eq. simpl. apply length_alter. }
  destruct (call_subscribe_ok s cb st1) as (st2 & Hc & _ & Hl2); [lia|].
  specialize (Hl1 s). specialize (Hl2 s).
  rewrite decide_True in Hl1, Hl2 by done.
  assert (Hlive : live (listeners_of st2 s)
            = filter (fun c => c <> cb) (live (listeners_of st s)) ++ [cb]).
  { rewrite Hl2, live_listeners_add, Hl1.
    rewrite bool_decide_eq_false_2 by apply listeners_delete_absent.
    by rewrite live_listeners_delete. }
  exists st1, st2. split_and!; try done.
  intros fuel v b st' Hw Ht Hn.
  destruct (write_value_pass _ _ _ _ _ _ _ Hw Ht Hn) as (_ & Hcalls & _).
  by rewrite Hcalls.
Qed.

Lemma resubscribed_listener_is_invoked_last_witness :
  exists st1 st2 st',
    unsubscribe 0 0 two_listeners = Ok tt st1 /\
    call_subscribe 0 0 st1 = Ok tt st2 /\
    write [] 5 0 "value" (VNum 1) st2 = Ok true st' /\
    calls_by 0 (new_events st2 st') = [1; 0].
Proof.
  destruct (resubscribed_listener_is_invoked_last [] 0 0 two_listeners
              ltac:(vm_compute; lia))
    as (st1 & st2 & H1 & H2 & _ & Hw).
  vm_compute in H1. injection H1 as <-.
  vm_compute in H2. injection H2 as <-.
  do 3 eexists. split_and!; [reflexivity..|].
  apply (Hw 5 (VNum 1) true).
  - vm_compute. reflexivity.
  - vm_compute. repeat constructor.
  - vm_compute. reflexivity.
Defined.
(** ** Tearing an effect down *)

Lemma filter_filter_same (l : list nat) x :
  filter (fun c => c <> x) (filter (fun c => c <> x) l)
    = filter (fun c => c <> x) l.
Proof.
  induction l as [|y l IH]; [done|].
  destruct (decide (y = x)) as [->|Hne].
  - by rewrite filter_cons_False by (intros Hcb; by apply Hcb).
  - rewrite (filter_cons_True _ y l) by done.
    rewrite filter_cons_True by done. by rewrite IH.
Qed.

(** The closure [signalEffect] returns, called in any state: it returns,
    removes the callback from the listener sets of the dependencies and
    changes nothing else. *)
Lemma teardown_ok cb deps st :
  exists st', teardown cb deps st = Ok tt st' /\
    heap st' = heap st /\
    isRunningEffect st' = isRunningEffect st /\
    effectDependencies st' = effectDependencies st /\
    (forall s, value_of st' s = value_of st s) /\
    (forall s, s ∈ deps ->
       live (listeners_of st' s)
         = filter (fun c => c <> cb) (live (listeners_of st s))) /\
    (forall s, s ∉ deps -> listeners_of st' s = listeners_of st s).
Proof.
  revert st. induction deps as [|s0 deps IH]; intros st.
  - exists st. split_and!; try done. intros s Hs. by apply elem_of_nil in Hs.
  - destruct (unsubscribe_ok s0 cb st)
      as (sta & Hu & _ & Hh & Hf & Hd & Hv & Hl).
    destruct (IH sta) as (st' & Ht & Hh' & Hf' & Hd' & Hv' & Hin & Hout).
    exists st'. split_and!; try congruence.
    + unfold teardown. simpl. unfold bind. rewrite Hu. exact Ht.
    + intros s Hs. destruct (decide (s ∈ deps)) as [Hd1|Hd1].
      * rewrite (Hin s Hd1), Hl. case_decide; [subst|done].
        by rewrite live_listeners_delete, filter_filter_same.
      * apply elem_of_cons in Hs as [->|]; [|done].
        rewrite (Hout s0 Hd1), Hl, decide_True by done.
        apply live_listeners_delete.
    + intros s [Hne Hs]%not_elem_of_cons.
      rewrite (Hout s Hs), Hl. by rewrite decide_False.
Qed.

Lemma for_each_subscribe_others cb deps st st' :
  for_each (fun s => call_subscribe s cb) deps st = Ok tt st' ->
  forall s, filter (fun c => c <> cb) (live (listeners_of st' s))
          = filter (fun c => c <> cb) (live (listeners_of st s)).
Proof.
  revert st. induction deps as [|s0 deps IH]; intros st Hf s.
  - simpl in Hf. unfold ret in Hf. by simplify_eq.
  - simpl in Hf. unfold bind in Hf.
    destruct (call_subscribe s0 cb st) as [[] sta|sta|] eqn:Hc; [|done..].
    rewrite (IH _ Hf s).
    assert (Hlt : s0 < length (signals st)).
    { unfold call_subscribe, bind, signal_get in Hc.
      destruct (signals st !! s0) eqn:E; [|done]. by eapply lookup_lt_Some. }
    destruct (call_subscribe_ok s0 cb st Hlt) as (sta' & Hc' & _ & Hl).
    rewrite Hc in Hc'. injection Hc' as <-. rewrite Hl.
    case_decide; [subst|done]. rewrite live_listeners_add.
    case_bool_decide; [done|]. rewrite filter_app.
    rewrite (filter_cons_False _ cb) by (intros Hcb; by apply Hcb).
    by rewrite filter_nil, app_nil_r.
Qed.

(** X9: [signalEffect] followed by the closure it returned: the closure
    returns, and afterwards the callback is in the listener set of none of
    the signals its first run read -- a subscription of the callback to one
    of them made by hand before is gone as well -- while all other
    listeners are where the first run left them.  Called in any later
    state, the closure returns as well and removes the callback from these
    signals and from no other. *)
Theorem effect_teardown_unsubscribes prog fuel cb st stb :
  recorder_idle st ->
  exec prog fuel (body prog cb) (capture_start cb st) = Ok tt stb ->
  Forall (fun e => is_capture e = false)
         (new_events (capture_start cb st) stb) ->
  exists deps st1 st2,
    signalEffect prog fuel cb st = Ok deps st1 /\
    teardown cb deps st1 = Ok tt st2 /\
    (forall s, s ∈ deps <->
       EvGet s "value" ∈ new_events (capture_start cb st) stb) /\
    (forall s, s ∈ deps ->
       live (listeners_of st2 s)
         = filter (fun c => c <> cb) (live (listeners_of stb s))) /\
    (forall s, s ∉ deps -> listeners_of st2 s = listeners_of stb s) /\
    (forall s, value_of st2 s = value_of stb s) /\
    recorder_idle st2 /\
    (forall stm, exists stn,
       teardown cb deps stm = Ok tt stn /\
       (forall s, s ∈ deps -> cb ∉ live (listeners_of stn s)) /\
       (forall s cb', cb' <> cb ->
          cb' ∈ live (listeners_of stn s) <-> cb' ∈ live (listeners_of stm s)) /\
       (forall s, s ∉ deps -> listeners_of stn s = listeners_of stm s)).
Proof.
  intros Hidle Hrun Hnc.
  destruct (capture_returns_signals_read_core _ _ _ _ _ Hidle Hrun Hnc)
    as (Hget & Hval).
  set (deps := nub (reads (new_events (capture_start cb st) stb))) in *.
  destruct (for_each_subscribe cb deps (capture_end cb stb))
    as (st1 & Hsub & Hin & Hout & Hmono); [done|].
  assert (Hse : signalEffect prog fuel cb st = Ok deps st1).
  { rewrite signalEffect_unfold, Hget. unfold bind. by rewrite Hsub. }
  destruct (teardown_ok cb deps st1)
    as (st2 & Ht & Hh & Hf & Hd & Hv & Htin & Htout).
  pose proof (for_each_subscribe_others _ _ _ _ Hsub) as Hoth.
  exists deps, st1, st2. split_and!; try done.
  - intros s. unfold deps. by rewrite elem_of_nub, elem_of_reads.
  - intros s Hs. rewrite (Htin s Hs). apply Hoth.
  - intros s Hs. rewrite (Htout s Hs). apply (Hout s Hs).
  - intros s. rewrite Hv.
    assert (Hsig : forall l sta stc,
              for_each (fun s => call_subscribe s cb) l sta = Ok tt stc ->
              value_of stc s = value_of sta s).
    { induction l as [|s0 l IHl]; intros sta stc Hfe.
      - simpl in Hfe. unfold ret in Hfe. by simplify_eq.
      - simpl in Hfe. unfold bind in Hfe.
        destruct (call_subscribe s0 cb sta) as [[] stx|stx|] eqn:Hc; [|done..].
        rewrite (IHl _ _ Hfe).
        unfold call_subscribe, bind, signal_get in Hc.
        destruct (signals sta !! s0) as [c0|] eqn:E; [|done].
        unfold subscribe, modify in Hc. simplify_eq.
        change (value_of (emit ?e ?x) s) with (value_of x s).
        rewrite value_of_alter. unfold value_of.
        rewrite ?signals_record_get. case_decide; [subst|done].
        by rewrite E. }
    by rewrite (Hsig _ _ _ Hsub).
  - pose proof (signalEffect_keeps_idle _ _ _ _ _ _ Hse Hidle) as [H1 H2].
    split; congruence.
  - intros stm.
    destruct (teardown_ok cb deps stm)
      as (stn & Htm & _ & _ & _ & _ & Hmin & Hmout).
    exists stn.
    assert (Habs : forall s, s ∈ deps -> cb ∉ live (listeners_of stn s)).
    { intros s Hs. rewrite (Hmin s Hs). intros [Hne _]%list_elem_of_filter.
      by apply Hne. }
    split_and!; try done.
    + intros s cb' Hne. destruct (decide (s ∈ deps)) as [Hs|Hs].
      * rewrite (Hmin s Hs), list_elem_of_filter. tauto.
      * by rewrite (Hmout s Hs).
Qed.
Lemma effect_teardown_unsubscribes_witness :
  exists st1 st2,
    signalEffect switching 6 0 (run (call_subscribe 0 0) three_signals)
      = Ok [0; 1] st1 /\
    teardown 0 [0; 1] st1 = Ok tt st2 /\
    live (listeners_of st2 0) = [] /\
    live (listeners_of st2 1) = [].
Proof.
  destruct (effect_teardown_unsubscribes switching 6 0
              (run (call_subscribe 0 0) three_signals) _
              (conj eq_refl eq_refl)
              ltac:(vm_compute; reflexivity)
              ltac:(vm_compute; repeat constructor))
    as (deps & st1 & st2 & Hse & Ht & _ & Hin & _).
  vm_compute in Hse. injection Hse as <- <-.
  eexists. exists st2. split; [reflexivity|]. split; [exact Ht|].
  split.
  - rewrite (Hin 0); [reflexivity|by_compute].
  - rewrite (Hin 1); [reflexivity|by_compute].
Defined.

(** ** The recorder between runs in which nothing throws *)

(** X10: With the recorder idle, whatever a client does in which nothing
    throws -- any code, a write, registering an effect (also one that
    registers effects itself), creating a signal -- leaves the recorder
    idle: the capture flag is cleared and the working set empty.  The
    client code here has no [try], so its runs that return are the runs in
    which nothing was thrown; a run that catches what a capture threw is
    none of them, and finds the flag set. *)
Theorem recorder_idle_when_nothing_throws prog fuel st :
  recorder_idle st ->
  (forall c st', exec prog fuel c st = Ok tt st' -> recorder_idle st') /\
  (forall s prop v b st',
     write prog fuel s prop v st = Ok b st' -> recorder_idle st') /\
  (forall cb deps st',
     signalEffect prog fuel cb st = Ok deps st' -> recorder_idle st') /\
  (forall cb deps st', teardown cb deps st = Ok tt st' -> recorder_idle st') /\
  (forall v s st', createSignal fuel v st = Ok s st' -> recorder_idle st').
Proof.
  intros Hidle. split_and!.
  - intros c st' H. by eapply exec_keeps_idle.
  - intros s prop v b st' H. by eapply write_keeps_idle.
  - intros cb deps st' H. by eapply signalEffect_keeps_idle.
  - intros cb deps st' H.
    destruct (teardown_ok cb deps st) as (st2 & Ht & _ & Hf & Hd & _).
    rewrite Ht in H. injection H as <-. destruct Hidle. split; congruence.
  - intros v s st' H. by eapply createSignal_keeps_idle.
Qed.

Lemma recorder_idle_when_nothing_throws_witness :
  exists st',
    exec nesting 8 (CSeq (CEffect 0) (CSigSet 1 "value" (ELit (LVal (VNum 3)))))
         three_signals = Ok tt st' /\
    recorder_idle st'.
Proof.
  eexists. split; [vm_compute; reflexivity|].
  destruct (recorder_idle_when_nothing_throws nesting 8 three_signals
              (conj eq_refl eq_refl)) as (Hexec & _).
  apply (Hexec (CSeq (CEffect 0) (CSigSet 1 "value" (ELit (LVal (VNum 3)))))).
  vm_compute. reflexivity.
Defined.

(** ** An effect inside an effect *)

Lemma settles_ret {A} (a : A) : settles (ret a).
Proof.
  intros st a' st' [= _ <-]. split; [done|]. exists [].
  split; [by rewrite app_nil_r|]. intros H. by apply Exists_nil in H.
Qed.

Lemma settles_throw {A} : settles (@throw A).
Proof. intros st a' st' ?. done. Qed.

Lemma settles_bind {A B} (m : M A) (k : A -> M B) :
  settles m -> (forall a, settles (k a)) -> settles (bind m k).
Proof.
  intros Hm Hk st b st' Hr. unfold bind in Hr.
  destruct (m st) as [a st1| |] eqn:Em; [|done..].
  destruct (Hm _ _ _ Em) as (Hi1 & e1 & Ht1 & Hc1).
  destruct (Hk _ _ _ _ Hr) as (Hi2 & e2 & Ht2 & Hc2).
  split; [tauto|]. exists (e1 ++ e2). split.
  - by rewrite Ht2, Ht1, app_assoc.
  - intros [H|H]%Exists_app; tauto.
Qed.

Lemma settles_modify f evs :
  (forall st, trace (f st) = trace st ++ evs /\
              isRunningEffect (f st) = isRunningEffect st /\
              effectDependencies (f st) = effectDependencies st) ->
  Forall (fun e => is_capture e = false) evs ->
  settles (modify f).
Proof.
  intros Hf Hnc st a st' Hr. unfold modify in Hr. simplify_eq.
  destruct (Hf st) as (Ht & Hfl & Hd). split.
  - intros [? ?]. split; congruence.
  - exists evs. split; [done|]. intros Hex. exfalso.
    apply Exists_exists in Hex as (e & He & Hc).
    rewrite Forall_forall in Hnc. specialize (Hnc e He). congruence.
Qed.

Lemma settles_signal_get s prop : settles (signal_get s prop).
Proof.
  intros st v st' Hg. unfold signal_get in Hg.
  destruct (signals st !! s); [|done]. simplify_eq. split.
  - intros [Hflag Hdeps]. unfold record_get. simpl.
    rewrite Hflag, andb_false_r. done.
  - exists [EvGet s prop]. split; [apply trace_record_get|].
    intros Hex. apply Exists_cons in Hex as [?|Hex]; [done|].
    by apply Exists_nil in Hex.
Qed.

Lemma settles_subscribe s cb : settles (subscribe s cb).
Proof. by apply (settles_modify _ [EvSub s cb]); [|repeat constructor]. Qed.

Lemma settles_unsubscribe s cb : settles (unsubscribe s cb).
Proof. by apply (settles_modify _ [EvUnsub s cb]); [|repeat constructor]. Qed.

Lemma settles_call_subscribe s cb : settles (call_subscribe s cb).
Proof.
  apply settles_bind; [apply settles_signal_get|]. intros _.
  apply settles_subscribe.
Qed.

Lemma settles_eval e : settles (eval e).
Proof.
  induction e as [l|s prop|e IH k]; simpl.
  - intros st v st' Hr. destruct (alloc_lit l (heap st)). simplify_eq.
    split; [done|]. exists []. split; [by rewrite app_nil_r|].
    intros H. by apply Exists_nil in H.
  - apply settles_signal_get.
  - apply settles_bind; [done|]. intros v.
    destruct v; simpl; first [apply settles_ret | apply settles_throw | idtac].
    intros st v st' Hr. unfold obj_get in Hr.
    destruct (heap st !! r); [|done].
    exact (settles_ret (prop_get (oprops o) k) st v st' Hr).
Qed.

Lemma settles_notify_with fe s :
  (forall i, settles (fe s i)) -> settles (notify_with fe s).
Proof.
  intros H. apply settles_bind; [|intros _; apply H].
  by apply (settles_modify _ [EvNotify s]); [|repeat constructor].
Qed.

Lemma settles_signal_set n s prop v :
  (forall s, settles (n s)) -> settles (signal_set n s prop v).
Proof.
  intros H st b st' Hr. unfold signal_set in Hr.
  destruct (signals st !! s); [|done].
  destruct (String.eqb prop "value");
    [|exact (settles_ret false st b st' Hr)].
  revert Hr. unfold bind, ret.
  destruct (n s (store_value s v st)) as [[] st1| |] eqn:En; [|done..].
  intros [= _ <-]. by apply (H s _ _ _ En).
Qed.

Lemma settles_val_set n t k v :
  (forall s, settles (n s)) -> settles (val_set n t k v).
Proof.
  intros H. destruct t; simpl;
    first [apply settles_ret | apply settles_throw | idtac].
  intros st b st' Hr. unfold obj_set in Hr.
  destruct (heap st !! r) as [o|]; [|done].
  destruct (okind o);
    [exact (settles_ret tt (store_prop r k v st) b st' Hr)..|].
  by apply (H _ _ _ _ Hr).
Qed.

Lemma settles_for_each {A} (f : A -> M unit) l :
  (forall x, settles (f x)) -> settles (for_each f l).
Proof.
  intros Hf. induction l as [|x l IH]; simpl; [apply settles_ret|].
  apply settles_bind; [apply Hf|]. intros _. apply IH.
Qed.

(** Whatever the recorder held, [getDependenciesFromEffect] leaves it idle
    when it returns. *)
Lemma settles_getDependenciesFromEffect_with call cb :
  settles (call cb) ->
  forall st deps st',
    getDependenciesFromEffect_with call cb st = Ok deps st' ->
    recorder_idle st' /\ exists evs, trace st' = trace st ++ evs.
Proof.
  intros Hcall st deps st' Hr. unfold getDependenciesFromEffect_with in Hr.
  unfold bind at 1 2, modify at 1 2 in Hr. unfold bind at 1 in Hr.
  destruct (call cb _) as [[] st1| |] eqn:Ec; [|done..].
  unfold bind, modify, ret in Hr. simplify_eq.
  destruct (Hcall _ _ _ Ec) as (_ & evs & Ht & _). split; [done|].
  exists ([EvCapture cb] ++ evs ++ [EvCaptured cb]). simpl. rewrite Ht. simpl.
  by rewrite <- !app_assoc.
Qed.

Lemma settles_signalEffect_with call cb :
  settles (call cb) -> settles (signalEffect_with call cb).
Proof.
  intros Hcall st deps st' Hr. unfold signalEffect_with in Hr.
  unfold bind at 1 in Hr.
  destruct (getDependenciesFromEffect_with call cb st) as [d st1| |] eqn:Eg;
    [|done..].
  destruct (settles_getDependenciesFromEffect_with _ _ Hcall _ _ _ Eg)
    as (Hidle & e1 & Ht1).
  assert (Hrest : settles (for_each (fun s => call_subscribe s cb) d ;; ret d)).
  { apply settles_bind; [|intros _; apply settles_ret].
    apply settles_for_each. intros s. apply settles_call_subscribe. }
  destruct (Hrest _ _ _ Hr) as (Hi2 & e2 & Ht2 & _).
  split; [auto|]. exists (e1 ++ e2). split; [|auto].
  by rewrite Ht2, Ht1, app_assoc.
Qed.

Lemma settles_exec_forEach prog fuel :
  (forall c, settles (exec prog fuel c)) /\
  (forall s i, settles (forEach prog fuel s i)).
Proof.
  induction fuel as [|f [IHe IHf]]; [split; intros; intros st a st' Hr; done|].
  split.
  - intros c. destruct c; simpl.
    + apply settles_ret.
    + apply settles_bind; [apply IHe|]. intros _. apply IHe.
    + apply settles_bind; [apply settles_eval|]. intros _. apply settles_ret.
    + apply settles_bind; [apply settles_eval|]. intros v.
      destruct (truthy v); apply IHe.
    + apply settles_throw.
    + apply settles_bind; [apply settles_eval|]. intros v.
      apply settles_bind.
      * apply settles_signal_set. intros s'.
        apply settles_notify_with. intros i. apply IHf.
      * intros [|]; [apply settles_ret|apply settles_throw].
    + apply settles_bind; [apply settles_eval|]. intros t.
      apply settles_bind; [apply settles_eval|]. intros v.
      apply settles_val_set. intros s'.
      apply settles_notify_with. intros i. apply IHf.
    + apply settles_call_subscribe.
    + apply settles_unsubscribe.
    + apply settles_bind; [|intros _; apply settles_ret].
      apply settles_signalEffect_with. unfold call_with.
      apply settles_bind; [|intros _; apply IHe].
      by apply (settles_modify _ [EvCall None cb]); [|repeat constructor].
  - intros s i st a st' Hr. simpl in Hr.
    destruct (listeners_of st s !! i) as [[cb|]|];
      [| |exact (settles_ret tt st a st' Hr)].
    + revert Hr. apply settles_bind.
      * by apply (settles_modify _ [EvCall (Some s) cb]); [|repeat constructor].
      * intros _. apply settles_bind; [apply IHe|]. intros _. apply IHf.
    + by eapply IHf.
Qed.

(** X11: An effect whose first run registers an effect itself, with nothing
    thrown on the way, is subscribed to nothing: [signalEffect] returns an
    empty dependency list for it and changes no listener set after the
    run, whatever the run read.  The capture inside it has cleared the
    flag and the working set.  (The run contains a capture and returns;
    the client code here has no [try], so nothing was thrown in it.  A
    run that catches what the capture inside it threw finds the flag
    still set, and what it reads next is recorded.) *)
Theorem effect_that_registers_an_effect_has_no_dependencies
    prog fuel cb st stb :
  exec prog fuel (body prog cb) (capture_start cb st) = Ok tt stb ->
  Exists (fun e => is_capture e = true)
         (new_events (capture_start cb st) stb) ->
  signalEffect prog fuel cb st = Ok [] (capture_end cb stb) /\
  (forall s, listeners_of (capture_end cb stb) s = listeners_of stb s) /\
  recorder_idle stb.
Proof.
  intros Hrun Hex.
  destruct (proj1 (settles_exec_forEach prog fuel) _ _ _ _ Hrun)
    as (_ & evs & Ht & Hc).
  rewrite (new_events_app _ _ _ Ht) in Hex.
  destruct (Hc Hex) as [Hflag Hdeps]. split_and!; try done.
  rewrite signalEffect_unfold, getDependenciesFromEffect_unfold, Hrun, Hdeps.
  done.
Qed.

Lemma effect_that_registers_an_effect_has_no_dependencies_witness :
  exists stb,
    exec nesting 6 (body nesting 0) (capture_start 0 three_signals)
      = Ok tt stb /\
    reads (new_events (capture_start 0 three_signals) stb) = [0; 1; 2] /\
    signalEffect nesting 6 0 three_signals = Ok [] (capture_end 0 stb) /\
    live (listeners_of (capture_end 0 stb) 0) = [1] /\
    live (listeners_of (capture_end 0 stb) 1) = [1] /\
    live (listeners_of (capture_end 0 stb) 2) = [].
Proof.
  eexists. split; [vm_compute; reflexivity|].
  split; [vm_compute; reflexivity|].
  destruct (effect_that_registers_an_effect_has_no_dependencies nesting 6 0
              three_signals _
              ltac:(vm_compute; reflexivity)
              ltac:(vm_compute; apply Exists_cons_tl, Exists_cons_hd;
                    reflexivity))
    as (Hse & _).
  split; [exact Hse|]. split_and!; vm_compute; reflexivity.
Defined.
(** ** Listeners that are unsubscribed during a pass *)

(** X12: A listener subscribed when [signal.value] is written is invoked by the
    write, when it returns, unless its handle was called in the meantime:
    the listeners that other listeners unsubscribe, or that unsubscribe
    themselves, take no other listener's turn away. *)
Theorem write_invokes_listeners_not_unsubscribed
    prog fuel s v st b st' cb :
  write prog fuel s "value" v st = Ok b st' ->
  cb ∈ live (listeners_of st s) ->
  EvUnsub s cb ∉ new_events st st' ->
  EvCall (Some s) cb ∈ new_events st st' /\
  cb ∈ live (listeners_of st' s).
Proof.
  intros Hw Hcb Hu.
  apply elem_of_live, list_elem_of_lookup in Hcb as [i Hi].
  split; [by eapply write_reaches|].
  pose proof (sound_new_events None _ _ _ (sound_write prog fuel s "value" v)
                ltac:(by rewrite Hw)) as H.
  apply elem_of_live. eapply list_elem_of_lookup_2.
  by apply (steps_stay _ _ _ _ H s cb i).
Qed.

Lemma write_invokes_listeners_not_unsubscribed_witness :
  exists st',
    write [CUnsubscribe 0 0; CSkip] 5 0 "value" (VNum 1) two_listeners
      = Ok true st' /\
    EvCall (Some 0) 1 ∈ new_events two_listeners st' /\
    live (listeners_of st' 0) = [1].
Proof.
  eexists. split; [vm_compute; reflexivity|].
  destruct (write_invokes_listeners_not_unsubscribed [CUnsubscribe 0 0; CSkip]
              5 0 (VNum 1) two_listeners true _ 1
              ltac:(vm_compute; reflexivity)
              ltac:(by_compute) ltac:(by_compute))
    as (Hcall & _).
  split; [exact Hcall|]. vm_compute. reflexivity.
Defined.

(** ** A listener that writes its own signal *)

Lemma forEach_echo prog s cb e :
  body prog cb = CSigSet s "value" e ->
  (exists l, e = ELit l) \/ e = ESigGet s "value" ->
  forall fuel i st,
    (exists rest, live (listeners_of st s) = cb :: rest) ->
    (exists rest, live (drop i (listeners_of st s)) = cb :: rest) ->
    forEach prog fuel s i st = Diverge.
Proof.
  intros Hbody He fuel. induction fuel as [fuel H] using lt_wf_ind.
  intros i st Hfirst [rest Hi]. destruct fuel as [|f]; [done|]. simpl.
  destruct (listeners_of st s !! i) as [[cb'|]|] eqn:Ei.
  - rewrite (drop_S _ _ _ Ei) in Hi. simpl in Hi. injection Hi as -> _.
    unfold bind at 1, modify. rewrite Hbody.
    set (st1 := emit (EvCall (Some s) cb) st).
    assert (Hs : exists c, signals st1 !! s = Some c).
    { destruct Hfirst as [r0 Hr0]. unfold listeners_of in Hr0. simpl.
      destruct (signals st !! s); [eauto|done]. }
    destruct Hs as [c Hs].
    assert (Hev : exists w st2, eval e st1 = Ok w st2 /\
                    signals st2 = signals st1).
    { destruct He as [[l ->]| ->].
      - rewrite eval_literal. by eexists _, _.
      - rewrite (eval_signal_value _ _ _ Hs). eexists _, _.
        split; [done|]. apply signals_record_get. }
    destruct Hev as (w & st2 & Hev & Hsig).
    assert (Hd : exec prog f (CSigSet s "value" e) st1 = Diverge).
    { destruct f as [|f']; [done|]. simpl. unfold bind at 1. rewrite Hev.
      unfold bind at 1. unfold signal_set. rewrite Hsig, Hs. simpl.
      unfold bind at 1, notify_with, bind at 1, modify.
      assert (Hl : listeners_of
                (emit (EvNotify s) (store_value s w st2)) s
              = listeners_of st s).
      { change (listeners_of (emit ?e ?x) s) with (listeners_of x s).
        rewrite listeners_of_store_value. unfold listeners_of.
        by rewrite Hsig. }
      rewrite (H f'); [done|lia| |].
      - destruct Hfirst as [r0 Hr0]. exists r0. by rewrite Hl.
      - destruct Hfirst as [r0 Hr0]. exists r0. by rewrite drop_0, Hl. }
    unfold bind. by rewrite Hd.
  - apply H; [lia|done|]. exists rest. by rewrite <- Hi, (drop_S _ _ _ Ei).
  - apply lookup_ge_None in Ei. rewrite drop_ge in Hi by done. done.
Qed.

(** X13: A listener whose body assigns to [signal.value] of the signal it
    listens to -- a literal, or what it reads from [signal.value] --: when
    it is the first listener of the signal, no write to [signal.value]
    returns or throws, however deep the calls may nest; every notification
    pass starts another.  An effect that assigns to the signal it reads is
    such a listener once [signalEffect] has subscribed it. *)
Theorem write_to_signal_with_echoing_listener_never_returns
    prog fuel s cb e v st c rest :
  body prog cb = CSigSet s "value" e ->
  (exists l, e = ELit l) \/ e = ESigGet s "value" ->
  signals st !! s = Some c ->
  live (listeners c) = cb :: rest ->
  write prog fuel s "value" v st = Diverge.
Proof.
  intros Hbody He Hs Hl. rewrite (write_value_unfold _ _ _ _ _ _ Hs).
  unfold bind.
  rewrite (forEach_echo prog s cb e Hbody He); [done| |].
  - exists rest. change (listeners_of (emit ?e ?x) s) with (listeners_of x s).
    rewrite listeners_of_store_value. unfold listeners_of. by rewrite Hs.
  - exists rest. rewrite drop_0.
    change (listeners_of (emit ?e ?x) s) with (listeners_of x s).
    rewrite listeners_of_store_value. unfold listeners_of. by rewrite Hs.
Qed.

Lemma write_to_signal_with_echoing_listener_never_returns_witness :
  exists st1,
    signalEffect feeding_back 5 0 three_signals = Ok [0] st1 /\
    write feeding_back 1000 0 "value" (VNum 5) st1 = Diverge.
Proof.
  eexists. split; [vm_compute; reflexivity|].
  apply (write_to_signal_with_echoing_listener_never_returns feeding_back
           1000 0 0 (ESigGet 0 "value") (VNum 5) _
           (mkCell (VNum 0) [Some 0]) []).
  - reflexivity.
  - by right.
  - reflexivity.
  - reflexivity.
Defined.
(** ** What the hooks report to React *)

Lemma js_succ_changes n : (n < 2 ^ 53)%Z -> js_succ n = (n + 1)%Z.
Proof. intros H. unfold js_succ. by rewrite (proj2 (Z.ltb_lt _ _) H). Qed.

Lemma useSignal_getSnapshot_unfold s refs st c :
  signals st !! s = Some c ->
  useSignal_getSnapshot s refs st =
    let count := if strict_eq (value c) (prevValue refs)
                 then renderCount refs else js_succ (renderCount refs) in
    Ok (count, mkRefs (value c) count)
       (record_get s "value" (record_get s "value" st)).
Proof.
  intros Hs. unfold useSignal_getSnapshot, bind, signal_get.
  rewrite Hs, signals_record_get, Hs. reflexivity.
Qed.

Lemma useSignal_getSnapshot_valid s refs st n refs1 st1 :
  useSignal_getSnapshot s refs st = Ok (n, refs1) st1 ->
  exists c, signals st !! s = Some c /\
    prevValue refs1 = value c /\ renderCount refs1 = n /\
    signals st1 = signals st /\ heap st1 = heap st.
Proof.
  intros H. destruct (signals st !! s) as [c|] eqn:Hs.
  - rewrite (useSignal_getSnapshot_unfold _ _ _ _ Hs) in H. simpl in H.
    injection H as <- <- <-. exists c.
    by rewrite !signals_record_get, !heap_record_get.
  - unfold useSignal_getSnapshot, bind, signal_get in H. by rewrite Hs in H.
Qed.

Lemma useSignal_getSnapshot_next s refs st st' :
  s < length (signals st') ->
  prevValue refs = value_of st s ->
  exists st2,
    useSignal_getSnapshot s refs st' =
      Ok (if bool_decide (value_of st' s = value_of st s)
          then renderCount refs else js_succ (renderCount refs),
          mkRefs (value_of st' s)
            (if bool_decide (value_of st' s = value_of st s)
             then renderCount refs else js_succ (renderCount refs))) st2.
Proof.
  intros Hlt Hp. destruct (lookup_lt_is_Some_2 _ _ Hlt) as [c Hc].
  rewrite (useSignal_getSnapshot_unfold _ _ _ _ Hc). cbv zeta.
  assert (Hv : value_of st' s = value c) by (unfold value_of; by rewrite Hc).
  unfold strict_eq. rewrite Hp, Hv. eauto.
Qed.

(** X14: [useSignal]: after a call of [getSnapshot], let a write to
    [signal.value] return, the signal being notified once.  The next call
    returns the same number when the value written is [===] to the value
    before, and the next number when it is not; so, below 2^53, the number
    changes exactly when the value does. *)
Theorem useSignal_snapshot_changes_with_value
    prog fuel s refs st n refs1 st1 v b st2 :
  useSignal_getSnapshot s refs st = Ok (n, refs1) st1 ->
  write prog fuel s "value" v st1 = Ok b st2 ->
  notify_count s (new_events st1 st2) = 1 ->
  exists n' st3,
    useSignal_getSnapshot s refs1 st2 = Ok (n', mkRefs v n') st3 /\
    n' = (if bool_decide (v = value_of st s) then n else js_succ n) /\
    ((n < 2 ^ 53)%Z -> n' = n <-> v = value_of st s).
Proof.
  intros H1 Hw Hn.
  destruct (useSignal_getSnapshot_valid _ _ _ _ _ _ H1)
    as (c & Hc & Hp & Hr & Hsig & _).
  pose proof (sound_new_events None _ _ _ (sound_write prog fuel s "value" v)
                ltac:(by rewrite Hw)) as H.
  assert (Hv : value_of st2 s = v).
  { destruct (write_value_valid _ _ _ _ _ _ _ Hw) as [c1 Hs].
    rewrite (write_value_unfold _ _ _ _ _ _ Hs) in Hw. unfold bind in Hw.
    set (st0 := emit (EvNotify s) (store_value s v st1)) in *.
    destruct (forEach prog fuel s 0 st0) as [[] st'|st'|] eqn:Ef; [|done..].
    unfold ret in Hw. simplify_eq.
    assert (H3 : Steps (Some s) st0 (new_events st0 st2) st2).
    { apply (sound_new_events (Some s) (forEach prog fuel s 0));
        [apply sound_forEach|]. by rewrite Ef. }
    assert (Hev : new_events st1 st2 = [EvNotify s] ++ new_events st0 st2).
    { apply new_events_app. rewrite (steps_trace _ _ _ _ H3). simpl.
      by rewrite <- !app_assoc. }
    rewrite Hev in Hn. unfold notify_count in Hn. simpl in Hn.
    rewrite filter_cons_True in Hn by done. simpl in Hn.
    rewrite (steps_value _ _ _ _ H3 s).
    - unfold st0, store_value.
      change (value_of (emit ?e ?x) s) with (value_of x s).
      rewrite value_of_alter. rewrite decide_True by done. by rewrite Hs.
    - apply notify_count_0. unfold notify_count. lia. }
  assert (Hlt : s < length (signals st2)).
  { rewrite (steps_signals _ _ _ _ H), Hsig. by eapply lookup_lt_Some. }
  assert (Hp' : prevValue refs1 = value_of st s).
  { unfold value_of. by rewrite Hc. }
  destruct (useSignal_getSnapshot_next s refs1 st st2 Hlt Hp') as [st3 H3].
  rewrite Hv, Hr in H3. eexists _, st3. split_and!; [exact H3|done|].
  intros Hlim. case_bool_decide as Heq; [done|].
  rewrite js_succ_changes by done. split; [lia|done].
Qed.

Lemma useSignal_snapshot_changes_with_value_witness :
  exists st1 st2 st3,
    useSignal_getSnapshot 0 (mkRefs (VNum 0) 0) two_listeners
      = Ok (0%Z, mkRefs (VNum 0) 0) st1 /\
    write [] 5 0 "value" (VNum 5) st1 = Ok true st2 /\
    useSignal_getSnapshot 0 (mkRefs (VNum 0) 0) st2
      = Ok (1%Z, mkRefs (VNum 5) 1) st3.
Proof.
  destruct (useSignal_snapshot_changes_with_value [] 5 0
              (mkRefs (VNum 0) 0) two_listeners 0%Z (mkRefs (VNum 0) 0) _
              (VNum 5) true _
              ltac:(vm_compute; reflexivity)
              ltac:(vm_compute; reflexivity)
              ltac:(vm_compute; reflexivity))
    as (n' & st3 & Hsnap & Hn' & _).
  vm_compute in Hn'. subst n'.
  do 2 eexists. exists st3.
  split_and!; [vm_compute; reflexivity..|exact Hsnap].
Defined.



Lemma write_prop_value prog fuel r k v st o s st' :
  heap st !! r = Some o -> okind o = KProxy s ->
  write_prop prog fuel r k v st = Ok tt st' ->
  notify_count s (new_events st st') = 1 ->
  EvNotify s ∈ new_events st st' /\
  value_of st' s = value_of st s /\
  (Forall (fun e => touches s e = false) (new_events st st') ->
   calls_by s (new_events st st') = live (listeners_of st s)).
Proof.
  intros Ho Hk Hw Hn.
  rewrite (write_prop_proxy _ _ _ _ _ _ _ _ Ho Hk) in Hw.
  unfold notifyListeners, notify_with, bind, modify in Hw.
  set (st0 := emit (EvNotify s) (store_prop r k v st)) in *.
  assert (H1 : Steps (Some s) st0 (new_events st0 st') st').
  { apply (sound_new_events (Some s) (forEach prog fuel s 0));
      [apply sound_forEach|]. by rewrite Hw. }
  assert (Hev : new_events st st' = [EvNotify s] ++ new_events st0 st').
  { apply new_events_app. rewrite (steps_trace _ _ _ _ H1). simpl.
    by rewrite <- !app_assoc. }
  rewrite Hev in Hn |- *. unfold notify_count in Hn. simpl in Hn.
  rewrite filter_cons_True in Hn by done. simpl in Hn.
  assert (Hn' : EvNotify s ∉ new_events st0 st').
  { apply notify_count_0. unfold notify_count. lia. }
  split_and!.
  - apply elem_of_app. left. by apply list_elem_of_singleton.
  - by rewrite (steps_value _ _ _ _ H1 s Hn').
  - intros [_ Ht]%Forall_app.
    destruct (forEach_exact _ _ _ _ _ _ Hw Ht Hn') as (Hc & _).
    by rewrite drop_0 in Hc.
Qed.

(** X16: [useSignal] does not see writes to the fields of an object payload: a
    write through a proxy of the signal notifies the listeners of the
    signal, yet [signal.value] is the same object as before, and the next
    call of [getSnapshot] returns the number it returned before the
    write. *)
Theorem useSignal_snapshot_ignores_nested_write
    prog fuel s refs st n refs1 st1 r o k v st2 :
  useSignal_getSnapshot s refs st = Ok (n, refs1) st1 ->
  heap st1 !! r = Some o ->
  okind o = KProxy s ->
  write_prop prog fuel r k v st1 = Ok tt st2 ->
  notify_count s (new_events st1 st2) = 1 ->
  EvNotify s ∈ new_events st1 st2 /\
  (Forall (fun e => touches s e = false) (new_events st1 st2) ->
   calls_by s (new_events st1 st2) = live (listeners_of st1 s)) /\
  exists st3, useSignal_getSnapshot s refs1 st2 = Ok (n, refs1) st3.
Proof.
  intros H1 Ho Hk Hw Hn.
  destruct (write_prop_value _ _ _ _ _ _ _ _ _ Ho Hk Hw Hn) as (He & Hv & Hc).
  split_and!; try done.
  destruct (useSignal_getSnapshot_valid _ _ _ _ _ _ H1)
    as (c0 & Hc0 & Hp & Hr & Hsig & _).
  pose proof (sound_new_events None _ _ _ (sound_write_prop prog fuel r k v)
                ltac:(by rewrite Hw)) as H.
  assert (Hlt : s < length (signals st2)).
  { rewrite (steps_signals _ _ _ _ H), Hsig. by eapply lookup_lt_Some. }
  assert (Hp' : prevValue refs1 = value_of st1 s).
  { unfold value_of. by rewrite Hsig, Hc0. }
  destruct (useSignal_getSnapshot_next s refs1 st1 st2 Hlt Hp') as [st3 H3].
  rewrite Hv in H3. rewrite bool_decide_eq_true_2 in H3 by done.
  exists st3. rewrite H3. destruct refs1 as [pv rc]. simpl in Hp', Hr |- *.
  by rewrite Hp', Hr.
Qed.

Lemma useSignal_snapshot_ignores_nested_write_witness :
  exists st1 st2 st3,
    useSignal_getSnapshot 0 (mkRefs (VRef 1) 0) object_signal
      = Ok (0%Z, mkRefs (VRef 1) 0) st1 /\
    write_prop [] 5 1 "count" (VNum 1) st1 = Ok tt st2 /\
    calls_by 0 (new_events st1 st2) = [0] /\
    useSignal_getSnapshot 0 (mkRefs (VRef 1) 0) st2
      = Ok (0%Z, mkRefs (VRef 1) 0) st3.
Proof.
  destruct (useSignal_snapshot_ignores_nested_write [] 5 0
              (mkRefs (VRef 1) 0) object_signal 0%Z (mkRefs (VRef 1) 0) _
              1 (mkObj (KProxy 0) [("count", VNum 0)]) "count" (VNum 1) _
              ltac:(vm_compute; reflexivity)
              ltac:(vm_compute; reflexivity)
              eq_refl
              ltac:(vm_compute; reflexivity)
              ltac:(vm_compute; reflexivity))
    as (_ & _ & st3 & Hsnap).
  do 2 eexists. exists st3.
  split_and!; [vm_compute; reflexivity..|exact Hsnap].
Defined.
Lemma useComputed_getSnapshot_select k s refs st c root o :
  signals st !! s = Some c -> value c = VRef root ->
  heap st !! root = Some o ->
  useComputed_getSnapshot (select k) s refs st =
    let count := if strict_eq (prop_get (oprops o) k) (prevValue refs)
                 then renderCount refs else js_succ (renderCount refs) in
    Ok (count, mkRefs (prop_get (oprops o) k) count)
       (record_get s "value" st).
Proof.
  intros Hs Hv Ho. unfold useComputed_getSnapshot, bind, signal_get.
  rewrite Hs. unfold target_get. simpl String.eqb. cbv iota. rewrite Hv.
  unfold select, val_get, obj_get. rewrite heap_record_get, Ho. reflexivity.
Qed.

(** X17: [useComputed] with the selector [(value) => value.k] on an object
    payload: after a call of [getSnapshot], let a write to a field [k'] of
    the payload return, the signal being notified once and the listeners
    leaving the object as written.  The next call compares what [k] holds
    now with what it held: it returns the same number when the two are
    [===] and the next number when they are not.  A write to another field
    leaves what [k] holds as it was, so that the number stays unless [k]
    holds a value that is not [===] to itself ([NaN]); a write to [k]
    makes it the value written. *)
Theorem useComputed_snapshot_follows_selected_field
    prog fuel k s refs st n refs1 st1 root o k' v st2 o2 :
  value_of st s = VRef root ->
  heap st !! root = Some o ->
  okind o = KProxy s ->
  useComputed_getSnapshot (select k) s refs st = Ok (n, refs1) st1 ->
  write_prop prog fuel root k' v st1 = Ok tt st2 ->
  notify_count s (new_events st1 st2) = 1 ->
  heap st2 !! root = Some o2 ->
  oprops o2 = prop_set (oprops o) k' v ->
  exists n' st3,
    useComputed_getSnapshot (select k) s refs1 st2
      = Ok (n', mkRefs (prop_get (oprops o2) k) n') st3 /\
    n' = (if strict_eq (prop_get (oprops o2) k) (prop_get (oprops o) k)
          then n else js_succ n) /\
    (k' <> k -> prop_get (oprops o2) k = prop_get (oprops o) k) /\
    (k' = k -> prop_get (oprops o2) k = v).
Proof.
  intros Hv Ho Hk H1 Hw Hn Ho2 Hp2.
  destruct (value_of_Some _ _ _ Hv) as (c & Hc & Hcv).
  rewrite (useComputed_getSnapshot_select _ _ _ _ _ _ _ Hc Hcv Ho) in H1.
  cbv zeta in H1. injection H1 as Hn1 Hr1 Hst1.
  assert (Ho1 : heap st1 !! root = Some o).
  { by rewrite <- Hst1, heap_record_get. }
  destruct (write_prop_value _ _ _ _ _ _ _ _ _ Ho1 Hk Hw Hn) as (_ & Hv2 & _).
  assert (Hv1 : value_of st1 s = VRef root).
  { rewrite <- Hst1. unfold value_of. by rewrite signals_record_get, Hc. }
  rewrite Hv1 in Hv2.
  destruct (value_of_Some _ _ _ Hv2) as (c2 & Hc2 & Hcv2).
  rewrite (useComputed_getSnapshot_select _ _ _ _ _ _ _ Hc2 Hcv2 Ho2).
  cbv zeta. eexists _, _. split; [reflexivity|].
  rewrite <- Hr1. simpl. rewrite Hn1. split_and!.
  - done.
  - intros Hne. by rewrite Hp2, prop_get_set_ne.
  - intros ->. by rewrite Hp2, prop_get_set_eq.
Qed.

Lemma useComputed_snapshot_follows_selected_field_witness :
  exists st1 st2 st3,
    useComputed_getSnapshot (select "count") 0 useComputed_refs object_signal
      = Ok (1%Z, mkRefs (VNum 0) 1) st1 /\
    write_prop reading 5 1 "count" (VNum 1) st1 = Ok tt st2 /\
    useComputed_getSnapshot (select "count") 0 (mkRefs (VNum 0) 1) st2
      = Ok (2%Z, mkRefs (VNum 1) 2) st3.
Proof.
  destruct (useComputed_snapshot_follows_selected_field reading 5 "count" 0
              useComputed_refs object_signal 1%Z (mkRefs (VNum 0) 1) _
              1 (mkObj (KProxy 0) [("count", VNum 0)]) "count" (VNum 1) _
              (mkObj (KProxy 0) [("count", VNum 1)])
              eq_refl eq_refl eq_refl
              ltac:(vm_compute; reflexivity)
              ltac:(vm_compute; reflexivity)
              ltac:(vm_compute; reflexivity)
              ltac:(vm_compute; reflexivity)
              eq_refl)
    as (n' & st3 & Hsnap & Hn' & _).
  vm_compute in Hn'. subst n'.
  do 2 eexists. exists st3.
  split_and!; [vm_compute; reflexivity..|exact Hsnap].
Defined.

(** X18: [useComputed] with a selector that builds an object: every call of
    [getSnapshot] finds an object that is not the previous one, so the
    number it returns is never the number the call before returned (below
    2^53): the snapshot does not settle, whether or not the signal was
    written. *)
Theorem useComputed_snapshot_of_built_object_never_settles
    fields s refs st n refs1 st1 :
  useComputed_getSnapshot (build fields) s refs st = Ok (n, refs1) st1 ->
  exists refs2 st2,
    useComputed_getSnapshot (build fields) s refs1 st1
      = Ok (js_succ n, refs2) st2 /\
    ((n < 2 ^ 53)%Z -> js_succ n <> n).
Proof.
  intros H1. unfold useComputed_getSnapshot, bind, signal_get in H1 |- *.
  destruct (signals st !! s) as [c|] eqn:Hs; [|done].
  unfold build in H1 |- *. rewrite eval_literal in H1.
  destruct (alloc_object_literal fields (heap (record_get s "value" st)))
    as (ps & h1 & Ha & Hpre).
  rewrite Ha in H1. cbn [fst snd] in H1. unfold ret in H1.
  injection H1 as Hn Hr Hst.
  assert (Hs1 : signals st1 !! s = Some c).
  { rewrite <- Hst. simpl. by rewrite signals_record_get. }
  rewrite Hs1, eval_literal.
  destruct (alloc_object_literal fields (heap (record_get s "value" st1)))
    as (ps2 & h2 & Ha2 & Hpre2).
  rewrite Ha2. cbn [fst snd]. unfold ret.
  assert (Hlen : length h1 < length h2).
  { apply prefix_length in Hpre2. rewrite heap_record_get in Hpre2.
    rewrite <- Hst in Hpre2. simpl in Hpre2. rewrite length_app in Hpre2.
    simpl in Hpre2. lia. }
  rewrite <- Hr. simpl. rewrite Hn. unfold strict_eq.
  rewrite bool_decide_eq_false_2 by (intros [=]; lia).
  eexists _, _. split; [reflexivity|].
  intros Hlim. rewrite js_succ_changes by done. lia.
Qed.

Lemma useComputed_snapshot_of_built_object_never_settles_witness :
  exists st1 refs2 st2,
    useComputed_getSnapshot (build [("n", LVal (VNum 1))]) 0 useComputed_refs
        three_signals
      = Ok (1%Z, mkRefs (VRef 0) 1) st1 /\
    useComputed_getSnapshot (build [("n", LVal (VNum 1))]) 0
        (mkRefs (VRef 0) 1) st1
      = Ok (2%Z, refs2) st2.
Proof.
  destruct (useComputed_snapshot_of_built_object_never_settles
              [("n", LVal (VNum 1))] 0 useComputed_refs three_signals
              1%Z (mkRefs (VRef 0) 1) _ ltac:(vm_compute; reflexivity))
    as (refs2 & st2 & Hsnap & _).
  eexists. exists refs2, st2. split; [vm_compute; reflexivity|exact Hsnap].
Defined.
(** ** The earlier [useComputed] *)



(** ** What a capture that threw leaves to the next *)

(** X20: [signalEffect] called while the working set is not empty -- as it is
    after a capture that threw -- subscribes the callback to the signals
    left in the set as well as to those its first run reads, and returns
    them among the dependencies. *)
Theorem leftover_dependencies_join_next_effect prog fuel cb st stb :
  (forall s, s ∈ effectDependencies st -> s < length (signals st)) ->
  exec prog fuel (body prog cb) (capture_start cb st) = Ok tt stb ->
  Forall (fun e => is_capture e = false)
         (new_events (capture_start cb st) stb) ->
  exists st1,
    signalEffect prog fuel cb st
      = Ok (record_reads (effectDependencies st)
              (reads (new_events (capture_start cb st) stb))) st1 /\
    (forall s, s ∈ effectDependencies st -> cb ∈ live (listeners_of st1 s)) /\
    (forall s, EvGet s "value" ∈ new_events (capture_start cb st) stb ->
       cb ∈ live (listeners_of st1 s)) /\
    recorder_idle st1.
Proof.
  intros Hvalid Hrun Hnc.
  assert (Hf : final (exec prog fuel (body prog cb) (capture_start cb st))
               = Some stb) by (by rewrite Hrun).
  pose proof (sound_new_events None _ _ _ (sound_exec prog fuel _) Hf) as H.
  destruct (Steps_recording _ _ _ _ H eq_refl Hnc) as [_ Hd].
  change (effectDependencies (capture_start cb st))
    with (effectDependencies st) in Hd.
  set (deps := record_reads (effectDependencies st)
                 (reads (new_events (capture_start cb st) stb))) in *.
  destruct (for_each_subscribe cb deps (capture_end cb stb))
    as (st1 & Hsub & Hin & _ & _).
  { intros s [Hs|Hs]%elem_of_record_reads;
      change (length (signals (capture_end cb stb)))
        with (length (signals stb));
      rewrite (steps_signals _ _ _ _ H).
    - by apply Hvalid.
    - apply elem_of_reads in Hs. by apply (steps_get _ _ _ _ H s "value"). }
  assert (Hse : signalEffect prog fuel cb st = Ok deps st1).
  { rewrite signalEffect_unfold, getDependenciesFromEffect_unfold, Hrun, Hd.
    unfold bind. by rewrite Hsub. }
  exists st1. split_and!; try done.
  - intros s Hs. apply elem_of_live, Hin, elem_of_record_reads. by left.
  - intros s Hs. apply elem_of_live, Hin, elem_of_record_reads. right.
    by apply elem_of_reads.
  - assert (Hk : keeps_idle (for_each (fun s => call_subscribe s cb) deps)).
    { apply keeps_idle_for_each. intros s. apply keeps_idle_call_subscribe. }
    by apply (Hk _ _ _ Hsub).
Qed.

Lemma leftover_dependencies_join_next_effect_witness :
  exists st1,
    signalEffect throwing_then_reading 5 1
        (run (signalEffect throwing_then_reading 5 0) three_signals)
      = Ok [0; 1] st1 /\
    1 ∈ live (listeners_of st1 0).
Proof.
  destruct (leftover_dependencies_join_next_effect throwing_then_reading 5 1
              (run (signalEffect throwing_then_reading 5 0) three_signals) _
              ltac:(vm_compute; intros s [->|[]%elem_of_nil]%elem_of_cons; lia)
              ltac:(vm_compute; reflexivity)
              ltac:(vm_compute; repeat constructor))
    as (st1 & Hse & Hleft & _).
  exists st1. split; [exact Hse|]. apply Hleft. vm_compute. left.
Defined.

(** ** Effects and object payloads *)

Lemma write_prop_reaches prog fuel r k v st o s cb i st' :
  heap st !! r = Some o -> okind o = KProxy s ->
  write_prop prog fuel r k v st = Ok tt st' ->
  listeners_of st s !! i = Some (Some cb) ->
  EvUnsub s cb ∉ new_events st st' ->
  EvCall (Some s) cb ∈ new_events st st'.
Proof.
  intros Ho Hk Hw Hi Hu.
  rewrite (write_prop_proxy _ _ _ _ _ _ _ _ Ho Hk) in Hw.
  unfold notifyListeners, notify_with, bind, modify in Hw.
  set (st0 := emit (EvNotify s) (store_prop r k v st)) in *.
  assert (H1 : Steps (Some s) st0 (new_events st0 st') st').
  { apply (sound_new_events (Some s) (forEach prog fuel s 0));
      [apply sound_forEach|]. by rewrite Hw. }
  assert (Hev : new_events st st' = [EvNotify s] ++ new_events st0 st').
  { apply new_events_app. rewrite (steps_trace _ _ _ _ H1). simpl.
    by rewrite <- !app_assoc. }
  rewrite Hev in Hu |- *. apply not_elem_of_app in Hu as [_ Hu].
  apply elem_of_app. right.
  apply (forEach_reaches _ _ _ _ i 0 _ _ Hw); [done|lia|done].
Qed.

(** X21: An effect depends on signals, not on fields: when its first run read
    [signal.value] of an object signal, every later assignment to a field
    of the payload, at any depth and whichever field, invokes the callback
    again, as long as it was not unsubscribed. *)
Theorem nested_write_reruns_effect prog fuel cb st stb :
  recorder_idle st ->
  exec prog fuel (body prog cb) (capture_start cb st) = Ok tt stb ->
  Forall (fun e => is_capture e = false)
         (new_events (capture_start cb st) stb) ->
  exists deps st1,
    signalEffect prog fuel cb st = Ok deps st1 /\
    forall s r o f1 c stm f2 k v st2,
      EvGet s "value" ∈ new_events (capture_start cb st) stb ->
      heap st1 !! r = Some o -> okind o = KProxy s ->
      final (exec prog f1 c st1) = Some stm ->
      EvUnsub s cb ∉ new_events st1 stm ->
      write_prop prog f2 r k v stm = Ok tt st2 ->
      EvUnsub s cb ∉ new_events stm st2 ->
      EvCall (Some s) cb ∈ new_events stm st2.
Proof.
  intros Hidle Hrun Hnc.
  destruct (capture_returns_signals_read_core _ _ _ _ _ Hidle Hrun Hnc)
    as (Hget & Hval).
  set (deps := nub (reads (new_events (capture_start cb st) stb))) in *.
  destruct (for_each_subscribe cb deps (capture_end cb stb))
    as (st1 & Hsub & Hin & _ & _); [done|].
  exists deps, st1. split.
  { rewrite signalEffect_unfold, Hget. unfold bind. by rewrite Hsub. }
  intros s r o f1 c stm f2 k v st2 Hread Ho Hk Hf Hu1 Hw Hu2.
  assert (Hs : s ∈ deps).
  { unfold deps. by rewrite elem_of_nub, elem_of_reads. }
  apply Hin, list_elem_of_lookup in Hs as [i Hi].
  pose proof (sound_new_events None _ _ _ (sound_exec prog f1 c) Hf) as H.
  pose proof (steps_stay _ _ _ _ H s cb i Hi Hu1) as Hi'.
  destruct (steps_heap _ _ _ _ H _ _ Ho) as (om & Hom & Hkm).
  eapply write_prop_reaches; [exact Hom|congruence|done..].
Qed.

Lemma nested_write_reruns_effect_witness :
  exists st1 st2,
    signalEffect reading_field 6 0 (run create_counter initial) = Ok [0] st1 /\
    write_prop reading_field 6 1 "other" (VNum 1) st1 = Ok tt st2 /\
    EvCall (Some 0) 0 ∈ new_events st1 st2.
Proof.
  destruct (nested_write_reruns_effect reading_field 6 0
              (run create_counter initial) _
              (conj eq_refl eq_refl)
              ltac:(vm_compute; reflexivity)
              ltac:(vm_compute; repeat constructor))
    as (deps & st1 & Hse & Hre).
  vm_compute in Hse. injection Hse as <- <-.
  do 2 eexists. split; [reflexivity|]. split; [vm_compute; reflexivity|].
  apply (Hre 0 1 (mkObj (KProxy 0) [("count", VNum 0)]) 1 CSkip _ 6
             "other" (VNum 1)).
  - by_compute.
  - reflexivity.
  - reflexivity.
  - vm_compute. reflexivity.
  - by_compute.
  - vm_compute. reflexivity.
  - by_compute.
Defined.

(** ** The earlier [useSignalEffect] *)

Lemma read_all_ok l st :
  (forall s, s ∈ l -> s < length (signals st)) ->
  isRunningEffect st = false ->
  Earlier.read_all l st
    = Ok (map (fun s => (s, value_of st s)) l)
         (mkState (signals st) (heap st) false (effectDependencies st)
                  (trace st ++ map (fun s => EvGet s "value") l)).
Proof.
  revert st. induction l as [|s l IH]; intros st Hv Hflag.
  - simpl. unfold ret. rewrite app_nil_r. destruct st. simpl in Hflag.
    by subst.
  - simpl. unfold bind at 1, signal_get.
    destruct (lookup_lt_is_Some_2 (signals st) s) as [c Hc].
    { apply Hv. left. }
    rewrite Hc. unfold bind at 1.
    assert (Hrg : record_get s "value" st
              = mkState (signals st) (heap st) false (effectDependencies st)
                        (trace st ++ [EvGet s "value"])).
    { unfold record_get. simpl. rewrite Hflag. simpl. unfold emit.
      by rewrite Hflag. }
    rewrite Hrg, IH; [|intros s' Hs'; apply Hv; by right|done].
    unfold ret, target_get. simpl String.eqb. cbv iota. simpl map.
    replace (value_of st s) with (value c)
      by (unfold value_of; by rewrite Hc).
    simpl. rewrite <- app_assoc. reflexivity.
Qed.

(** X22: In the earlier [useSignalEffect], [getSnapshot] looks for a changed
    signal in the working set of the recorder, not in the dependencies it
    captured.  So with the recorder idle it never calls the callback,
    whatever the dependencies hold now and held before: it reads the
    dependencies, keeps their values and returns [false]. *)
Theorem earlier_useSignalEffect_never_reruns_callback call cb refs st :
  recorder_idle st ->
  (forall s, s ∈ Earlier.dependencies refs -> s < length (signals st)) ->
  exists st',
    Earlier.useSignalEffect_getSnapshot call cb refs st
      = Ok (false,
            Earlier.mkEffectRefs (Earlier.dependencies refs)
              (map (fun s => (s, value_of st s))
                   (Earlier.dependencies refs))) st' /\
    new_events st st'
      = map (fun s => EvGet s "value") (Earlier.dependencies refs) /\
    (forall by_signal cb', EvCall by_signal cb' ∉ new_events st st').
Proof.
  intros [Hflag Hdeps] Hv.
  unfold Earlier.useSignalEffect_getSnapshot, bind. rewrite Hdeps. simpl.
  unfold ret at 1. rewrite (read_all_ok _ _ Hv Hflag). unfold ret.
  eexists. split; [reflexivity|].
  assert (Hev : new_events st
            (mkState (signals st) (heap st) false (effectDependencies st)
               (trace st ++ map (fun s => EvGet s "value") (Earlier.dependencies refs)))
          = map (fun s => EvGet s "value") (Earlier.dependencies refs)).
  { by apply new_events_app. }
  split; [done|]. intros by_signal cb'. rewrite Hev.
  intros (s & [=] & _)%list_elem_of_fmap.
Qed.

Lemma earlier_useSignalEffect_never_reruns_callback_witness :
  exists st1 st2 refs',
    write [] 5 0 "value" (VNum 9) three_signals = Ok true st1 /\
    Earlier.useSignalEffect_getSnapshot (call [CThrow] 5) 0
        (Earlier.mkEffectRefs [0; 1] [(0, VNum 0); (1, VNum 0)]) st1
      = Ok (false, refs') st2 /\
    new_events st1 st2 = [EvGet 0 "value"; EvGet 1 "value"].
Proof.
  eexists.
  destruct (earlier_useSignalEffect_never_reruns_callback (call [CThrow] 5) 0
              (Earlier.mkEffectRefs [0; 1] [(0, VNum 0); (1, VNum 0)])
              (run (write [] 5 0 "value" (VNum 9)) three_signals)
              (conj eq_refl eq_refl)
              ltac:(vm_compute;
                    intros s [->|[->|[]%elem_of_nil]%elem_of_cons]%elem_of_cons;
                    lia))
    as (st2 & Hsnap & Hev & _).
  exists st2. eexists. split; [vm_compute; reflexivity|].
  split; [exact Hsnap|exact Hev].
Defined.
